(** * thonny-sealed: sealed blocks, their fingerprints and the edit guards

    A shallow embedding of [thonnycontrib/thonny_sealed/__init__.py] and of
    [thonny_seal/main.py], and the properties of the sealing transform, the
    block assembler and the insertion and deletion guards.

    Conventions of the embedding.
    - A Python [str] is a list of characters; characters are the code points
      below 256 (the type [ascii]).  [hashlib.md5] is applied to the UTF-8
      encoding of a string, which is two bytes for a code point above 127.
    - A Python function that may raise returns an [outcome]: the value it
      returns, or the exception it raises ([AssertionError] of an [assert],
      [ViolationError] of an icontract precondition checked at a call made
      by the code itself).
    - The preconditions ([@require]) of the functions under study are
      hypotheses of the theorems; their postconditions ([@ensure]) are
      conclusions. *)

From Stdlib Require Import List Arith Lia Bool Ascii NArith PeanoNat.
Import ListNotations.

(** ** Strings *)

Module Str.

Inductive literal : Set :=
| LNil
| LCons (a : ascii) (r : literal).

Fixpoint literal_of_bytes (l : list Byte.byte) : literal :=
  match l with
  | [] => LNil
  | b :: r => LCons (ascii_of_byte b) (literal_of_bytes r)
  end.

Fixpoint bytes_of_literal (s : literal) : list Byte.byte :=
  match s with
  | LNil => []
  | LCons a r => byte_of_ascii a :: bytes_of_literal r
  end.

End Str.

Declare Scope str_scope.
Delimit Scope str_scope with str.
#[warnings="-via-type-mismatch"]
String Notation list Str.literal_of_bytes Str.bytes_of_literal
  (via Str.literal mapping [ [nil] => Str.LNil, [cons] => Str.LCons ]) : str_scope.
Open Scope str_scope.

(** A Python [str]. *)
Definition str := list ascii.

Definition str_eqb (a b : str) : bool :=
  if list_eq_dec ascii_dec a b then true else false.

Definition code (c : ascii) : nat := nat_of_ascii c.

(** The new-line character. *)
Definition NL : ascii := ascii_of_nat 10.

Definition is_nl (c : ascii) : bool := Ascii.eqb c NL.

(** [str.isspace] of one character, which is also what [\s] matches in a
    [str] pattern: the code points below 256 that Python holds for white
    space. *)
Definition is_space (c : ascii) : bool :=
  let n := code c in
  ((9 <=? n) && (n <=? 13)) || ((28 <=? n) && (n <=? 32))
  || (n =? 133) || (n =? 160).

Fixpoint dropwhile (p : ascii -> bool) (s : str) : str :=
  match s with
  | [] => []
  | c :: r => if p c then dropwhile p r else s
  end.

(** [s.lstrip()], [s.rstrip()] and [s.strip()]. *)
Definition lstrip (s : str) : str := dropwhile is_space s.
Definition rstrip (s : str) : str := rev (dropwhile is_space (rev s)).
Definition strip (s : str) : str := rstrip (lstrip s).

(** [s.startswith(p)]: the rest of [s] after [p], when [s] starts with [p]. *)
Fixpoint after_prefix (p s : str) : option str :=
  match p, s with
  | [], _ => Some s
  | a :: p', b :: s' => if Ascii.eqb a b then after_prefix p' s' else None
  | _ :: _, [] => None
  end.

Definition startswith (s p : str) : bool :=
  match after_prefix p s with Some _ => true | None => false end.

Definition endswith (s p : str) : bool := startswith (rev s) (rev p).

(** [sep.join(parts)]. *)
Fixpoint join (sep : str) (parts : list str) : str :=
  match parts with
  | [] => []
  | [p] => p
  | p :: rest => p ++ sep ++ join sep rest
  end.

(** [lines[a:b]] for [0 <= a]. *)
Definition slice {A} (l : list A) (a b : nat) : list A :=
  firstn (b - a) (skipn a l).

Definition digit (n : nat) : ascii := ascii_of_nat (48 + n).

Fixpoint decimal_fuel (fuel n : nat) (acc : str) : str :=
  match fuel with
  | 0 => acc
  | S fuel' =>
      let acc' := digit (n mod 10) :: acc in
      if n / 10 =? 0 then acc' else decimal_fuel fuel' (n / 10) acc'
  end.

(** [str(n)], the decimal numeral used by an f-string. *)
Definition str_of_nat (n : nat) : str := decimal_fuel (S n) n [].

Definition hex_digit (n : nat) : ascii :=
  nth n ("0123456789abcdef" : str) "0"%char.

(** [repr(s)] of a string of code points below 256. *)
Definition printable (c : ascii) : bool :=
  let n := code c in
  ((32 <=? n) && (n <? 127)) || ((161 <=? n) && negb (n =? 173)).

Definition repr_char (quote c : ascii) : str :=
  if Ascii.eqb c quote || Ascii.eqb c "\"%char then ["\"%char; c]
  else if code c =? 9 then "\t"
  else if code c =? 10 then "\n"
  else if code c =? 13 then "\r"
  else if printable c then [c]
  else ["\"%char; "x"%char; hex_digit (code c / 16); hex_digit (code c mod 16)].

Definition repr (s : str) : str :=
  let single := existsb (Ascii.eqb "'"%char) s in
  let double := existsb (Ascii.eqb (ascii_of_nat 34)) s in
  let quote := if single && negb double then ascii_of_nat 34 else "'"%char in
  quote :: flat_map (repr_char quote) s ++ [quote].

(** ** Outcomes of a call *)

Inductive exn : Set :=
| AssertionError
| ViolationError.

(** [Unfinished] is the answer of a loop of the model that was given too
    few iterations; the theorems show that the bounds the model gives to
    the loops of the code are never reached. *)
Inductive outcome (A : Type) : Type :=
| Returned (a : A)
| Raised (e : exn)
| Unfinished.

Arguments Returned {A} a.
Arguments Raised {A} e.
Arguments Unfinished {A}.

Definition bind {A B} (m : outcome A) (f : A -> outcome B) : outcome B :=
  match m with
  | Returned a => f a
  | Raised e => Raised e
  | Unfinished => Unfinished
  end.

Notation "x <- m ;; k" := (bind m (fun x => k))
  (at level 61, m at next level, right associativity).
Notation "' p <- m ;; k" := (bind m (fun x => match x with p => k end))
  (at level 61, p pattern, m at next level, right associativity).

(** [assert c]. *)
Definition assert (c : bool) : outcome unit :=
  if c then Returned tt else Raised AssertionError.

(** A precondition of a callee, checked by icontract when the code calls it. *)
Definition require (c : bool) : outcome unit :=
  if c then Returned tt else Raised ViolationError.

(** ** The marker lines *)

Definition skip_ws (s : str) : str := dropwhile is_space s.

(** One of the alternatives of a group such as [(on|On|ON)]; no alternative
    is a prefix of another, so the first that fits is the only one. *)
Fixpoint one_of (kws : list str) (s : str) : option str :=
  match kws with
  | [] => None
  | k :: rest =>
      match after_prefix k s with
      | Some r => Some r
      | None => one_of rest s
      end
  end.

(** [\s*(:|\s)\s*]: white space with a colon in it, or at least one white
    space character. *)
Definition separator (s : str) : option str :=
  let r := skip_ws s in
  match r with
  | ":"%char :: r' => Some (skip_ws r')
  | _ => if length r <? length s then Some r else None
  end.

Fixpoint no_newline_but_last (s : str) : bool :=
  match s with
  | [] => true
  | [c] => true
  | c :: r => negb (is_nl c) && no_newline_but_last r
  end.

(** The pattern [( \s* | \s+ .* )? $] on the text after the keyword: only white space, or
    white space and then characters other than new lines ([$] also matches
    before a new line that ends the string). *)
Definition tail_ok (s : str) : bool :=
  let t := skip_ws s in
  match t with
  | [] => true
  | _ => (length t <? length s) && no_newline_but_last t
  end.

Definition SEALED : list str := ["sealed"; "Sealed"; "SEALED"].
Definition ON : list str := ["on"; "On"; "ON"].
Definition OFF : list str := ["off"; "Off"; "OFF"].

(** [re.match] of
    [^(?P<prefix>\s*#\s*(sealed|Sealed|SEALED)\s*(:|\s)\s*KW)(?P<suffix>( \s* | \s+ .* ))?$]
    where [KW] is [(on|On|ON)] or [(off|Off|OFF)].  The result is the group
    [prefix] and the text after it.  The group [suffix] always takes part in
    a match (it can match the empty string), and what it captures differs
    from the text after the prefix by a final new line at most. *)
Definition match_marker (kws : list str) (line : str) : option (str * str) :=
  match skip_ws line with
  | "#"%char :: r1 =>
      match one_of SEALED (skip_ws r1) with
      | Some r2 =>
          match separator r2 with
          | Some r3 =>
              match one_of kws r3 with
              | Some r4 =>
                  if tail_ok r4
                  then Some (firstn (length line - length r4) line, r4)
                  else None
              | None => None
              end
          | None => None
          end
      | None => None
      end
  | _ => None
  end.

Definition COMMENT_FIRST_RE (line : str) : option (str * str) :=
  match_marker ON line.

Definition COMMENT_LAST_RE (line : str) : option (str * str) :=
  match_marker OFF line.

(** ** Markers and blocks *)

Inductive kind : Set :=
| First
| Last.

Record SealMarker : Set := mkMarker {
  marker_kind : kind;
  lineno : nat;
  prefix : str;
  suffix : option str
}.

Definition is_First (m : SealMarker) : bool :=
  match marker_kind m with First => true | Last => false end.

Definition is_Last (m : SealMarker) : bool :=
  match marker_kind m with First => false | Last => true end.

Record Block : Set := mkBlock {
  first : SealMarker;
  last : SealMarker
}.

(** A sequence of text lines. *)
Definition Lines := list str.

(** [extract_markers]: the markers of the lines, by [enumerate(lines)]. *)
Fixpoint extract_markers_from (i : nat) (lines : Lines) : list SealMarker :=
  match lines with
  | [] => []
  | line :: rest =>
      match COMMENT_FIRST_RE line with
      | Some (p, s) =>
          mkMarker First i p (Some (strip s)) :: extract_markers_from (S i) rest
      | None =>
          match COMMENT_LAST_RE line with
          | Some (p, s) =>
              mkMarker Last i p (Some (strip s))
              :: extract_markers_from (S i) rest
          | None => extract_markers_from (S i) rest
          end
      end
  end.

Definition extract_markers (lines : Lines) : list SealMarker :=
  extract_markers_from 0 lines.

(** ** The block assembler *)

Definition line_number (m : SealMarker) : str := str_of_nat (lineno m + 1).

Definition double_start (fst marker : SealMarker) : str :=
  "Unexpected double start of a sealing block at line " ++ line_number marker
  ++ ". The previous block started at line " ++ line_number fst ++ ".".

Definition end_without_start (marker : SealMarker) : str :=
  "Unexpected end of a sealing block at line " ++ line_number marker
  ++ " without a starting comment.".

Definition unexpected_suffix (fst marker : SealMarker) (s : str) : str :=
  "The suffix of the sealing block at line " ++ line_number fst
  ++ " contains no hash suffix, but the hash suffix of the block at line "
  ++ line_number marker ++ " is: " ++ repr s.

Definition missing_suffix (fst marker : SealMarker) (s : str) : str :=
  "The suffix of the sealing block at line " ++ line_number fst
  ++ " contains the hash suffix " ++ repr s
  ++ ", but there is no suffix at the end of the block at line "
  ++ line_number marker ++ ".".

Definition unmatched_suffix (fst marker : SealMarker) (s t : str) : str :=
  "The suffix of the sealing block at line " ++ line_number fst
  ++ " contains the hash suffix " ++ repr s
  ++ ", but the suffix at the end of the block at line "
  ++ line_number marker ++ " does not match it: " ++ repr t.

Definition open_at_end (fst : SealMarker) : str :=
  "Unexpected open block at the end. The block started at line "
  ++ line_number fst ++ ".".

(** [Block(first=..., last=...)], with the precondition on the line numbers
    that icontract checks; the one on the suffixes holds wherever the code
    builds a block. *)
Definition new_Block (f l : SealMarker) : outcome Block :=
  _ <- require (lineno f <? lineno l) ;;
  Returned (mkBlock f l).

Definition ParseResult : Set := option (list Block) * option str.

Definition failed (msg : str) : outcome ParseResult := Returned (None, Some msg).

(** The loop of [parse_blocks]: [fst] is the open start marker, [result] the
    blocks closed so far. *)
Fixpoint parse_blocks_loop (markers : list SealMarker)
  (fst : option SealMarker) (result : list Block) : outcome ParseResult :=
  match markers with
  | [] =>
      match fst with
      | Some f => failed (open_at_end f)
      | None => Returned (Some result, None)
      end
  | marker :: rest =>
      match marker_kind marker with
      | First =>
          match fst with
          | None => parse_blocks_loop rest (Some marker) result
          | Some f => failed (double_start f marker)
          end
      | Last =>
          match fst with
          | None => failed (end_without_start marker)
          | Some f =>
              match suffix f, suffix marker with
              | None, Some t => failed (unexpected_suffix f marker t)
              | Some s, None => failed (missing_suffix f marker s)
              | fs, ms =>
                  _ <- assert (match fs with Some _ => true | None => false end) ;;
                  _ <- assert (match ms with Some _ => true | None => false end) ;;
                  match fs, ms with
                  | Some s, Some t =>
                      if negb (str_eqb s t)
                      then failed (unmatched_suffix f marker s t)
                      else
                        b <- new_Block f marker ;;
                        parse_blocks_loop rest None (result ++ [b])
                  | _, _ => Raised AssertionError
                  end
              end
          end
      end
  end.

Definition parse_blocks (markers : list SealMarker) : outcome ParseResult :=
  parse_blocks_loop markers None [].

(** ** MD5 *)

(** [hashlib.md5(data).hexdigest()], after RFC 1321, on 32-bit words held
    in [N]. *)
Module MD5.

Local Open Scope N_scope.

Definition mask : N := 0xffffffff.

Definition add32 (a b : N) : N := N.land (a + b) mask.

Definition not32 (a : N) : N := N.lxor a mask.

Definition rotl (x s : N) : N :=
  N.land (N.lor (N.shiftl x s) (N.shiftr x (32 - s))) mask.

Definition K : list N :=
  [0xd76aa478; 0xe8c7b756; 0x242070db; 0xc1bdceee;
   0xf57c0faf; 0x4787c62a; 0xa8304613; 0xfd469501;
   0x698098d8; 0x8b44f7af; 0xffff5bb1; 0x895cd7be;
   0x6b901122; 0xfd987193; 0xa679438e; 0x49b40821;
   0xf61e2562; 0xc040b340; 0x265e5a51; 0xe9b6c7aa;
   0xd62f105d; 0x02441453; 0xd8a1e681; 0xe7d3fbc8;
   0x21e1cde6; 0xc33707d6; 0xf4d50d87; 0x455a14ed;
   0xa9e3e905; 0xfcefa3f8; 0x676f02d9; 0x8d2a4c8a;
   0xfffa3942; 0x8771f681; 0x6d9d6122; 0xfde5380c;
   0xa4beea44; 0x4bdecfa9; 0xf6bb4b60; 0xbebfbc70;
   0x289b7ec6; 0xeaa127fa; 0xd4ef3085; 0x04881d05;
   0xd9d4d039; 0xe6db99e5; 0x1fa27cf8; 0xc4ac5665;
   0xf4292244; 0x432aff97; 0xab9423a7; 0xfc93a039;
   0x655b59c3; 0x8f0ccc92; 0xffeff47d; 0x85845dd1;
   0x6fa87e4f; 0xfe2ce6e0; 0xa3014314; 0x4e0811a1;
   0xf7537e82; 0xbd3af235; 0x2ad7d2bb; 0xeb86d391].

Definition R : list N :=
  [7; 12; 17; 22; 7; 12; 17; 22; 7; 12; 17; 22; 7; 12; 17; 22;
   5; 9; 14; 20; 5; 9; 14; 20; 5; 9; 14; 20; 5; 9; 14; 20;
   4; 11; 16; 23; 4; 11; 16; 23; 4; 11; 16; 23; 4; 11; 16; 23;
   6; 10; 15; 21; 6; 10; 15; 21; 6; 10; 15; 21; 6; 10; 15; 21].

(** The four bytes of a word, and the word of four bytes, little-endian. *)
Definition bytes_of_word (w : N) : list N :=
  [N.land w 255; N.land (N.shiftr w 8) 255;
   N.land (N.shiftr w 16) 255; N.land (N.shiftr w 24) 255].

Fixpoint words (fuel : nat) (bytes : list N) : list N :=
  match fuel, bytes with
  | S fuel', b0 :: b1 :: b2 :: b3 :: rest =>
      (b0 + N.shiftl b1 8 + N.shiftl b2 16 + N.shiftl b3 24)
      :: words fuel' rest
  | _, _ => []
  end.

Definition pad (msg : list N) : list N :=
  let len := length msg in
  let zeros := ((119 - len mod 64) mod 64)%nat in
  let bits := 8 * N.of_nat len in
  msg ++ [128] ++ repeat 0 zeros
  ++ bytes_of_word (N.land bits mask)
  ++ bytes_of_word (N.land (N.shiftr bits 32) mask).

Record state : Set := mkState { sA : N; sB : N; sC : N; sD : N }.

Definition init : state :=
  mkState 0x67452301 0xefcdab89 0x98badcfe 0x10325476.

Definition step (M : list N) (st : state) (i : nat) : state :=
  let '(mkState a b c d) := st in
  let '(f, g) :=
    if (i <? 16)%nat then
      (N.lor (N.land b c) (N.land (not32 b) d), i)
    else if (i <? 32)%nat then
      (N.lor (N.land d b) (N.land (not32 d) c), ((5 * i + 1) mod 16)%nat)
    else if (i <? 48)%nat then
      (N.lxor b (N.lxor c d), ((3 * i + 5) mod 16)%nat)
    else
      (N.lxor c (N.lor b (not32 d)), ((7 * i) mod 16)%nat) in
  let f' := add32 (add32 (add32 f a) (nth i K 0)) (nth g M 0) in
  mkState d (add32 b (rotl f' (nth i R 0))) b c.

Definition chunk (st : state) (M : list N) : state :=
  let st' := fold_left (step M) (seq 0 64) st in
  mkState (add32 (sA st) (sA st')) (add32 (sB st) (sB st'))
          (add32 (sC st) (sC st')) (add32 (sD st) (sD st')).

Fixpoint chunks (fuel : nat) (ws : list N) (st : state) : state :=
  match fuel, ws with
  | S fuel', _ :: _ => chunks fuel' (skipn 16 ws) (chunk st (firstn 16 ws))
  | _, _ => st
  end.

Definition digest (msg : list N) : list N :=
  let bytes := pad msg in
  let ws := words (length bytes) bytes in
  let st := chunks (length ws) ws init in
  bytes_of_word (sA st) ++ bytes_of_word (sB st)
  ++ bytes_of_word (sC st) ++ bytes_of_word (sD st).

Definition hex_of_byte (b : N) : str :=
  [hex_digit (N.to_nat (b / 16)); hex_digit (N.to_nat (b mod 16))].

Definition hexdigest (msg : list N) : str := flat_map hex_of_byte (digest msg).

End MD5.

(** [s.encode("utf-8")] for code points below 256. *)
Definition utf8_char (c : ascii) : list N :=
  let n := N.of_nat (code c) in
  if (n <? 128)%N then [n]
  else [N.lor 192 (N.shiftr n 6); N.lor 128 (N.land n 63)].

Definition encode_utf8 (s : str) : list N := flat_map utf8_char s.

(** [hashlib.md5(content_to_seal.encode("utf-8")).hexdigest()[-8:]] for
    [content_to_seal = f"{i}.{content}"]. *)
Definition truncated_md5 (i : nat) (content : str) : str :=
  let content_to_seal := str_of_nat i ++ "." ++ content in
  let md5hex := MD5.hexdigest (encode_utf8 content_to_seal) in
  skipn (length md5hex - 8) md5hex.

(** ** The sealing transform *)

(** The text of a block: [lines[block.first.lineno + 1 : block.last.lineno]]
    joined by new lines. *)
Definition body (lines : Lines) (block : Block) : Lines :=
  slice lines (lineno (first block) + 1) (lineno (last block)).

Definition content_of (lines : Lines) (block : Block) : str :=
  join [NL] (body lines block).

(** Modelled from the spec: [assert_lines], which [seal] calls and which is
    not among the sources; a line sequence is a list of strings none of
    which holds a new-line character, which is also the precondition of
    [Lines.__new__]. *)
Definition line_ok (line : str) : bool :=
  negb (existsb (fun c => (code c =? 10) || (code c =? 13)) line).

Definition assert_lines (lines : list str) : outcome Lines :=
  _ <- require (forallb line_ok lines) ;;
  Returned lines.

(** The loop of [seal] over [enumerate(blocks)]; [prev] is [blocks[i - 1]]
    when [i > 0]. *)
Fixpoint seal_loop (lines : Lines) (i : nat) (prev : option Block)
  (blocks : list Block) (result : list str) : list str :=
  match blocks with
  | [] => result
  | block :: rest =>
      let result1 :=
        match prev with
        | Some p =>
            result ++ slice lines (lineno (last p) + 1) (lineno (first block))
        | None => result
        end in
      let md5 := truncated_md5 i (content_of lines block) in
      let result2 := result1 ++ [rstrip (prefix (first block)) ++ " " ++ md5] in
      let result3 := result2 ++ body lines block in
      let result4 := result3 ++ [rstrip (prefix (last block)) ++ " " ++ md5] in
      seal_loop lines (S i) (Some block) rest result4
  end.

Definition SealResult : Set := option Lines * option str.

Definition seal (lines : Lines) : outcome SealResult :=
  let markers := extract_markers lines in
  '(blocks, error) <- parse_blocks markers ;;
  match error with
  | Some (c :: e) => Returned (None, Some (c :: e))
  | _ =>
      match blocks with
      | None => Raised AssertionError
      | Some [] => Returned (Some lines, None)
      | Some (b0 :: bs) =>
          let result := firstn (lineno (first b0)) lines in
          let result := seal_loop lines 0 None (b0 :: bs) result in
          let result :=
            result ++ skipn (lineno (last (List.last bs b0)) + 1) lines in
          sealed <- assert_lines result ;;
          Returned (Some sealed, None)
      end
  end.

(** ** The text widget

    The widget is external to the code ([tkinter.Text]); the model keeps what
    the code uses of it.  A widget is the sequence of its characters, each
    with the flag of the tag [TAG_NAME].  An index is the offset of a
    character, [0] for ["1.0"], and the length of the text for [tkinter.END].
    A tag is a property of characters, so the ranges of a tag are the
    maximal runs of flagged characters: two ranges never touch. *)

Record cell : Set := mkCell {
  chr : ascii;
  sealed : bool
}.

Definition Text := list cell.

Definition Range : Set := nat * nat.

Section Tags.

Variable X : Type.
Variable tagged : X -> bool.

(** The runs of tagged characters of [l], whose first character has offset
    [off]; [open] is the start of the run that holds the character before. *)
Fixpoint ranges_from (off : nat) (open : option nat) (l : list X)
  : list Range :=
  match l with
  | [] =>
      match open with
      | Some s => [(s, off)]
      | None => []
      end
  | x :: r =>
      if tagged x then
        ranges_from (S off) (Some (match open with Some s => s | None => off end)) r
      else
        match open with
        | Some s => (s, off) :: ranges_from (S off) None r
        | None => ranges_from (S off) None r
        end
  end.

(** [text_widget.tag_ranges(tag)], in pairs. *)
Definition tag_ranges (l : list X) : list Range := ranges_from 0 None l.

(** [text_widget.tag_nextrange(tag, index)]: the first range whose first
    character is no earlier than [index]. *)
Definition tag_nextrange (l : list X) (index : nat) : option Range :=
  find (fun r => index <=? fst r) (tag_ranges l).

(** [text_widget.tag_prevrange(tag, index)]: the range closest to [index]
    whose first character is before [index]. *)
Definition tag_prevrange (l : list X) (index : nat) : option Range :=
  find (fun r => fst r <? index) (rev (tag_ranges l)).

End Tags.

Arguments ranges_from {X} tagged off open l.
Arguments tag_ranges {X} tagged l.
Arguments tag_nextrange {X} tagged l index.
Arguments tag_prevrange {X} tagged l index.

(** [text_widget.delete(index1, index2)]. *)
Definition delete {X} (l : list X) (index1 index2 : nat) : list X :=
  if index1 <? index2 then firstn index1 l ++ skipn index2 l else l.

Definition END (w : Text) : nat := length w.

(** [f"{index}+1c"] and [f"{index}-1c"]: an index stays within the text. *)
Definition plus1c {X} (l : list X) (index : nat) : nat :=
  Nat.min (S index) (length l).

Definition minus1c (index : nat) : nat := Nat.pred index.

(** [text_widget.get(index)]: [None] is the empty string the widget gives
    at its end. *)
Definition get (w : Text) (index : nat) : option ascii :=
  option_map chr (nth_error w index).

Definition is_newline (c : option ascii) : bool :=
  match c with
  | Some c => is_nl c
  | None => false
  end.

(** [text_widget.get(index1, index2)]. *)
Definition get_range (w : Text) (index1 index2 : nat) : str :=
  map chr (slice w index1 index2).

Fixpoint takewhile {A} (p : A -> bool) (l : list A) : list A :=
  match l with
  | [] => []
  | x :: r => if p x then x :: takewhile p r else []
  end.

Definition not_nl (c : cell) : bool := negb (is_nl (chr c)).

(** [f"{index} linestart"] and [f"{index} lineend"]. *)
Definition linestart (w : Text) (index : nat) : nat :=
  index - length (takewhile not_nl (rev (firstn index w))).

Definition lineend (w : Text) (index : nat) : nat :=
  Nat.min (length w) (index + length (takewhile not_nl (skipn index w))).

Definition line_at (w : Text) (index : nat) : str :=
  get_range w (linestart w index) (lineend w index).

Definition seal_ranges (w : Text) : list Range := tag_ranges sealed w.

(** ** The tag invariants *)

(** What [check_tags] reports; the message of the code is represented by
    its kind and the ranges it names. *)
Inductive tag_error : Set :=
| StartNotBeforeEnd (r : Range)
| Overlap (prev r : Range)
| BadFirstLine (r : Range) (line : str)
| BadLastLine (r : Range) (line : str)
| NoNewlineBefore (r : Range) (prev_char : option ascii)
| NoNewlineAtEnd (r : Range) (char_at_end : option ascii).

Definition check_range (w : Text) (prev : option Range) (r : Range)
  : option tag_error :=
  let '(start, end_) := r in
  let lines_and_neighbours :=
    let first_line := line_at w start in
    match COMMENT_FIRST_RE first_line with
    | None => Some (BadFirstLine r first_line)
    | Some _ =>
        let last_line := line_at w end_ in
        match COMMENT_LAST_RE last_line with
        | None => Some (BadLastLine r last_line)
        | Some _ =>
            if (0 <? start) && negb (is_newline (get w (minus1c start)))
            then Some (NoNewlineBefore r (get w (minus1c start)))
            else if negb (is_newline (get w end_))
            then Some (NoNewlineAtEnd r (get w end_))
            else None
        end
    end in
  if end_ <=? start then Some (StartNotBeforeEnd r)
  else
    match prev with
    | Some (prev_start, prev_end) =>
        if (start <=? prev_start) || (start <? prev_end)
        then Some (Overlap (prev_start, prev_end) r)
        else lines_and_neighbours
    | None => lines_and_neighbours
    end.

(** The loop of [check_tags] over [each_tag_range], which asserts that a
    range starts before it ends. *)
Fixpoint check_tags_loop (w : Text) (prev : option Range)
  (ranges : list Range) : outcome (option tag_error) :=
  match ranges with
  | [] => Returned None
  | r :: rest =>
      _ <- assert (fst r <? snd r) ;;
      match check_range w prev r with
      | Some e => Returned (Some e)
      | None => check_tags_loop w (Some r) rest
      end
  end.

Definition check_tags (w : Text) : outcome (option tag_error) :=
  check_tags_loop w None (seal_ranges w).

(** ** The insertion guard *)

Definition is_insertable (w : Text) (index : nat) (chars : str)
  : outcome bool :=
  if length chars =? 0 then Returned true
  else
    let after_prevrange :=
      match tag_nextrange sealed w index with
      | Some (start, end_) =>
          _ <- assert (index <=? start) ;;
          if index =? start then Returned (endswith chars [NL])
          else
            _ <- assert (index <? start) ;;
            Returned true
      | None => Returned true
      end in
    match tag_prevrange sealed w index with
    | Some (start, end_) =>
        _ <- assert (start <? index) ;;
        if index =? end_ then Returned (startswith chars [NL])
        else if index <=? end_ then Returned false
        else
          _ <- assert (end_ <? index) ;;
          after_prevrange
    | None => after_prevrange
    end.

(** ** The deletion guard *)

Definition _is_deletable_wo_preconditions (w : Text) (index : nat)
  : outcome bool :=
  let after_prevrange :=
    match tag_nextrange sealed w index with
    | Some (start, end_) =>
        _ <- assert (index <=? start) ;;
        if index =? start then Returned false
        else if plus1c w index =? start then
          if index =? 0 then Returned true
          else
            let char_at_index := get w index in
            _ <- assert (is_newline char_at_index) ;;
            let prev_char := get w (minus1c index) in
            Returned (is_newline prev_char)
        else
          _ <- assert (index <? start) ;;
          Returned true
    | None => Returned true
    end in
  match tag_prevrange sealed w index with
  | Some (start, end_) =>
      _ <- assert (start <? index) ;;
      if index <=? end_ then Returned false else after_prevrange
  | None => after_prevrange
  end.

Definition is_deletable (w : Text) (index : nat) : outcome bool :=
  _is_deletable_wo_preconditions w index.

(** One turn of the loop of [pin_deletable_ranges]: the ranges found so
    far and the next [candidate_start]. *)
Definition pin_step (w : Text) (index2 candidate_start : nat)
  (result : list Range) : outcome (list Range * nat) :=
  match tag_nextrange sealed w candidate_start with
  | None => Returned (result ++ [(candidate_start, index2)], index2)
  | Some (start, end_) =>
      _ <- assert (candidate_start <=? start) ;;
      result' <-
        (if candidate_start =? start then Returned result
         else if candidate_start <? start then
           if index2 <? start then
             Returned (result ++ [(candidate_start, index2)])
           else if candidate_start =? 0 then
             Returned (result ++ [(candidate_start, start)])
           else if is_newline (get w (minus1c candidate_start)) then
             Returned (result ++ [(candidate_start, start)])
           else
             let candidate_end := minus1c start in
             if candidate_start <? candidate_end
             then Returned (result ++ [(candidate_start, candidate_end)])
             else Returned result
         else Raised AssertionError) ;;
      let char_at_end := get w end_ in
      _ <- assert (is_newline char_at_end) ;;
      Returned (result', plus1c w end_)
  end.

(** The loop, with the assertion of its invariant at the end of a turn. *)
Fixpoint pin_loop (turns : nat) (w : Text) (index2 candidate_start : nat)
  (result : list Range) : outcome (list Range) :=
  if candidate_start <? index2 then
    match turns with
    | 0 => Unfinished
    | S turns' =>
        let old_candidate_start := candidate_start in
        '(result', candidate_start') <-
          pin_step w index2 candidate_start result ;;
        _ <- assert (old_candidate_start <? candidate_start') ;;
        pin_loop turns' w index2 candidate_start' result'
    end
  else Returned result.

Definition pin_deletable_ranges (w : Text) (index1 index2 : nat)
  : outcome (list Range) :=
  if index2 =? plus1c w index1 then
    deletable <- is_deletable w index1 ;;
    if deletable then Returned [(index1, index2)] else Returned []
  else
    let walk candidate_start := pin_loop index2 w index2 candidate_start [] in
    match tag_prevrange sealed w index1 with
    | Some (start, end_) =>
        _ <- assert (start <? index1) ;;
        let char_at_end := get w end_ in
        _ <- assert (is_newline char_at_end) ;;
        if index2 <=? plus1c w end_ then Returned []
        else if index1 <=? end_ then walk (plus1c w end_)
        else walk index1
    | None => walk index1
    end.

(** ** Deleting a selection *)

(** A widget with one more tag: the flag of a character for the tag that a
    deletion uses to follow its ranges while the text changes. *)
Definition Marked := list (cell * bool).

Definition text_of (m : Marked) : Text := map fst m.

Definition unmarked (w : Text) : Marked := map (fun c => (c, false)) w.

(** [text_widget.tag_add(tag_name, index1, index2)] for that tag: the
    characters from [index1] to before [index2] get the flag; [off] is the
    offset of the first character of [m]. *)
Fixpoint mark_from (off : nat) (m : Marked) (index1 index2 : nat) : Marked :=
  match m with
  | [] => []
  | x :: r =>
      (fst x, snd x || ((index1 <=? off) && (off <? index2)))
      :: mark_from (S off) r index1 index2
  end.

Definition mark (m : Marked) (index1 index2 : nat) : Marked :=
  mark_from 0 m index1 index2.

(** The loop of [delete_the_deletables]: the first range of the tag is
    deleted until there is none. *)
Fixpoint delete_marked (turns : nat) (m : Marked) : outcome Marked :=
  match tag_nextrange snd m 0 with
  | None => Returned m
  | Some (start, end_) =>
      match turns with
      | 0 => Unfinished
      | S turns' => delete_marked turns' (delete m start end_)
      end
  end.

(** [delete_the_deletables] with the [delete] of the widget for
    [delete_func]; the result is the widget after the call. *)
Definition delete_the_deletables (w : Text) (index1 index2 : nat)
  : outcome Text :=
  deletables <- pin_deletable_ranges w index1 index2 ;;
  let m := fold_left (fun m r => mark m (fst r) (snd r)) deletables (unmarked w) in
  m' <- delete_marked (length m) m ;;
  Returned (text_of m').

(** The loop of [naive_delete] of [tests/test_tag_logic.py]; [end_] is the
    end of the range of its tag, [None] when the tag has no range. *)
Fixpoint naive_loop (turns : nat) (m : Marked) (index1 cursor : nat)
  (end_ : option nat) : outcome Marked :=
  match end_ with
  | None => Returned m
  | Some e =>
      if cursor <? e then
        match turns with
        | 0 => Unfinished
        | S turns' =>
            deletable <- _is_deletable_wo_preconditions (text_of m) cursor ;;
            let m' := if deletable then delete m cursor (S cursor) else m in
            let cursor' := if deletable then cursor else plus1c m cursor in
            match tag_nextrange snd m' 0 with
            | Some (start, e') =>
                _ <- assert (start =? index1) ;;
                naive_loop turns' m' index1 cursor' (Some e')
            | None => naive_loop turns' m' index1 cursor' None
            end
        end
      else Returned m
  end.

(** [naive_delete]: every character of the selection is deleted on its
    own, when [_is_deletable_wo_preconditions] allows it in the text as it
    is by then. *)
Definition naive_delete (w : Text) (index1 index2 : nat) : outcome Text :=
  let m := mark (unmarked w) index1 index2 in
  match tag_nextrange snd m 0 with
  | None => Returned (text_of m)
  | Some (start, end_) =>
      _ <- assert (start =? index1) ;;
      m' <- naive_loop (length m) m index1 index1 (Some end_) ;;
      Returned (text_of m')
  end.

(** ** Setting the tags *)

(** The characters at which [str.splitlines] ends a line, among the code
    points below 256. *)
Definition is_linebreak (c : ascii) : bool :=
  let n := code c in
  ((10 <=? n) && (n <=? 13)) || ((28 <=? n) && (n <=? 30)) || (n =? 133).

(** [s.splitlines()]; [cur] is the line being read, in reverse.  A carriage
    return and the new line after it end one line. *)
Fixpoint splitlines_from (cur : str) (s : str) : list str :=
  match s with
  | [] =>
      match cur with
      | [] => []
      | _ => [rev cur]
      end
  | c :: r =>
      if is_linebreak c then
        rev cur ::
        match r with
        | n :: r' =>
            if (code c =? 13) && (code n =? 10)
            then splitlines_from [] r'
            else splitlines_from [] r
        | [] => splitlines_from [] r
        end
      else splitlines_from (c :: cur) r
  end.

Definition splitlines (s : str) : list str := splitlines_from [] s.

(** The offset of the first character of the line that comes after [k]
    new lines, in a text whose first character has offset [off]. *)
Fixpoint line_offset (w : Text) (k off : nat) : option nat :=
  match k with
  | 0 => Some off
  | S k' =>
      match w with
      | [] => None
      | c :: r => line_offset r (if is_nl (chr c) then k' else k) (S off)
      end
  end.

(** The index [f"{line}.{column}"]: lines are counted from 1 and end at a
    new line; a column past the end of the line is the end of the line, a
    line past the last one is the end of the text. *)
Definition index_of (w : Text) (line column : nat) : nat :=
  match line_offset w (line - 1) 0 with
  | Some s => Nat.min (s + column) (lineend w s)
  | None => length w
  end.

(** [text_widget.tag_add(TAG_NAME, index1, index2)]: the characters from
    [index1] to before [index2] get the tag. *)
Fixpoint tag_add_from (off : nat) (w : Text) (index1 index2 : nat) : Text :=
  match w with
  | [] => []
  | c :: r =>
      mkCell (chr c) (sealed c || ((index1 <=? off) && (off <? index2)))
      :: tag_add_from (S off) r index1 index2
  end.

Definition tag_add (w : Text) (index1 index2 : nat) : Text :=
  tag_add_from 0 w index1 index2.

Definition invalid_hash (block : Block) : str :=
  "The hash of the sealed block starting at line "
  ++ line_number (first block)
  ++ " is invalid. Did you seal the content of the file properly with thonny-seal?".

Definition got_hash (block : Block) : str :=
  match suffix (first block) with
  | Some s => strip s
  | None => []
  end.

(** One turn of the inner loop of [verify_blocks], for the index [i]; the
    state is [(matched, matched_blocks, ok_blocks)]. *)
Definition verify_index (lines : Lines) (block : Block)
  (st : bool * nat * list Block) (i : nat) : bool * nat * list Block :=
  let '(matched, matched_blocks, ok_blocks) := st in
  if negb (str_eqb (truncated_md5 i (content_of lines block)) (got_hash block))
  then st
  else (true, S matched_blocks, ok_blocks ++ [block]).

(** The loop of [verify_blocks] over the blocks; [n] is [len(blocks)]. *)
Fixpoint verify_loop (lines : Lines) (n : nat) (blocks : list Block)
  (matched_blocks : nat) (ok_blocks : list Block) (errors : list str)
  : list Block * list str :=
  match blocks with
  | [] => (ok_blocks, errors)
  | block :: rest =>
      let '(matched, matched_blocks', ok_blocks') :=
        fold_left (verify_index lines block)
          (seq matched_blocks (n - matched_blocks))
          (false, matched_blocks, ok_blocks) in
      let errors' :=
        if negb matched then errors ++ [invalid_hash block] else errors in
      verify_loop lines n rest matched_blocks' ok_blocks' errors'
  end.

Fixpoint non_overlapping (blocks : list Block) : bool :=
  match blocks with
  | prev :: (current :: _) as rest =>
      (lineno (last prev) <? lineno (first current)) && non_overlapping rest
  | _ => true
  end.

Definition ranges_valid (lines : Lines) (blocks : list Block) : bool :=
  forallb (fun block => (lineno (first block) <? length lines)
                        && (lineno (last block) <? length lines)) blocks.

(** [verify_blocks], with its preconditions as icontract checks them. *)
Definition verify_blocks (lines : Lines) (blocks : list Block)
  : outcome (list Block * list str) :=
  _ <- require (ranges_valid lines blocks) ;;
  _ <- require (non_overlapping blocks) ;;
  Returned (verify_loop lines (length blocks) blocks 0 [] []).

(** [Lines(lines)], with its precondition. *)
Definition new_Lines (lines : list str) : outcome Lines :=
  _ <- require (forallb line_ok lines) ;;
  Returned lines.

Definition tag_block (lines : Lines) (w : Text) (block : Block) : Text :=
  let tag_start := index_of w (lineno (first block) + 1) 0 in
  let tag_end :=
    index_of w (lineno (last block) + 1)
      (length (nth (lineno (last block)) lines [])) in
  tag_add w tag_start tag_end.

(** [set_tags]: the errors it returns and the widget after the call. *)
Definition set_tags (w : Text) : outcome (list str * Text) :=
  lines <- new_Lines (splitlines (get_range w 0 (END w))) ;;
  let markers := extract_markers lines in
  '(blocks, error) <- parse_blocks markers ;;
  match error with
  | Some e => Returned ([e], w)
  | None =>
      match blocks with
      | None => Raised AssertionError
      | Some blocks =>
          '(ok_blocks, errors) <- verify_blocks lines blocks ;;
          match errors with
          | _ :: _ => Returned (errors, w)
          | [] => Returned ([], fold_left (tag_block lines) ok_blocks w)
          end
      end
  end.

(** The widget that holds the text [s] and no tag. *)
Definition widget_of (s : str) : Text := map (fun c => mkCell c false) s.

(** ** Notions of the statements *)

(** [i] lies in one of the ranges. *)
Definition in_ranges (rs : list Range) (i : nat) : bool :=
  existsb (fun r => (fst r <=? i) && (i <? snd r)) rs.

(** Ranges in increasing order, none empty, with at least one character
    between two of them, the first starting at [lo] or later. *)
Fixpoint separated (lo : nat) (rs : list Range) : Prop :=
  match rs with
  | [] => True
  | r :: rest => lo <= fst r /\ fst r < snd r /\ separated (S (snd r)) rest
  end.

(** The flag of the character at [i], [false] past the end. *)
Definition flag {X} (tagged : X -> bool) (l : list X) (i : nat) : bool :=
  match nth_error l i with
  | Some x => tagged x
  | None => false
  end.

(** The character before [index] is tagged. *)
Definition before_tagged {X} (tagged : X -> bool) (l : list X) (index : nat)
  : bool :=
  (0 <? index) && flag tagged l (index - 1).

(** The flag of the tag [TAG_NAME] at [i]. *)
Definition sflag (w : Text) (i : nat) : bool := flag sealed w i.

(** Every sealed range starts at the beginning of the text or after a new
    line, and a new line follows it. *)
Definition isolated (w : Text) : Prop :=
  forall s e, In (s, e) (seal_ranges w) ->
    (s = 0 \/ is_newline (get w (s - 1)) = true)
    /\ is_newline (get w e) = true.

(** The positions of the deletion guard: strictly inside a range, at its
    start, at its end, and just before its start. *)
Definition inside_range (w : Text) (p : nat) : bool :=
  existsb (fun r => (fst r <? p) && (p <? snd r)) (seal_ranges w).

Definition at_start (w : Text) (p : nat) : bool :=
  existsb (fun r => p =? fst r) (seal_ranges w).

Definition at_end (w : Text) (p : nat) : bool :=
  existsb (fun r => p =? snd r) (seal_ranges w).

Definition before_start (w : Text) (p : nat) : bool :=
  existsb (fun r => S p =? fst r) (seal_ranges w).

(** The new line at [p] is the only separator before a range: it is not at
    the beginning of the text and no new line comes before it. *)
Definition sole_separator (w : Text) (p : nat) : bool :=
  before_start w p && is_newline (get w p)
  && negb ((p =? 0) || is_newline (get w (p - 1))).

(** The deletion guard as the specification words it, with the cases (a),
    (b) and (c). *)
Definition deletable_as_specified (w : Text) (p : nat) : bool :=
  negb (inside_range w p || at_start w p || sole_separator w p).

(** The deletion guard with the end of a range as a fourth case. *)
Definition deletable_with_end (w : Text) (p : nat) : bool :=
  negb (inside_range w p || at_start w p || at_end w p || sole_separator w p).

(** The deletion guard from the flags of the characters around [i]. *)
Definition deletable_at (w : Text) (i : nat) : bool :=
  if before_tagged sealed w i then false
  else if sflag w i then false
  else if sflag w (S i) then (i =? 0) || is_newline (get w (i - 1))
  else true.

(** The widget whose characters all carry the tag. *)
Definition sealed_text (s : str) : Text := map (fun c => mkCell c true) s.

(** A sealed block with the text [x] after it. *)
Definition block_then_x : Text :=
  sealed_text ("# sealed: on" ++ [NL] ++ "# sealed: off")
  ++ widget_of ([NL] ++ "x" ++ [NL]).

(** Ranges within [[lo, hi]], none empty, each ending before the next
    starts or where it starts. *)
Fixpoint ordered (lo : nat) (rs : list Range) (hi : nat) : Prop :=
  match rs with
  | [] => True
  | r :: rest => lo <= fst r /\ fst r < snd r /\ snd r <= hi /\ ordered (snd r) rest hi
  end.

(** The characters of [l] that lie in none of the ranges, [off] being the
    offset of the first character of [l]. *)
Fixpoint keep {X} (rs : list Range) (off : nat) (l : list X) : list X :=
  match l with
  | [] => []
  | x :: r => if in_ranges rs off then keep rs (S off) r else x :: keep rs (S off) r
  end.

(** The deletion guard at a character [c], from the character before it
    ([None] at the beginning of the text) and the one after it. *)
Definition del_local (prev : option cell) (c : cell) (next : option cell)
  : bool :=
  if match prev with Some p => sealed p | None => false end then false
  else if sealed c then false
  else if match next with Some n => sealed n | None => false end
  then match prev with Some p => is_nl (chr p) | None => true end
  else true.

(** The naive deletion as one pass over the text: [prev] is the last
    character that was kept, [k] the number of characters still to visit. *)
Fixpoint nscan (prev : option cell) (rest : list cell) (k : nat) {struct k}
  : list cell :=
  match k, rest with
  | 0, _ => rest
  | S k', [] => []
  | S k', c :: r =>
      if del_local prev c (hd_error r) then nscan prev r k'
      else c :: nscan (Some c) r k'
  end.

(** The character before the offset [c]. *)
Definition prev_cell (w : Text) (c : nat) : option cell :=
  if c =? 0 then None else nth_error w (c - 1).

(** The character [c], if any, has no tag. *)
Definition unsealed_opt (c : option cell) : Prop :=
  match c with Some p => sealed p = false | None => True end.

(** The beginning of the text or a new line comes before. *)
Definition line_before (prev : option cell) : Prop :=
  match prev with Some p => is_nl (chr p) = true | None => True end.

(** Two lines of text, a sealed block, and one more line. *)
Definition text_around_block : Text :=
  widget_of ("ab" ++ [NL] ++ "cd" ++ [NL])
  ++ sealed_text ("# sealed: on" ++ [NL] ++ "# sealed: off")
  ++ widget_of ([NL] ++ "x" ++ [NL]).

(** The positions from [a] to before [b]. *)
Definition interval (a b : nat) (i : nat) : bool := (a <=? i) && (i <? b).

(** The text [w], whose first character has offset [off], with the flag
    [f i] on the character at [i]. *)
Fixpoint marks_from (f : nat -> bool) (off : nat) (w : Text) : Marked :=
  match w with
  | [] => []
  | c :: r => (c, f off) :: marks_from f (S off) r
  end.

(** A new line stands before every character that carries the tag and
    follows one that does not. *)
Fixpoint line_isolated (l : list cell) : Prop :=
  match l with
  | x :: r =>
      (match r with
       | y :: _ => sealed x = false -> sealed y = true -> is_nl (chr x) = true
       | [] => True
       end) /\ line_isolated r
  | [] => True
  end.

(** The two markers of a block, in the order of the lines. *)
Definition markers_of (blocks : list Block) : list SealMarker :=
  flat_map (fun b => [first b; last b]) blocks.

(** A block as [parse_blocks] builds it from a start and an end marker
    that carry the same suffix. *)
Definition block_ok (b : Block) : Prop :=
  marker_kind (first b) = First /\ marker_kind (last b) = Last
  /\ lineno (first b) < lineno (last b)
  /\ exists s, suffix (first b) = Some s /\ suffix (last b) = Some s.

(** A start and an end marker without suffix. *)
Definition markers_without_suffix : list SealMarker :=
  [mkMarker First 0 "# sealed: on" None; mkMarker Last 1 "# sealed: off" None].

(** The marker of the line with index [i], as [extract_markers] reads it. *)
Definition marker_of (i : nat) (line : str) : option SealMarker :=
  match COMMENT_FIRST_RE line with
  | Some (p, s) => Some (mkMarker First i p (Some (strip s)))
  | None =>
      match COMMENT_LAST_RE line with
      | Some (p, s) => Some (mkMarker Last i p (Some (strip s)))
      | None => None
      end
  end.

(** The marker line of a block after sealing, with the fingerprint of the
    block number [i]. *)
Definition stamped (lines : Lines) (i : nat) (block : Block) (m : SealMarker)
  : str :=
  rstrip (prefix m) ++ " " ++ truncated_md5 i (content_of lines block).

(** The sealed lines from the line [pos] on, [blocks] being the blocks
    from there on and [i] the number of the first of them. *)
Fixpoint render (lines : Lines) (i pos : nat) (blocks : list Block) : Lines :=
  match blocks with
  | [] => skipn pos lines
  | block :: rest =>
      slice lines pos (lineno (first block))
      ++ [stamped lines i block (first block)]
      ++ body lines block
      ++ [stamped lines i block (last block)]
      ++ render lines (S i) (lineno (last block) + 1) rest
  end.

(** Blocks one after the other from the line [pos] on, among [n] lines. *)
Fixpoint chain (pos : nat) (blocks : list Block) (n : nat) : Prop :=
  match blocks with
  | [] => pos <= n
  | b :: rest =>
      pos <= lineno (first b) /\ lineno (first b) < lineno (last b)
      /\ lineno (last b) < n /\ chain (S (lineno (last b))) rest n
  end.

(** The lines of a block with its two marker lines stamped. *)
Definition sealed_block (lines : Lines) (i pos : nat) (b : Block) : Lines :=
  slice lines pos (lineno (first b))
  ++ [stamped lines i b (first b)]
  ++ body lines b
  ++ [stamped lines i b (last b)].

(** A marker with the fingerprint [h] for suffix, and the blocks with the
    fingerprints that [seal] stamps on them. *)
Definition restamp_marker (h : str) (m : SealMarker) : SealMarker :=
  mkMarker (marker_kind m) (lineno m) (prefix m) (Some h).

Fixpoint restamp (lines : Lines) (i : nat) (blocks : list Block) : list Block :=
  match blocks with
  | [] => []
  | b :: rest =>
      let h := truncated_md5 i (content_of lines b) in
      mkBlock (restamp_marker h (first b)) (restamp_marker h (last b))
      :: restamp lines (S i) rest
  end.

(** A text without white space. *)
Definition no_space (s : str) : bool := forallb (fun c => negb (is_space c)) s.

(** The key words of the marker lines: they start with a character that
    is neither white space nor a colon, they end with one that is not
    white space, and a group of alternatives reads its own key words
    only. *)
Definition keywords (kws : list str) : Prop :=
  kws = SEALED \/ kws = ON \/ kws = OFF.

(** The text of the widget. *)
Definition chars (w : Text) : str := map chr w.

(** The number of new lines before the position [p] of a text. *)
Definition newlines (s : str) : nat := length (filter is_nl s).

Definition newlines_before (s : str) (p : nat) : nat := newlines (firstn p s).

(** The position [p] is the start of the line number [k] of the widget,
    the lines being counted from 0 and ended by new lines; and the end of
    that line, before its new line. *)
Definition line_start_of (w : Text) (k p : nat) : Prop :=
  p <= length w /\ newlines_before (chars w) p = k
  /\ (p = 0 \/ is_newline (get w (p - 1)) = true).

Definition line_end_of (w : Text) (k p : nat) : Prop :=
  p <= length w /\ newlines_before (chars w) p = k
  /\ (p = length w \/ is_newline (get w p) = true).

(** The widget has a range of the tag for the block: as the specification
    words it, from the start of the line after the line of the start
    marker; and from the start of the line of the start marker. *)
Definition tagged_as_specified (w : Text) (b : Block) : Prop :=
  exists s e,
    In (s, e) (seal_ranges w)
    /\ line_start_of w (lineno (first b) + 1) s
    /\ line_end_of w (lineno (last b)) e.

Definition tagged_block (w : Text) (b : Block) : Prop :=
  exists s e,
    In (s, e) (seal_ranges w)
    /\ line_start_of w (lineno (first b)) s
    /\ line_end_of w (lineno (last b)) e.

(** A range as [check_tags] wants it: it starts at the start of a line
    that matches the pattern of the start marker, and it ends at the end
    of a line that matches the pattern of the end marker, before a new
    line. *)
Definition range_ok (w : Text) (r : Range) : Prop :=
  (fst r = 0 \/ is_newline (get w (fst r - 1)) = true)
  /\ is_newline (get w (snd r)) = true
  /\ COMMENT_FIRST_RE (line_at w (fst r)) <> None
  /\ COMMENT_LAST_RE (line_at w (snd r)) <> None.

(** The only line breaks of the text are new lines, so that the lines of
    [splitlines] are the lines of the widget. *)
Definition only_new_lines (w : Text) : bool :=
  forallb (fun c => negb (is_linebreak (chr c)) || is_nl (chr c)) w.

(** The range of [tag_add] for a block. *)
Definition block_range (lines : Lines) (w : Text) (block : Block) : Range :=
  (index_of w (lineno (first block) + 1) 0,
   index_of w (lineno (last block) + 1)
     (length (nth (lineno (last block)) lines []))).

(** A widget with one sealed block and a line after it, without tag. *)
Definition sealed_file : Text :=
  widget_of ("# sealed: on 88209294" ++ [NL] ++ "# sealed: off 88209294" ++ [NL]
             ++ "x = 1" ++ [NL]).

(** The same widget with the tag on the block, and the block. *)
Definition sealed_file_tagged : Text :=
  sealed_text ("# sealed: on 88209294" ++ [NL] ++ "# sealed: off 88209294")
  ++ widget_of ([NL] ++ "x = 1" ++ [NL]).

Definition sealed_file_block : Block :=
  mkBlock (mkMarker First 0 "# sealed: on" (Some "88209294"))
          (mkMarker Last 1 "# sealed: off" (Some "88209294")).

(** A sealed block after a line that ends with a form feed and a new
    line: [splitlines] makes two lines of it, the widget one. *)
Definition form_feed_file : Text :=
  widget_of ("x" ++ [ascii_of_nat 12; NL] ++ "# sealed: on 88209294" ++ [NL]
             ++ "# sealed: off 88209294" ++ [NL]).

(** One of the digits of [hexdigest]. *)
Definition is_hex_digit (c : ascii) : bool :=
  existsb (Ascii.eqb c) ("0123456789abcdef" : str).

(** Two sealing blocks with their texts, and the lines that [seal] makes
    of them. *)
Definition two_blocks : Lines :=
  ["import math"; "# sealed: on"; "x = 1"; "# sealed: off"; "y = 2";
   "  # Sealed : ON stale"; "a"; "b"; "  # SEALED Off  stale"].

Definition two_blocks_sealed : Lines :=
  ["import math"; "# sealed: on b5dca269"; "x = 1"; "# sealed: off b5dca269";
   "y = 2"; "  # Sealed : ON f1b1708b"; "a"; "b"; "  # SEALED Off f1b1708b"].

(** A widget without tag whose text has an open block, and one with a
    block that verifies and a block with a wrong fingerprint. *)
Definition open_block_file : Text :=
  widget_of ("x = 1" ++ [NL] ++ "# sealed: on" ++ [NL] ++ "y = 2" ++ [NL]).

Definition broken_seal_file : Text :=
  widget_of ("# sealed: on 88209294" ++ [NL] ++ "# sealed: off 88209294" ++ [NL]
             ++ "# sealed: on 00000000" ++ [NL] ++ "# sealed: off 00000000" ++ [NL]).

(** * Properties *)

Lemma str_eqb_eq (a b : str) : str_eqb a b = true <-> a = b.
Proof.
  unfold str_eqb. destruct (list_eq_dec ascii_dec a b); split; congruence.
Qed.

Lemma str_eqb_refl (a : str) : str_eqb a a = true.
Proof. apply str_eqb_eq. reflexivity. Qed.

(** ** The ranges of a tag *)

Ltac nat_bool :=
  repeat match goal with
  | |- context [?a <=? ?b] => destruct (Nat.leb_spec a b)
  | |- context [?a <? ?b] => destruct (Nat.ltb_spec a b)
  | |- context [?a =? ?b] => destruct (Nat.eqb_spec a b)
  end; cbn [andb orb negb]; try lia; try reflexivity.

Section RangesTheory.

Variable X : Type.
Variable tagged : X -> bool.

Lemma flag_nil (i : nat) : flag tagged [] i = false.
Proof. unfold flag. destruct i; reflexivity. Qed.

Lemma flag_cons_0 (x : X) (l : list X) : flag tagged (x :: l) 0 = tagged x.
Proof. reflexivity. Qed.

Lemma flag_cons_S (x : X) (l : list X) (i : nat) :
  flag tagged (x :: l) (S i) = flag tagged l i.
Proof. reflexivity. Qed.

Lemma flag_length (l : list X) (i : nat) :
  flag tagged l i = true -> i < length l.
Proof.
  unfold flag. intros H. apply nth_error_Some. destruct (nth_error l i); congruence.
Qed.

Lemma separated_weaken (lo lo' : nat) (rs : list Range) :
  lo' <= lo -> separated lo rs -> separated lo' rs.
Proof.
  destruct rs as [|r rest]; simpl; [easy|]. intros ? (? & ? & ?). repeat split; auto; lia.
Qed.

Lemma in_ranges_below (lo : nat) (rs : list Range) (i : nat) :
  separated lo rs -> i < lo -> in_ranges rs i = false.
Proof.
  revert lo. induction rs as [|r rest IH]; intros lo Hs Hi; simpl; [reflexivity|].
  destruct Hs as (H1 & H2 & H3).
  rewrite (IH (S (snd r))) by (auto; lia).
  rewrite orb_false_r. apply andb_false_intro1. apply Nat.leb_gt. lia.
Qed.

(** The runs of [l], when the character before [l] ends no run. *)
Lemma ranges_from_spec (l : list X) :
  forall off open,
    (match open with Some s => s < off | None => True end) ->
    let rs := ranges_from tagged off open l in
    separated (match open with Some s => s | None => off end) rs
    /\ Forall (fun r => snd r <= off + length l) rs
    /\ forall i,
         in_ranges rs i =
         (match open with Some s => (s <=? i) && (i <? off) | None => false end)
         || ((off <=? i) && flag tagged l (i - off)).
Proof.
  induction l as [|x r IH]; intros off open Hopen; simpl.
  - destruct open as [s|]; simpl.
    + repeat split; auto.
      * constructor; [simpl; lia|constructor].
      * intros i. rewrite flag_nil. rewrite andb_false_r, !orb_false_r. reflexivity.
    + repeat split; auto. intros i. rewrite flag_nil, andb_false_r. reflexivity.
  - assert (Hfl: forall i, flag tagged (x :: r) (i - off)
               = if i <=? off then tagged x else flag tagged r (i - S off)).
    { intros i. destruct (Nat.leb_spec i off).
      - replace (i - off) with 0 by lia. reflexivity.
      - replace (i - off) with (S (i - S off)) by lia. reflexivity. }
    destruct (tagged x) eqn:Hx.
    + destruct (IH (S off) (Some (match open with Some s => s | None => off end))) as (I1 & I2 & I3).
      { destruct open; lia. }
      repeat split.
      * destruct open; exact I1.
      * eapply Forall_impl; [|exact I2]. simpl. intros; lia.
      * intros i. rewrite I3, Hfl. clear I1 I2 I3 IH Hfl.
        destruct open as [s|]; nat_bool; destruct (flag tagged r (i - S off)); reflexivity.
    + destruct (IH (S off) None I) as (I1 & I2 & I3).
      assert (Hin: forall i, in_ranges (ranges_from tagged (S off) None r) i
                = (off <=? i) && flag tagged (x :: r) (i - off)).
      { intros i. rewrite I3, Hfl. nat_bool; destruct (flag tagged r (i - S off)); reflexivity. }
      destruct open as [s|]; simpl.
      * repeat split; auto.
        -- constructor; [simpl; lia|]. eapply Forall_impl; [|exact I2]. simpl. intros; lia.
        -- intros i. rewrite Hin. reflexivity.
      * repeat split.
        -- eapply separated_weaken; [|exact I1]. lia.
        -- eapply Forall_impl; [|exact I2]. simpl. intros; lia.
        -- intros i. rewrite Hin. reflexivity.
Qed.

Lemma tag_ranges_separated (l : list X) : separated 0 (tag_ranges tagged l).
Proof. apply (ranges_from_spec l 0 None I). Qed.

Lemma tag_ranges_bounded (l : list X) :
  Forall (fun r => snd r <= length l) (tag_ranges tagged l).
Proof. apply (ranges_from_spec l 0 None I). Qed.

Lemma tag_ranges_flag (l : list X) (i : nat) :
  in_ranges (tag_ranges tagged l) i = flag tagged l i.
Proof.
  destruct (ranges_from_spec l 0 None I) as (_ & _ & H).
  unfold tag_ranges. rewrite H. simpl. rewrite Nat.sub_0_r. reflexivity.
Qed.

Lemma in_ranges_true (rs : list Range) (i : nat) :
  in_ranges rs i = true <-> exists r, In r rs /\ fst r <= i < snd r.
Proof.
  unfold in_ranges. rewrite existsb_exists. split; intros (r & Hin & H); exists r; split; auto.
  - apply andb_true_iff in H. destruct H as [H1 H2].
    apply Nat.leb_le in H1. apply Nat.ltb_lt in H2. lia.
  - apply andb_true_iff. split; [apply Nat.leb_le|apply Nat.ltb_lt]; lia.
Qed.

Lemma separated_In (lo : nat) (rs : list Range) (r : Range) :
  separated lo rs -> In r rs -> lo <= fst r /\ fst r < snd r.
Proof.
  revert lo. induction rs as [|r0 rest IH]; intros lo Hs Hin; [destruct Hin|].
  destruct Hs as (H1 & H2 & H3). destruct Hin as [->|Hin]; [lia|].
  destruct (IH _ H3 Hin). lia.
Qed.

Lemma separated_apart (lo : nat) (rs : list Range) (r r' : Range) :
  separated lo rs -> In r rs -> In r' rs ->
  r = r' \/ snd r < fst r' \/ snd r' < fst r.
Proof.
  revert lo. induction rs as [|r0 rest IH]; intros lo Hs Hin Hin'; [destruct Hin|].
  destruct Hs as (H1 & H2 & H3).
  destruct Hin as [->|Hin], Hin' as [->|Hin'].
  - left; reflexivity.
  - right; left. destruct (separated_In _ _ _ H3 Hin'). lia.
  - right; right. destruct (separated_In _ _ _ H3 Hin). lia.
  - eapply IH; eauto.
Qed.

(** A range of a tag is a maximal run of tagged characters. *)
Lemma tag_range_run (l : list X) (s e : nat) :
  In (s, e) (tag_ranges tagged l) ->
  s < e <= length l
  /\ (forall j, s <= j < e -> flag tagged l j = true)
  /\ flag tagged l e = false
  /\ (s = 0 \/ flag tagged l (s - 1) = false).
Proof.
  intros Hin.
  pose proof (tag_ranges_separated l) as Hsep.
  pose proof (tag_ranges_bounded l) as Hb.
  rewrite Forall_forall in Hb. specialize (Hb _ Hin). simpl in Hb.
  destruct (separated_In _ _ _ Hsep Hin) as [_ Hlt]. simpl in Hlt.
  assert (Hout: forall j, flag tagged l j = true -> s <= j < e \/ j < s - 1 \/ e < j).
  { intros j Hj. rewrite <- tag_ranges_flag in Hj.
    apply in_ranges_true in Hj. destruct Hj as (r' & Hin' & Hr').
    destruct (separated_apart _ _ _ _ Hsep Hin Hin') as [<-|[H|H]]; simpl in *; lia. }
  repeat split; auto.
  - intros j Hj. rewrite <- tag_ranges_flag. apply in_ranges_true.
    exists (s, e). simpl. auto.
  - destruct (flag tagged l e) eqn:He; [|reflexivity].
    apply Hout in He. lia.
  - destruct s as [|s']; [left; reflexivity|right].
    destruct (flag tagged l (S s' - 1)) eqn:He; [|reflexivity].
    apply Hout in He. lia.
Qed.

Lemma find_first (p : Range -> bool) (rs : list Range) (r : Range) (lo : nat) :
  separated lo rs -> find p rs = Some r ->
  In r rs /\ p r = true
  /\ forall r', In r' rs -> p r' = true -> fst r <= fst r'.
Proof.
  revert lo. induction rs as [|r0 rest IH]; intros lo Hs Hf; [discriminate|].
  destruct Hs as (H1 & H2 & H3). simpl in Hf.
  destruct (p r0) eqn:Hp.
  - injection Hf as <-. repeat split; [left; reflexivity|assumption|].
    intros r' [<-|Hin] _; [lia|].
    destruct (separated_In _ _ _ H3 Hin). lia.
  - destruct (IH _ H3 Hf) as (I1 & I2 & I3).
    repeat split; [right; assumption|assumption|].
    intros r' [<-|Hin] Hr'; [congruence|auto].
Qed.

Lemma find_app_l (p : Range -> bool) (a b : list Range) :
  find p (a ++ b) = match find p a with Some r => Some r | None => find p b end.
Proof.
  induction a as [|x a IH]; simpl; [reflexivity|].
  destruct (p x); auto.
Qed.

Lemma find_last (p : Range -> bool) (rs : list Range) (r : Range) (lo : nat) :
  separated lo rs -> find p (rev rs) = Some r ->
  In r rs /\ p r = true
  /\ forall r', In r' rs -> p r' = true -> fst r' <= fst r.
Proof.
  revert lo. induction rs as [|r0 rest IH]; intros lo Hs Hf; [discriminate|].
  destruct Hs as (H1 & H2 & H3). simpl in Hf. rewrite find_app_l in Hf.
  destruct (find p (rev rest)) as [x|] eqn:Hrest.
  - injection Hf as ->. destruct (IH _ H3 eq_refl) as (I1 & I2 & I3).
    repeat split; [right; assumption|assumption|].
    intros r' [<-|Hin] Hr'; [|auto].
    destruct (separated_In _ _ _ H3 I1). lia.
  - simpl in Hf. destruct (p r0) eqn:Hp; [|discriminate].
    injection Hf as <-. repeat split; [left; reflexivity|assumption|].
    intros r' [<-|Hin] Hr'; [lia|].
    apply in_rev in Hin. eapply find_none in Hrest; eauto. congruence.
Qed.

Lemma tag_prevrange_Some (l : list X) (index s e : nat) :
  tag_prevrange tagged l index = Some (s, e) ->
  In (s, e) (tag_ranges tagged l) /\ s < index
  /\ (index <=? e) = before_tagged tagged l index.
Proof.
  unfold tag_prevrange. intros Hf.
  destruct (find_last _ _ _ _ (tag_ranges_separated l) Hf) as (Hin & Hp & Hmax).
  simpl in Hp. apply Nat.ltb_lt in Hp.
  repeat split; auto.
  destruct (tag_range_run _ _ _ Hin) as (Hse & Hrun & He & _).
  unfold before_tagged.
  destruct (Nat.leb_spec index e) as [Hle|Hgt].
  - replace (0 <? index) with true by (symmetry; apply Nat.ltb_lt; lia).
    symmetry. apply Hrun. lia.
  - destruct (Nat.ltb_spec 0 index); [|reflexivity]. simpl.
    destruct (flag tagged l (index - 1)) eqn:Hfl; [|reflexivity].
    rewrite <- tag_ranges_flag in Hfl. apply in_ranges_true in Hfl.
    destruct Hfl as (r' & Hin' & Hr').
    assert (fst r' <= s).
    { apply (Hmax r' Hin'). apply Nat.ltb_lt. lia. }
    destruct (separated_apart _ _ _ _ (tag_ranges_separated l) Hin Hin') as [<-|[H1|H1]];
      simpl in *; lia.
Qed.

Lemma tag_prevrange_None (l : list X) (index : nat) :
  tag_prevrange tagged l index = None -> before_tagged tagged l index = false.
Proof.
  unfold tag_prevrange, before_tagged. intros Hf.
  destruct (Nat.ltb_spec 0 index); [|reflexivity]. simpl.
  destruct (flag tagged l (index - 1)) eqn:Hfl; [|reflexivity].
  rewrite <- tag_ranges_flag in Hfl. apply in_ranges_true in Hfl.
  destruct Hfl as (r' & Hin' & Hr').
  apply in_rev in Hin'. eapply find_none in Hf; eauto.
  apply Nat.ltb_ge in Hf. lia.
Qed.

Lemma tag_nextrange_Some (l : list X) (index s e : nat) :
  before_tagged tagged l index = false ->
  tag_nextrange tagged l index = Some (s, e) ->
  In (s, e) (tag_ranges tagged l) /\ index <= s
  /\ forall j, index <= j < s -> flag tagged l j = false.
Proof.
  unfold tag_nextrange, before_tagged. intros Hfresh Hf.
  destruct (find_first _ _ _ _ (tag_ranges_separated l) Hf) as (Hin & Hp & Hmin).
  simpl in Hp. apply Nat.leb_le in Hp.
  repeat split; auto.
  intros j Hj. destruct (flag tagged l j) eqn:Hfl; [|reflexivity].
  rewrite <- tag_ranges_flag in Hfl. apply in_ranges_true in Hfl.
  destruct Hfl as ((s', e') & Hin' & Hr'). simpl in Hr'.
  destruct (Nat.le_gt_cases index s') as [Hle|Hgt].
  - assert (s <= s'). { apply (Hmin (s', e') Hin'). apply Nat.leb_le. exact Hle. }
    lia.
  - destruct (tag_range_run _ _ _ Hin') as (_ & Hrun & _).
    rewrite (Hrun (index - 1)) in Hfresh by lia.
    replace (0 <? index) with true in Hfresh by (symmetry; apply Nat.ltb_lt; lia).
    discriminate.
Qed.

Lemma tag_nextrange_None (l : list X) (index : nat) :
  before_tagged tagged l index = false ->
  tag_nextrange tagged l index = None ->
  forall j, index <= j -> flag tagged l j = false.
Proof.
  unfold tag_nextrange, before_tagged. intros Hfresh Hf j Hj.
  destruct (flag tagged l j) eqn:Hfl; [|reflexivity].
  rewrite <- tag_ranges_flag in Hfl. apply in_ranges_true in Hfl.
  destruct Hfl as ((s', e') & Hin' & Hr'). simpl in Hr'.
  pose proof (find_none _ _ Hf _ Hin') as Hp. simpl in Hp. apply Nat.leb_gt in Hp.
  destruct (tag_range_run _ _ _ Hin') as (_ & Hrun & _).
  rewrite (Hrun (index - 1)) in Hfresh by lia.
  replace (0 <? index) with true in Hfresh by (symmetry; apply Nat.ltb_lt; lia).
  discriminate.
Qed.

(** Without the assumption on the character before: what the asserts of
    the code say of [tag_nextrange]. *)
Lemma tag_nextrange_le (l : list X) (index s e : nat) :
  tag_nextrange tagged l index = Some (s, e) ->
  In (s, e) (tag_ranges tagged l) /\ index <= s.
Proof.
  unfold tag_nextrange. intros Hf.
  destruct (find_first _ _ _ _ (tag_ranges_separated l) Hf) as (Hin & Hp & _).
  simpl in Hp. apply Nat.leb_le in Hp. auto.
Qed.

End RangesTheory.

(** ** The tag invariants and the guards *)

Lemma check_tags_loop_ok (w : Text) (ranges : list Range) :
  forall prev, check_tags_loop w prev ranges = Returned None ->
  forall s e, In (s, e) ranges ->
    (s = 0 \/ is_newline (get w (s - 1)) = true)
    /\ is_newline (get w e) = true
    /\ COMMENT_FIRST_RE (line_at w s) <> None
    /\ COMMENT_LAST_RE (line_at w e) <> None.
Proof.
  induction ranges as [|r rest IH]; intros prev H s e Hin; [destruct Hin|].
  simpl in H. destruct (fst r <? snd r); simpl in H; [|discriminate].
  destruct (check_range w prev r) as [err|] eqn:Hr; [discriminate|].
  destruct Hin as [->|Hin]; [|eapply IH; eauto].
  clear H IH. unfold check_range in Hr.
  destruct (e <=? s); [discriminate|].
  assert (Hbody:
    match COMMENT_FIRST_RE (line_at w s) with
    | None => Some (BadFirstLine (s, e) (line_at w s))
    | Some _ =>
        match COMMENT_LAST_RE (line_at w e) with
        | None => Some (BadLastLine (s, e) (line_at w e))
        | Some _ =>
            if (0 <? s) && negb (is_newline (get w (minus1c s)))
            then Some (NoNewlineBefore (s, e) (get w (minus1c s)))
            else if negb (is_newline (get w e))
            then Some (NoNewlineAtEnd (s, e) (get w e))
            else None
        end
    end = None).
  { destruct prev as [[ps pe]|]; [|exact Hr].
    destruct ((s <=? ps) || (s <? pe)); [discriminate|exact Hr]. }
  clear Hr.
  destruct (COMMENT_FIRST_RE (line_at w s)); [|discriminate].
  destruct (COMMENT_LAST_RE (line_at w e)); [|discriminate].
  destruct ((0 <? s) && negb (is_newline (get w (minus1c s)))) eqn:H1; [discriminate|].
  destruct (negb (is_newline (get w e))) eqn:H2; [discriminate|].
  apply negb_false_iff in H2.
  repeat split; try congruence.
  apply andb_false_iff in H1. destruct H1 as [H1|H1].
  - apply Nat.ltb_ge in H1. left. lia.
  - apply negb_false_iff in H1. right. unfold minus1c in H1.
    rewrite <- Nat.sub_1_r in H1. exact H1.
Qed.

Lemma check_tags_isolated (w : Text) :
  check_tags w = Returned None -> isolated w.
Proof.
  intros H s e Hin.
  destruct (check_tags_loop_ok w _ _ H s e Hin) as (H1 & H2 & _). auto.
Qed.

Lemma seal_range_run (w : Text) (s e : nat) :
  In (s, e) (seal_ranges w) ->
  s < e <= length w
  /\ (forall j, s <= j < e -> sflag w j = true)
  /\ sflag w e = false
  /\ (s = 0 \/ sflag w (s - 1) = false).
Proof. apply tag_range_run. Qed.

Lemma sflag_ranges (w : Text) (i : nat) :
  sflag w i = true <-> exists s e, In (s, e) (seal_ranges w) /\ s <= i < e.
Proof.
  unfold sflag, seal_ranges. rewrite <- tag_ranges_flag, in_ranges_true.
  split.
  - intros ([s e] & H1 & H2). exists s, e. auto.
  - intros (s & e & H1 & H2). exists (s, e). auto.
Qed.

(** A new line stands before the first character of a range. *)
Lemma isolated_before (w : Text) (i : nat) :
  isolated w -> sflag w i = false -> sflag w (S i) = true ->
  is_newline (get w i) = true.
Proof.
  intros Hiso H0 H1. apply sflag_ranges in H1. destruct H1 as (s & e & Hin & Hr).
  destruct (seal_range_run _ _ _ Hin) as (_ & Hrun & _).
  assert (s = S i).
  { destruct (Nat.eq_dec s (S i)); [assumption|].
    rewrite (Hrun i) in H0 by lia. discriminate. }
  subst s. destruct (Hiso _ _ Hin) as [[H|H] _]; [lia|].
  replace (S i - 1) with i in H by lia. exact H.
Qed.

Lemma is_deletable_local (w : Text) (i : nat) :
  (sflag w i = false -> sflag w (S i) = true -> i <> 0 ->
   is_newline (get w i) = true) ->
  _is_deletable_wo_preconditions w i = Returned (deletable_at w i).
Proof.
  intros Hnl. unfold _is_deletable_wo_preconditions, deletable_at.
  set (after := match tag_nextrange sealed w i with
                | Some (start, end_) => _ | None => _ end).
  assert (Hafter: before_tagged sealed w i = false ->
            after = Returned (if sflag w i then false
                    else if sflag w (S i) then (i =? 0) || is_newline (get w (i - 1))
                    else true)).
  { intros Hfresh. subst after.
    destruct (tag_nextrange sealed w i) as [[s e]|] eqn:Hn.
    - destruct (tag_nextrange_Some _ _ _ _ _ _ Hfresh Hn) as (Hin & Hle & Hlow).
      destruct (seal_range_run _ _ _ Hin) as (Hse & Hrun & _).
      unfold sflag in *.
      replace (i <=? s) with true by (symmetry; apply Nat.leb_le; lia).
      cbn [assert bind].
      destruct (Nat.eqb_spec i s) as [->|Hne].
      + rewrite Hrun by lia. reflexivity.
      + rewrite (Hlow i) by lia.
        unfold plus1c.
        destruct (Nat.eqb_spec (Nat.min (S i) (length w)) s) as [Hs|Hs].
        * assert (S i = s) by lia. subst s.
          rewrite (Hrun (S i)) by lia.
          destruct (Nat.eqb_spec i 0) as [->|Hi0]; [reflexivity|].
          rewrite Hnl; auto.
          -- cbn [assert bind orb]. unfold minus1c. rewrite <- Nat.sub_1_r. reflexivity.
          -- apply (Hlow i). lia.
          -- apply Hrun. lia.
        * assert (S i < s) by lia.
          rewrite (Hlow (S i)) by lia.
          replace (i <? s) with true by (symmetry; apply Nat.ltb_lt; lia).
          reflexivity.
    - pose proof (tag_nextrange_None _ _ _ _ Hfresh Hn) as Hlow.
      unfold sflag. rewrite (Hlow i), (Hlow (S i)) by lia. reflexivity. }
  clearbody after.
  destruct (tag_prevrange sealed w i) as [[s e]|] eqn:Hp.
  - destruct (tag_prevrange_Some _ _ _ _ _ _ Hp) as (Hin & Hlt & Hcov).
    replace (s <? i) with true by (symmetry; apply Nat.ltb_lt; lia).
    cbn [assert bind]. rewrite Hcov.
    destruct (before_tagged sealed w i); [reflexivity|apply Hafter; reflexivity].
  - pose proof (tag_prevrange_None _ _ _ _ Hp) as Hb. rewrite Hb. apply Hafter, Hb.
Qed.

Lemma is_deletable_isolated (w : Text) (i : nat) :
  isolated w ->
  _is_deletable_wo_preconditions w i = Returned (deletable_at w i).
Proof.
  intros Hiso. apply is_deletable_local. intros. apply isolated_before; auto.
Qed.

Lemma inside_range_true (w : Text) (p : nat) :
  inside_range w p = true <->
  exists s e, In (s, e) (seal_ranges w) /\ s < p < e.
Proof.
  unfold inside_range. rewrite existsb_exists. split.
  - intros ([s e] & Hin & H). apply andb_true_iff in H. destruct H as [H1 H2].
    apply Nat.ltb_lt in H1, H2. exists s, e. simpl in *. auto.
  - intros (s & e & Hin & H). exists (s, e). split; [assumption|].
    apply andb_true_iff; split; apply Nat.ltb_lt; simpl; lia.
Qed.

Lemma at_start_true (w : Text) (p : nat) :
  at_start w p = true <-> exists e, In (p, e) (seal_ranges w).
Proof.
  unfold at_start. rewrite existsb_exists. split.
  - intros ([s e] & Hin & H). apply Nat.eqb_eq in H. simpl in H. subst. eauto.
  - intros (e & Hin). exists (p, e). split; [assumption|apply Nat.eqb_refl].
Qed.

Lemma at_end_true (w : Text) (p : nat) :
  at_end w p = true <-> exists s, In (s, p) (seal_ranges w).
Proof.
  unfold at_end. rewrite existsb_exists. split.
  - intros ([s e] & Hin & H). apply Nat.eqb_eq in H. simpl in H. subst. eauto.
  - intros (s & Hin). exists (s, p). split; [assumption|apply Nat.eqb_refl].
Qed.

Lemma before_start_true (w : Text) (p : nat) :
  before_start w p = true <-> exists e, In (S p, e) (seal_ranges w).
Proof.
  unfold before_start. rewrite existsb_exists. split.
  - intros ([s e] & Hin & H). apply Nat.eqb_eq in H. simpl in H. subst. eauto.
  - intros (e & Hin). exists (S p, e). split; [assumption|apply Nat.eqb_refl].
Qed.

Lemma before_tagged_ranges (w : Text) (p : nat) :
  before_tagged sealed w p = true <->
  exists s e, In (s, e) (seal_ranges w) /\ s < p <= e.
Proof.
  unfold before_tagged. split.
  - intros H. apply andb_true_iff in H. destruct H as [H0 H1].
    apply Nat.ltb_lt in H0. apply sflag_ranges in H1.
    destruct H1 as (s & e & Hin & Hr). exists s, e. split; [assumption|lia].
  - intros (s & e & Hin & Hr). apply andb_true_iff. split.
    + apply Nat.ltb_lt. lia.
    + apply sflag_ranges. exists s, e. split; [assumption|lia].
Qed.

Lemma seal_ranges_apart (w : Text) (r r' : Range) :
  In r (seal_ranges w) -> In r' (seal_ranges w) ->
  r = r' \/ snd r < fst r' \/ snd r' < fst r.
Proof. apply separated_apart with (lo := 0). apply tag_ranges_separated. Qed.

Lemma seal_range_lt (w : Text) (s e : nat) :
  In (s, e) (seal_ranges w) -> s < e.
Proof. intros H. apply (seal_range_run _ _ _ H). Qed.

Lemma before_tagged_split (w : Text) (p : nat) :
  before_tagged sealed w p = inside_range w p || at_end w p.
Proof.
  apply eq_iff_eq_true. rewrite orb_true_iff, before_tagged_ranges,
    inside_range_true, at_end_true. split.
  - intros (s & e & Hin & Hr). destruct (Nat.eq_dec p e) as [->|Hne].
    + right. eauto.
    + left. exists s, e. split; [assumption|lia].
  - intros [(s & e & Hin & Hr)|(s & Hin)].
    + exists s, e. split; [assumption|lia].
    + exists s, p. split; [assumption|]. apply seal_range_lt in Hin. lia.
Qed.

Lemma sflag_split (w : Text) (p : nat) :
  sflag w p = inside_range w p || at_start w p.
Proof.
  apply eq_iff_eq_true. rewrite orb_true_iff, sflag_ranges,
    inside_range_true, at_start_true. split.
  - intros (s & e & Hin & Hr). destruct (Nat.eq_dec p s) as [->|Hne].
    + right. eauto.
    + left. exists s, e. split; [assumption|lia].
  - intros [(s & e & Hin & Hr)|(e & Hin)].
    + exists s, e. split; [assumption|lia].
    + exists p, e. split; [assumption|]. apply seal_range_lt in Hin. lia.
Qed.

Lemma sflag_next (w : Text) (p : nat) :
  sflag w p = false -> sflag w (S p) = before_start w p.
Proof.
  intros H0. apply eq_iff_eq_true. rewrite sflag_ranges, before_start_true. split.
  - intros (s & e & Hin & Hr). destruct (Nat.eq_dec s (S p)) as [->|Hne]; [eauto|].
    assert (sflag w p = true) by (apply sflag_ranges; exists s, e; split; [assumption|lia]).
    congruence.
  - intros (e & Hin). exists (S p), e. split; [assumption|].
    apply seal_range_lt in Hin. lia.
Qed.

Lemma deletable_at_cases (w : Text) (p : nat) :
  isolated w -> deletable_at w p = deletable_with_end w p.
Proof.
  intros Hiso. unfold deletable_at, deletable_with_end, sole_separator.
  rewrite before_tagged_split.
  destruct (inside_range w p) eqn:Hi; [reflexivity|].
  destruct (at_end w p) eqn:He.
  { cbn [orb]. rewrite orb_true_r. reflexivity. }
  pose proof (sflag_split w p) as Hs. rewrite Hi in Hs. cbn [orb] in *.
  rewrite Hs. destruct (at_start w p) eqn:Ha; [reflexivity|].
  rewrite (sflag_next w p Hs). cbn [orb].
  destruct (before_start w p) eqn:Hb; [|reflexivity].
  assert (Hnl: is_newline (get w p) = true).
  { apply isolated_before; auto. rewrite (sflag_next w p Hs). exact Hb. }
  rewrite Hnl. cbn [andb]. rewrite negb_involutive. reflexivity.
Qed.

(** C3, as amended: under the tag invariants the guard refuses exactly the
    positions strictly inside a sealed range, at its start, at its end (the
    new line right after the block), and the new line that is the only
    separator before a range; it allows every other position. *)
Theorem is_deletable_cases (w : Text) (p : nat) :
  check_tags w = Returned None ->
  is_deletable w p = Returned (deletable_with_end w p).
Proof.
  intros H. apply check_tags_isolated in H.
  unfold is_deletable. rewrite is_deletable_isolated by assumption.
  rewrite deletable_at_cases by assumption. reflexivity.
Qed.

Lemma is_deletable_cases_witness :
  check_tags block_then_x = Returned None
  /\ is_deletable block_then_x 27 = Returned (deletable_with_end block_then_x 27).
Proof.
  split; [vm_compute; reflexivity|].
  apply (is_deletable_cases block_then_x 27). vm_compute. reflexivity.
Defined.

(** C3, as the specification words it, fails at the end of a sealed range:
    the new line after the block is in none of the cases (a) to (c), and
    the guard refuses it. *)
Lemma is_deletable_refuses_end :
  check_tags block_then_x = Returned None
  /\ deletable_as_specified block_then_x 26 = true
  /\ is_deletable block_then_x 26 = Returned false.
Proof. vm_compute. repeat split; reflexivity. Qed.

Lemma startswith_newline (s : str) :
  startswith s [NL] = true <-> exists r, s = NL :: r.
Proof.
  unfold startswith. destruct s as [|c r]; cbn [after_prefix].
  - split; [intros H; discriminate H|intros (r & H); discriminate H].
  - destruct (Ascii.eqb_spec NL c) as [<-|Hne].
    + split; eauto.
    + split; [intros H; discriminate H|]. intros (r' & H). congruence.
Qed.

Lemma endswith_newline (s : str) :
  endswith s [NL] = true <-> exists r, s = r ++ [NL].
Proof.
  unfold endswith. change (rev [NL]) with [NL]. rewrite startswith_newline. split.
  - intros (r & H). exists (rev r). rewrite <- (rev_involutive s), H. reflexivity.
  - intros (r & ->). exists (rev r). rewrite rev_app_distr. reflexivity.
Qed.

Lemma is_insertable_at_end (w : Text) (p : nat) (c : ascii) (s : str) :
  at_end w p = true ->
  is_insertable w p (c :: s) = Returned (startswith (c :: s) [NL]).
Proof.
  intros He. apply at_end_true in He. destruct He as (s0 & Hin0).
  pose proof (seal_range_lt _ _ _ Hin0) as Hlt0.
  unfold is_insertable. cbn [length Nat.eqb].
  destruct (tag_prevrange sealed w p) as [[s1 e1]|] eqn:Hp.
  - destruct (tag_prevrange_Some _ _ _ _ _ _ Hp) as (Hin & Hlt & Hcov).
    replace (s1 <? p) with true by (symmetry; apply Nat.ltb_lt; lia).
    cbn [assert bind].
    assert (e1 = p).
    { destruct (seal_ranges_apart _ _ _ Hin Hin0) as [H|[H|H]]; simpl in H.
      - congruence.
      - assert (Hb: before_tagged sealed w p = true).
        { apply before_tagged_ranges. exists s0, p. split; [assumption|lia]. }
        rewrite Hb in Hcov. apply Nat.leb_le in Hcov. lia.
      - lia. }
    subst e1. rewrite Nat.eqb_refl. reflexivity.
  - apply tag_prevrange_None in Hp.
    assert (Hb: before_tagged sealed w p = true).
    { apply before_tagged_ranges. exists s0, p. split; [assumption|lia]. }
    congruence.
Qed.

Lemma is_insertable_inside (w : Text) (p : nat) (c : ascii) (s : str) :
  inside_range w p = true ->
  is_insertable w p (c :: s) = Returned false.
Proof.
  intros He. apply inside_range_true in He. destruct He as (s0 & e0 & Hin0 & Hr0).
  unfold is_insertable. cbn [length Nat.eqb].
  assert (Hb: before_tagged sealed w p = true).
  { apply before_tagged_ranges. exists s0, e0. split; [assumption|lia]. }
  destruct (tag_prevrange sealed w p) as [[s1 e1]|] eqn:Hp.
  - destruct (tag_prevrange_Some _ _ _ _ _ _ Hp) as (Hin & Hlt & Hcov).
    replace (s1 <? p) with true by (symmetry; apply Nat.ltb_lt; lia).
    cbn [assert bind]. rewrite Hb in Hcov. rewrite Hcov.
    apply Nat.leb_le in Hcov.
    destruct (Nat.eqb_spec p e1) as [->|Hne]; [|reflexivity].
    destruct (seal_ranges_apart _ _ _ Hin Hin0) as [H|[H|H]]; simpl in H.
    + injection H as -> ->. lia.
    + lia.
    + lia.
  - apply tag_prevrange_None in Hp. congruence.
Qed.

Lemma is_insertable_at_start (w : Text) (p : nat) (c : ascii) (s : str) :
  at_start w p = true ->
  is_insertable w p (c :: s) = Returned (endswith (c :: s) [NL]).
Proof.
  intros He. apply at_start_true in He. destruct He as (e0 & Hin0).
  destruct (seal_range_run _ _ _ Hin0) as (Hlt0 & Hrun0 & _ & Hbefore).
  assert (Hb: before_tagged sealed w p = false).
  { unfold before_tagged. destruct Hbefore as [->|Hf]; [reflexivity|].
    unfold sflag in Hf. rewrite Hf. apply andb_false_r. }
  unfold is_insertable. cbn [length Nat.eqb].
  set (after := match tag_nextrange sealed w p with
                | Some (start, end_) => _ | None => _ end).
  assert (Hafter: after = Returned (endswith (c :: s) [NL])).
  { subst after. destruct (tag_nextrange sealed w p) as [[s1 e1]|] eqn:Hn.
    - destruct (tag_nextrange_Some _ _ _ _ _ _ Hb Hn) as (Hin & Hle & Hlow).
      replace (p <=? s1) with true by (symmetry; apply Nat.leb_le; lia).
      cbn [assert bind].
      destruct (Nat.eqb_spec p s1) as [->|Hne]; [reflexivity|].
      specialize (Hlow p). unfold sflag in Hrun0. rewrite Hrun0 in Hlow by lia.
      discriminate Hlow. lia.
    - pose proof (tag_nextrange_None _ _ _ _ Hb Hn p (Nat.le_refl p)) as Hlow.
      unfold sflag in Hrun0. rewrite Hrun0 in Hlow by lia. discriminate. }
  clearbody after.
  destruct (tag_prevrange sealed w p) as [[s1 e1]|] eqn:Hp; [|exact Hafter].
  destruct (tag_prevrange_Some _ _ _ _ _ _ Hp) as (Hin & Hlt & Hcov).
  replace (s1 <? p) with true by (symmetry; apply Nat.ltb_lt; lia).
  cbn [assert bind]. rewrite Hb in Hcov. apply Nat.leb_gt in Hcov.
  replace (p =? e1) with false by (symmetry; apply Nat.eqb_neq; lia).
  replace (p <=? e1) with false by (symmetry; apply Nat.leb_gt; lia).
  replace (e1 <? p) with true by (symmetry; apply Nat.ltb_lt; lia).
  exact Hafter.
Qed.

(** C4: the empty text can be inserted anywhere; a text that is not
    empty can be inserted at the end of a sealed range exactly when it
    starts with a new line, at the start of a sealed range exactly when it
    ends with a new line, and never strictly inside a sealed range. *)
Theorem is_insertable_boundaries (w : Text) (p : nat) :
  check_tags w = Returned None ->
  is_insertable w p [] = Returned true
  /\ forall s, s <> [] ->
       (at_end w p = true ->
        exists b, is_insertable w p s = Returned b
                  /\ (b = true <-> exists r, s = NL :: r))
       /\ (at_start w p = true ->
           exists b, is_insertable w p s = Returned b
                     /\ (b = true <-> exists r, s = r ++ [NL]))
       /\ (inside_range w p = true -> is_insertable w p s = Returned false).
Proof.
  intros _. split; [reflexivity|].
  intros [|c s] Hs; [congruence|]. repeat split.
  - intros H. eexists. split; [apply is_insertable_at_end; exact H|].
    apply startswith_newline.
  - intros H. eexists. split; [apply is_insertable_at_start; exact H|].
    apply endswith_newline.
  - apply is_insertable_inside.
Qed.

Lemma is_insertable_boundaries_witness :
  check_tags block_then_x = Returned None
  /\ is_insertable block_then_x 26 [] = Returned true.
Proof.
  split; [vm_compute; reflexivity|].
  apply (is_insertable_boundaries block_then_x 26). vm_compute. reflexivity.
Defined.

(** ** Ranges as a mask, and the naive deletion as a pass *)

Lemma in_ranges_app (a b : list Range) (i : nat) :
  in_ranges (a ++ b) i = in_ranges a i || in_ranges b i.
Proof. apply existsb_app. Qed.

Lemma ordered_weaken (lo lo' hi : nat) (rs : list Range) :
  lo' <= lo -> ordered lo rs hi -> ordered lo' rs hi.
Proof.
  destruct rs as [|r rest]; simpl; [easy|]. intros ? (? & ? & ? & ?).
  repeat split; auto; lia.
Qed.

Lemma ordered_below (lo hi : nat) (rs : list Range) (i : nat) :
  ordered lo rs hi -> i < lo -> in_ranges rs i = false.
Proof.
  revert lo. induction rs as [|r rest IH]; intros lo Ho Hi; simpl; [reflexivity|].
  destruct Ho as (H1 & H2 & H3 & H4).
  rewrite (IH (snd r)) by (auto; lia).
  rewrite orb_false_r. apply andb_false_intro1. apply Nat.leb_gt. lia.
Qed.

Lemma keep_nil {X} (off : nat) (l : list X) : keep [] off l = l.
Proof.
  revert off. induction l as [|x r IH]; intros off; simpl; [reflexivity|].
  rewrite IH. reflexivity.
Qed.

Lemma keep_ext {X} (rs rs' : list Range) (off : nat) (l : list X) :
  (forall i, off <= i -> in_ranges rs i = in_ranges rs' i) ->
  keep rs off l = keep rs' off l.
Proof.
  revert off. induction l as [|x r IH]; intros off H; simpl; [reflexivity|].
  rewrite (H off) by lia. rewrite (IH (S off)) by (intros; apply H; lia).
  reflexivity.
Qed.

(** Characters before the first range are kept. *)
Lemma keep_prefix {X} (rs : list Range) (lo hi off : nat) (p r : list X) :
  ordered lo rs hi -> off + length p <= lo ->
  keep rs off (p ++ r) = p ++ keep rs (off + length p) r.
Proof.
  intros Ho. revert off. induction p as [|x p IH]; intros off Hle; simpl in *.
  - rewrite Nat.add_0_r. reflexivity.
  - rewrite (ordered_below _ _ _ _ Ho) by lia.
    rewrite IH by lia. rewrite Nat.add_succ_r. reflexivity.
Qed.

(** The characters of the first range are dropped. *)
Lemma in_ranges_cons (a b : nat) (rs : list Range) (i : nat) :
  in_ranges ((a, b) :: rs) i = (a <=? i) && (i <? b) || in_ranges rs i.
Proof. reflexivity. Qed.

Lemma keep_range {X} (rs : list Range) (a b hi : nat) (u r : list X) :
  ordered b rs hi -> length u = b - a -> a <= b ->
  keep ((a, b) :: rs) a (u ++ r) = keep rs b r.
Proof.
  intros Ho. revert a. induction u as [|x u IH]; intros a Hlen Hle; cbn [app length] in *.
  - assert (a = b) by lia. subst a. apply keep_ext. intros i Hi.
    rewrite in_ranges_cons. nat_bool.
  - cbn [keep]. rewrite in_ranges_cons.
    replace (a <=? a) with true by (symmetry; apply Nat.leb_le; lia).
    replace (a <? b) with true by (symmetry; apply Nat.ltb_lt; lia).
    cbn [andb orb].
    rewrite <- (IH (S a)) by lia.
    apply keep_ext. intros i Hi. rewrite !in_ranges_cons. nat_bool.
Qed.

Lemma nscan_0 (prev : option cell) (rest : list cell) : nscan prev rest 0 = rest.
Proof. reflexivity. Qed.

(** A run of characters without the tag is deleted, when the character
    before it has no tag, and when a sealed range follows only if a new
    line or the beginning of the text comes before the run. *)
Lemma nscan_run (prev : option cell) (u r : list cell) (k : nat) :
  unsealed_opt prev ->
  Forall (fun x => sealed x = false) u ->
  (match hd_error r with Some n => sealed n = true -> line_before prev | None => True end) ->
  length u <= k ->
  nscan prev (u ++ r) k = nscan prev r (k - length u).
Proof.
  intros Hprev Hu Hnext. revert k. induction Hu as [|x u Hx Hu IH]; intros k Hk; simpl in *.
  - rewrite Nat.sub_0_r. reflexivity.
  - destruct k as [|k]; [lia|]. simpl.
    assert (Hd: del_local prev x (hd_error (u ++ r)) = true).
    { unfold del_local.
      replace (match prev with Some p => sealed p | None => false end) with false
        by (destruct prev; simpl in *; congruence).
      rewrite Hx.
      destruct u as [|y u]; simpl.
      - destruct (hd_error r) as [n|]; [|reflexivity].
        destruct (sealed n) eqn:Hn; [|reflexivity].
        specialize (Hnext eq_refl). destruct prev; simpl in *; auto.
      - inversion Hu; subst. rewrite H1. reflexivity. }
    rewrite Hd. apply IH. lia.
Qed.

(** A sealed range and the character after it are kept. *)
Lemma nscan_block (prev : option cell) (b r : list cell) (x : cell) (k : nat) :
  Forall (fun c => sealed c = true) b -> b <> [] ->
  nscan prev (b ++ x :: r) k = b ++ x :: nscan (Some x) r (k - S (length b)).
Proof.
  intros Hb. revert prev k. induction Hb as [|c b Hc Hb IH]; intros prev k Hne; [congruence|].
  assert (Hc': forall p n, del_local p c n = false).
  { intros p n. unfold del_local. rewrite Hc. destruct p as [p|]; [destruct (sealed p)|]; reflexivity. }
  destruct k as [|k]; [reflexivity|].
  cbn [app nscan length]. rewrite Hc'.
  destruct b as [|c2 b].
  - cbn [app length]. destruct k as [|k]; [reflexivity|].
    cbn [nscan]. unfold del_local at 1. cbn [sealed]. rewrite Hc.
    repeat f_equal. lia.
  - rewrite IH by congruence. reflexivity.
Qed.

(** A character that the guard refuses is kept. *)
Lemma nscan_kept (prev : option cell) (x : cell) (r : list cell) (k : nat) :
  del_local prev x (hd_error r) = false ->
  nscan prev (x :: r) (S k) = x :: nscan (Some x) r k.
Proof. intros H. simpl. rewrite H. reflexivity. Qed.

(** ** The text as a list *)

Lemma slice_length {A} (l : list A) (a b : nat) :
  b <= length l -> length (slice l a b) = b - a.
Proof.
  intros H. unfold slice. rewrite length_firstn, length_skipn. lia.
Qed.

Lemma skipn_slice {A} (l : list A) (a b : nat) :
  a <= b -> skipn a l = slice l a b ++ skipn b l.
Proof.
  intros H. unfold slice.
  rewrite <- (firstn_skipn (b - a) (skipn a l)) at 1.
  rewrite skipn_skipn. replace (b - a + a) with b by lia. reflexivity.
Qed.

Lemma nth_error_slice {A} (l : list A) (a b n : nat) :
  n < b - a -> nth_error (slice l a b) n = nth_error l (a + n).
Proof.
  intros H. unfold slice. rewrite nth_error_firstn.
  replace (n <? b - a) with true by (symmetry; apply Nat.ltb_lt; lia).
  apply nth_error_skipn.
Qed.

Lemma skipn_nth {A} (l : list A) (n : nat) (x : A) :
  nth_error l n = Some x -> skipn n l = x :: skipn (S n) l.
Proof.
  revert n. induction l as [|y l IH]; intros [|n] H; simpl in *; try discriminate.
  - congruence.
  - apply IH. exact H.
Qed.

Lemma hd_error_skipn {A} (l : list A) (n : nat) :
  hd_error (skipn n l) = nth_error l n.
Proof.
  revert n. induction l as [|y l IH]; intros [|n]; simpl; auto.
Qed.

Lemma slice_flags (w : Text) (a b : nat) (v : bool) :
  b <= length w ->
  (forall j, a <= j < b -> sflag w j = v) ->
  Forall (fun x => sealed x = v) (slice w a b).
Proof.
  intros Hb H. apply Forall_forall. intros x Hin.
  apply In_nth_error in Hin. destruct Hin as (n & Hn).
  assert (n < length (slice w a b)) by (apply nth_error_Some; congruence).
  rewrite slice_length in H0 by assumption.
  rewrite nth_error_slice in Hn by assumption.
  specialize (H (a + n)). unfold sflag, flag in H. rewrite Hn in H. apply H. lia.
Qed.

Lemma newline_cell (w : Text) (i : nat) :
  is_newline (get w i) = true ->
  exists x, nth_error w i = Some x /\ is_nl (chr x) = true.
Proof.
  unfold get. destruct (nth_error w i) as [x|]; simpl; [eauto|discriminate].
Qed.

Lemma sflag_cell (w : Text) (i : nat) (x : cell) :
  nth_error w i = Some x -> sflag w i = sealed x.
Proof. intros H. unfold sflag, flag. rewrite H. reflexivity. Qed.

Lemma prev_cell_unsealed (w : Text) (c : nat) :
  before_tagged sealed w c = false -> unsealed_opt (prev_cell w c).
Proof.
  unfold before_tagged, prev_cell, flag. destruct (Nat.eqb_spec c 0); [intros; exact I|].
  replace (0 <? c) with true by (symmetry; apply Nat.ltb_lt; lia).
  simpl. destruct (nth_error w (c - 1)); simpl; auto.
Qed.

Lemma prev_cell_S (w : Text) (e : nat) (x : cell) :
  nth_error w e = Some x -> prev_cell w (S e) = Some x.
Proof.
  intros H. unfold prev_cell. simpl. rewrite Nat.sub_0_r. exact H.
Qed.

Lemma before_tagged_S (w : Text) (e : nat) :
  before_tagged sealed w (S e) = sflag w e.
Proof. unfold before_tagged. simpl. rewrite Nat.sub_0_r. reflexivity. Qed.

Lemma ordered_empty (lo hi : nat) (rs : list Range) :
  ordered lo rs hi -> hi <= lo -> rs = [].
Proof.
  destruct rs as [|r rest]; [reflexivity|]. simpl. intros (? & ? & ? & _) ?. lia.
Qed.

Lemma ordered_cons (c x lo hi : nat) (rs : list Range) :
  c < x -> x <= hi -> x <= lo -> ordered lo rs hi ->
  ordered c ((c, x) :: rs) hi.
Proof.
  intros. simpl. repeat split; auto. eapply ordered_weaken; eauto.
Qed.

(** ** The walk of [pin_deletable_ranges] *)

(** What is known of the range that [tag_nextrange] finds at a position
    whose predecessor has no tag. *)
Lemma next_block (w : Text) (c s e : nat) :
  isolated w ->
  before_tagged sealed w c = false ->
  tag_nextrange sealed w c = Some (s, e) ->
  c <= s /\ s < e /\ e < length w
  /\ (forall j, c <= j < s -> sflag w j = false)
  /\ Forall (fun x => sealed x = true) (slice w s e)
  /\ (s = 0 \/ is_newline (get w (s - 1)) = true)
  /\ exists xe, nth_error w e = Some xe /\ sealed xe = false
                /\ is_nl (chr xe) = true.
Proof.
  intros Hiso Hfresh Hn.
  destruct (tag_nextrange_Some _ _ _ _ _ _ Hfresh Hn) as (Hin & Hle & Hlow).
  destruct (seal_range_run _ _ _ Hin) as (Hse & Hrun & He & _).
  destruct (Hiso _ _ Hin) as [Hs Hnl].
  destruct (newline_cell _ _ Hnl) as (xe & Hxe & Hxnl).
  assert (e < length w) by (apply nth_error_Some; congruence).
  repeat split; auto; try lia.
  - apply slice_flags; [lia|]. exact Hrun.
  - exists xe. repeat split; auto. rewrite <- (sflag_cell _ _ _ Hxe). exact He.
Qed.

(** A sealed range and the new line after it pass through both the mask
    and the naive pass. *)
Lemma block_tail (w : Text) (s e index2 : nat) (xe : cell)
  (rs : list Range) (prev : option cell) :
  s < e -> e < length w ->
  Forall (fun x => sealed x = true) (slice w s e) ->
  nth_error w e = Some xe ->
  ordered (S e) rs index2 ->
  keep rs (S e) (skipn (S e) w)
    = nscan (Some xe) (skipn (S e) w) (index2 - S e) ->
  keep rs s (skipn s w) = nscan prev (skipn s w) (index2 - s).
Proof.
  intros Hse He Hb Hxe Ho Htail.
  assert (Hlen: length (slice w s e) = e - s) by (apply slice_length; lia).
  rewrite (skipn_slice w s e) by lia. rewrite (skipn_nth _ _ _ Hxe).
  rewrite nscan_block; [|assumption|].
  2:{ intros Hnil. rewrite Hnil in Hlen. simpl in Hlen. lia. }
  change (slice w s e ++ xe :: skipn (S e) w)
    with (slice w s e ++ [xe] ++ skipn (S e) w).
  rewrite app_assoc.
  rewrite (keep_prefix rs (S e) index2 s) by (auto; rewrite length_app, Hlen; simpl; lia).
  rewrite length_app, Hlen. simpl length.
  replace (s + (e - s + 1)) with (S e) by lia.
  rewrite Htail. rewrite <- app_assoc. simpl.
  replace (index2 - s - S (e - s)) with (index2 - S e) by lia.
  reflexivity.
Qed.

(** One turn of the loop: it returns, the cursor increases, and what it
    adds to the ranges extends the agreement of the mask with the naive
    pass from the new cursor to the old one. *)
Lemma pin_step_spec (w : Text) (index2 c : nat) (acc : list Range) :
  isolated w ->
  before_tagged sealed w c = false ->
  c < index2 ->
  exists step c',
    pin_step w index2 c acc = Returned (acc ++ step, c')
    /\ c < c'
    /\ before_tagged sealed w c' = false
    /\ forall rs, ordered c' rs index2 ->
         ordered c (step ++ rs) index2
         /\ (index2 <= length w ->
             keep rs c' (skipn c' w)
               = nscan (prev_cell w c') (skipn c' w) (index2 - c') ->
             keep (step ++ rs) c (skipn c w)
               = nscan (prev_cell w c) (skipn c w) (index2 - c)).
Proof.
  intros Hiso Hfresh Hlt. unfold pin_step.
  pose proof (prev_cell_unsealed _ _ Hfresh) as Hprev.
  destruct (tag_nextrange sealed w c) as [[s e]|] eqn:Hn.
  - destruct (next_block _ _ _ _ Hiso Hfresh Hn)
      as (Hcs & Hse & He & Hlow & Hb & Hs & xe & Hxe & Hxs & Hxnl).
    replace (c <=? s) with true by (symmetry; apply Nat.leb_le; lia).
    cbn [assert bind].
    assert (Hget: is_newline (get w e) = true).
    { unfold get. rewrite Hxe. exact Hxnl. }
    assert (Hplus: plus1c w e = S e) by (unfold plus1c; lia).
    assert (Hfresh': before_tagged sealed w (S e) = false).
    { rewrite before_tagged_S, (sflag_cell _ _ _ Hxe). exact Hxs. }
    assert (Htail: forall rs prev, ordered (S e) rs index2 ->
              keep rs (S e) (skipn (S e) w)
                = nscan (prev_cell w (S e)) (skipn (S e) w) (index2 - S e) ->
              keep rs s (skipn s w) = nscan prev (skipn s w) (index2 - s)).
    { intros rs prev Ho Ht. rewrite (prev_cell_S _ _ _ Hxe) in Ht.
      eapply block_tail; eauto. }
    assert (Hhd: hd_error (skipn s w) <> None /\
                 forall n, hd_error (skipn s w) = Some n -> sealed n = true).
    { rewrite hd_error_skipn.
      assert (Hs0: sflag w s = true).
      { rewrite Forall_forall in Hb.
        destruct (nth_error w s) as [x|] eqn:Hx.
        - rewrite (sflag_cell _ _ _ Hx). apply Hb.
          apply nth_error_In with (n := 0).
          rewrite nth_error_slice by lia. rewrite Nat.add_0_r. exact Hx.
        - apply nth_error_None in Hx. lia. }
      unfold sflag, flag in Hs0. destruct (nth_error w s) as [x|]; [|discriminate].
      split; [discriminate|]. intros n [= <-]. exact Hs0. }
    destruct (Nat.eqb_spec c s) as [->|Hne].
    + (* The cursor is at the start of the range. *)
      cbn [bind]. rewrite Hget. cbn [assert bind]. rewrite Hplus.
      exists [], (S e). rewrite app_nil_r.
      split; [reflexivity|]. split; [lia|]. split; [exact Hfresh'|].
      intros rs Ho. split.
      * simpl. eapply ordered_weaken; [|eassumption]. lia.
      * intros _ Ht. simpl. apply Htail; assumption.
    + replace (c <? s) with true by (symmetry; apply Nat.ltb_lt; lia).
      assert (Hu: forall b, b <= s -> b <= length w ->
                Forall (fun x => sealed x = false) (slice w c b)).
      { intros b Hb1 Hb2. apply slice_flags; [assumption|].
        intros j Hj. apply Hlow. lia. }
      destruct (Nat.ltb_spec index2 s) as [Hi2|Hi2].
      * (* The selection ends before the range. *)
        cbn [bind]. rewrite Hget. cbn [assert bind]. rewrite Hplus.
        exists [(c, index2)], (S e).
        split; [reflexivity|]. split; [lia|]. split; [exact Hfresh'|].
        intros rs Ho.
        assert (rs = []) by (apply (ordered_empty _ _ _ Ho); lia). subst rs.
        split; [simpl; repeat split; auto; lia|].
        intros Hlen _. rewrite app_nil_r.
        rewrite (skipn_slice w c index2) by lia.
        rewrite (keep_range [] c index2 index2); [|exact I|apply slice_length; lia|lia].
        rewrite keep_nil.
        rewrite nscan_run; auto.
        -- rewrite slice_length by lia. rewrite Nat.sub_diag. reflexivity.
        -- apply Hu; lia.
        -- rewrite hd_error_skipn.
           destruct (nth_error w index2) as [n|] eqn:Hn2; [|exact I].
           intros Hsn. rewrite <- (sflag_cell _ _ _ Hn2) in Hsn.
           rewrite Hlow in Hsn by lia. discriminate.
        -- rewrite slice_length by lia. lia.
      * (* The selection reaches the range. *)
        assert (Hrun: forall rs, ordered (S e) rs index2 -> index2 <= length w ->
                  keep rs (S e) (skipn (S e) w)
                    = nscan (prev_cell w (S e)) (skipn (S e) w) (index2 - S e) ->
                  line_before (prev_cell w c) ->
                  keep ((c, s) :: rs) c (skipn c w)
                    = nscan (prev_cell w c) (skipn c w) (index2 - c)).
        { intros rs Ho Hlen Ht Hline.
          rewrite (skipn_slice w c s) by lia.
          rewrite (keep_range rs c s index2);
            [|eapply ordered_weaken; [|eassumption]; lia|apply slice_length; lia|lia].
          rewrite nscan_run; auto.
          - rewrite slice_length by lia.
            replace (index2 - c - (s - c)) with (index2 - s) by lia.
            apply Htail; assumption.
          - apply Hu; lia.
          - destruct (hd_error (skipn s w)) as [n|]; [|exact I]. intros _. exact Hline.
          - rewrite slice_length by lia. lia. }
        destruct (Nat.eqb_spec c 0) as [Hc0|Hc0].
        { cbn [bind]. rewrite Hget. cbn [assert bind]. rewrite Hplus.
          exists [(c, s)], (S e).
          split; [reflexivity|]. split; [lia|]. split; [exact Hfresh'|].
          intros rs Ho. split; [apply ordered_cons with (lo := S e); auto; lia|].
          intros Hlen Ht. apply Hrun; auto.
          unfold prev_cell. subst c. exact I. }
        destruct (is_newline (get w (minus1c c))) eqn:Hpc.
        { cbn [bind]. rewrite Hget. cbn [assert bind]. rewrite Hplus.
          exists [(c, s)], (S e).
          split; [reflexivity|]. split; [lia|]. split; [exact Hfresh'|].
          intros rs Ho. split; [apply ordered_cons with (lo := S e); auto; lia|].
          intros Hlen Ht. apply Hrun; auto.
          unfold prev_cell. rewrite (proj2 (Nat.eqb_neq c 0) Hc0).
          unfold minus1c in Hpc. rewrite <- Nat.sub_1_r in Hpc.
          destruct (newline_cell _ _ Hpc) as (p & Hp & Hpnl). rewrite Hp. exact Hpnl. }
        (* The new line before the range stays. *)
        destruct Hs as [Hs|Hs]; [lia|].
        destruct (newline_cell _ _ Hs) as (xs & Hxs1 & Hxsnl).
        assert (Hxs0: sealed xs = false).
        { rewrite <- (sflag_cell _ _ _ Hxs1). apply Hlow. lia. }
        assert (Hkept: forall rs, ordered (S e) rs index2 -> index2 <= length w ->
                  keep rs (S e) (skipn (S e) w)
                    = nscan (prev_cell w (S e)) (skipn (S e) w) (index2 - S e) ->
                  keep rs (s - 1) (skipn (s - 1) w)
                  = nscan (prev_cell w c) (skipn (s - 1) w) (index2 - (s - 1))).
        { intros rs Ho Hlen Ht.
          rewrite (skipn_nth _ _ _ Hxs1). replace (S (s - 1)) with s by lia.
          replace (index2 - (s - 1)) with (S (index2 - s)) by lia.
          rewrite nscan_kept.
          - change (xs :: skipn s w) with ([xs] ++ skipn s w).
            rewrite (keep_prefix rs (S e) index2 (s - 1)) by (auto; simpl; lia).
            simpl length. replace (s - 1 + 1) with s by lia.
            simpl. f_equal. apply Htail; assumption.
          - unfold del_local, prev_cell. rewrite (proj2 (Nat.eqb_neq c 0) Hc0).
            unfold minus1c in Hpc. rewrite <- Nat.sub_1_r in Hpc.
            unfold get in Hpc.
            destruct (nth_error w (c - 1)) as [p|] eqn:Hp.
            + assert (Hp0: sealed p = false).
              { unfold unsealed_opt, prev_cell in Hprev.
                rewrite (proj2 (Nat.eqb_neq c 0) Hc0), Hp in Hprev. exact Hprev. }
              rewrite Hp0, Hxs0. simpl in Hpc.
              destruct Hhd as [Hhd1 Hhd2].
              destruct (hd_error (skipn s w)) as [n|]; [|congruence].
              rewrite (Hhd2 n eq_refl). exact Hpc.
            + apply nth_error_None in Hp. lia. }
        assert (Hall: forall rs, ordered (S e) rs index2 -> index2 <= length w ->
                  keep rs (S e) (skipn (S e) w)
                    = nscan (prev_cell w (S e)) (skipn (S e) w) (index2 - S e) ->
                  nscan (prev_cell w c) (skipn c w) (index2 - c)
                  = keep rs (s - 1) (skipn (s - 1) w)).
        { intros rs Ho Hlen Ht.
          rewrite (skipn_slice w c (s - 1)) by lia.
          rewrite nscan_run; auto.
          - rewrite slice_length by lia.
            replace (index2 - c - (s - 1 - c)) with (index2 - (s - 1)) by lia.
            symmetry. apply Hkept; assumption.
          - apply Hu; lia.
          - rewrite hd_error_skipn, Hxs1. intros Hx. congruence.
          - rewrite slice_length by lia. lia. }
        replace (minus1c s) with (s - 1) by (unfold minus1c; lia).
        destruct (Nat.ltb_spec c (s - 1)) as [Hc1|Hc1].
        { cbn [bind]. rewrite Hget. cbn [assert bind]. rewrite Hplus.
          exists [(c, s - 1)], (S e).
          split; [reflexivity|]. split; [lia|]. split; [exact Hfresh'|].
          intros rs Ho. split; [apply ordered_cons with (lo := S e); auto; lia|].
          intros Hlen Ht. rewrite (Hall rs Ho Hlen Ht). cbn [app].
          rewrite (skipn_slice w c (s - 1)) by lia.
          apply (keep_range rs c (s - 1) index2);
            [eapply ordered_weaken; [|eassumption]; lia|apply slice_length; lia|lia]. }
        { cbn [bind]. rewrite Hget. cbn [assert bind]. rewrite Hplus.
          exists [], (S e). rewrite app_nil_r.
          split; [reflexivity|]. split; [lia|]. split; [exact Hfresh'|].
          intros rs Ho. split; [simpl; eapply ordered_weaken; [|eassumption]; lia|].
          intros Hlen Ht. rewrite (Hall rs Ho Hlen Ht). cbn [app].
          replace (s - 1) with c by lia. reflexivity. }
  - (* No sealed range from the cursor on. *)
    pose proof (tag_nextrange_None _ _ _ _ Hfresh Hn) as Hlow.
    exists [(c, index2)], index2.
    split; [reflexivity|]. split; [lia|]. split.
    { unfold before_tagged. rewrite Hlow by lia. apply andb_false_r. }
    intros rs Ho.
    assert (rs = []) by (apply (ordered_empty _ _ _ Ho); lia). subst rs.
    split; [simpl; repeat split; auto; lia|].
    intros Hlen _. rewrite app_nil_r.
    rewrite (skipn_slice w c index2) by lia.
    rewrite (keep_range [] c index2 index2); [|exact I|apply slice_length; lia|lia].
    rewrite keep_nil.
    rewrite nscan_run; auto.
    + rewrite slice_length by lia. rewrite Nat.sub_diag. reflexivity.
    + apply slice_flags; [assumption|]. intros j Hj. apply Hlow. lia.
    + rewrite hd_error_skipn.
      destruct (nth_error w index2) as [n|] eqn:Hn2; [|exact I].
      intros Hsn. rewrite <- (sflag_cell _ _ _ Hn2) in Hsn.
      unfold sflag in Hsn. rewrite Hlow in Hsn by lia. discriminate.
    + rewrite slice_length by lia. lia.
Qed.

Lemma pin_loop_spec (w : Text) (index2 : nat) :
  isolated w ->
  forall turns c acc,
    before_tagged sealed w c = false ->
    index2 - c <= turns ->
    exists rs,
      pin_loop turns w index2 c acc = Returned (acc ++ rs)
      /\ ordered c rs index2
      /\ (index2 <= length w ->
          keep rs c (skipn c w)
            = nscan (prev_cell w c) (skipn c w) (index2 - c)).
Proof.
  intros Hiso.
  assert (Hdone: forall turns c acc, index2 <= c ->
            exists rs,
              pin_loop turns w index2 c acc = Returned (acc ++ rs)
              /\ ordered c rs index2
              /\ (index2 <= length w ->
                  keep rs c (skipn c w)
                    = nscan (prev_cell w c) (skipn c w) (index2 - c))).
  { intros turns c acc Hc. exists []. rewrite app_nil_r. repeat split.
    - destruct turns; simpl;
        replace (c <? index2) with false by (symmetry; apply Nat.ltb_ge; lia);
        reflexivity.
    - intros _. rewrite keep_nil. replace (index2 - c) with 0 by lia. reflexivity. }
  induction turns as [|turns IH]; intros c acc Hfresh Hturns.
  - apply Hdone. lia.
  - destruct (Nat.le_gt_cases index2 c) as [Hc|Hc]; [apply Hdone; assumption|].
    destruct (pin_step_spec w index2 c acc Hiso Hfresh Hc)
      as (step & c' & Hstep & Hlt & Hfresh' & Hext).
    destruct (IH c' (acc ++ step) Hfresh') as (rs & Hloop & Ho & Hmask); [lia|].
    exists (step ++ rs). destruct (Hext rs Ho) as [Ho' Hmask'].
    repeat split; auto.
    simpl. replace (c <? index2) with true by (symmetry; apply Nat.ltb_lt; lia).
    rewrite Hstep. cbn [bind].
    replace (c <? c') with true by (symmetry; apply Nat.ltb_lt; lia).
    cbn [assert bind]. rewrite Hloop, app_assoc. reflexivity.
Qed.

(** Any turn of the loop returns with a larger cursor. *)
Lemma pin_step_progress (w : Text) (index2 c : nat) (acc : list Range) :
  isolated w -> c < index2 ->
  exists acc' c', pin_step w index2 c acc = Returned (acc', c') /\ c < c'.
Proof.
  intros Hiso Hlt. unfold pin_step.
  destruct (tag_nextrange sealed w c) as [[s e]|] eqn:Hn.
  - destruct (tag_nextrange_le _ _ _ _ _ _ Hn) as (Hin & Hle).
    destruct (seal_range_run _ _ _ Hin) as (Hse & _).
    destruct (Hiso _ _ Hin) as [_ Hnl].
    destruct (newline_cell _ _ Hnl) as (xe & Hxe & _).
    assert (e < length w) by (apply nth_error_Some; congruence).
    replace (c <=? s) with true by (symmetry; apply Nat.leb_le; lia).
    rewrite Hnl. cbn [assert bind].
    assert (Hplus: plus1c w e = S e) by (unfold plus1c; lia). rewrite Hplus.
    destruct (c =? s) eqn:Hcs; cbn [bind]; [eexists _, _; split; [reflexivity|lia]|].
    apply Nat.eqb_neq in Hcs.
    replace (c <? s) with true by (symmetry; apply Nat.ltb_lt; lia).
    destruct (index2 <? s); cbn [bind]; [eexists _, _; split; [reflexivity|lia]|].
    destruct (c =? 0); cbn [bind]; [eexists _, _; split; [reflexivity|lia]|].
    destruct (is_newline (get w (minus1c c))); cbn [bind];
      [eexists _, _; split; [reflexivity|lia]|].
    destruct (c <? minus1c s); cbn [bind]; eexists _, _; split; try reflexivity; lia.
  - eexists _, _. split; [reflexivity|lia].
Qed.

Lemma deletable_at_local (w : Text) (i : nat) (x : cell) :
  nth_error w i = Some x ->
  deletable_at w i = del_local (prev_cell w i) x (nth_error w (S i)).
Proof.
  intros Hx. unfold deletable_at, del_local, before_tagged, prev_cell.
  rewrite (sflag_cell _ _ _ Hx). unfold sflag, flag, get.
  destruct (Nat.eqb_spec i 0) as [->|Hi].
  - simpl. reflexivity.
  - replace (0 <? i) with true by (symmetry; apply Nat.ltb_lt; lia).
    cbn [andb orb].
    destruct (nth_error w (i - 1)) as [p|] eqn:Hp.
    + reflexivity.
    + apply nth_error_None in Hp.
      assert (i < length w) by (apply nth_error_Some; congruence). lia.
Qed.

(** After a character with the tag, the rest of its range and the
    character after the range are kept. *)
Lemma nscan_in_block (p : cell) (b r : list cell) (x : cell) (k : nat) :
  sealed p = true ->
  Forall (fun c => sealed c = true) b ->
  nscan (Some p) (b ++ x :: r) k
  = b ++ x :: nscan (Some x) r (k - S (length b)).
Proof.
  intros Hp Hb. revert p Hp k. induction Hb as [|c b Hc Hb IH]; intros p Hp k.
  - destruct k as [|k]; [reflexivity|]. cbn [app nscan length].
    unfold del_local. rewrite Hp. repeat f_equal. lia.
  - destruct k as [|k]; [reflexivity|]. cbn [app nscan length].
    unfold del_local at 1. rewrite Hp. rewrite IH by assumption. reflexivity.
Qed.

(** [pin_deletable_ranges] returns ranges in order within the selection,
    and dropping them leaves what the naive pass leaves. *)
Lemma pin_spec (w : Text) (index1 index2 : nat) :
  isolated w -> index1 < index2 ->
  exists rs,
    pin_deletable_ranges w index1 index2 = Returned rs
    /\ ordered index1 rs index2
    /\ (index2 <= length w ->
        keep rs index1 (skipn index1 w)
          = nscan (prev_cell w index1) (skipn index1 w) (index2 - index1)).
Proof.
  intros Hiso Hlt. unfold pin_deletable_ranges.
  destruct (Nat.eqb_spec index2 (plus1c w index1)) as [Hone|Hmany].
  - (* One character. *)
    unfold plus1c in Hone.
    assert (index2 = S index1 /\ index1 < length w) as [-> Hlen].
    { destruct (Nat.min_spec (S index1) (length w)) as [[? Hm]|[? Hm]];
        rewrite Hm in Hone; clear Hm; split; lia. }
    clear Hone.
    unfold is_deletable. rewrite (is_deletable_isolated _ _ Hiso). cbn [bind].
    destruct (nth_error w index1) as [x|] eqn:Hx; [|apply nth_error_None in Hx; lia].
    rewrite (deletable_at_local _ _ _ Hx).
    rewrite (skipn_nth _ _ _ Hx).
    replace (S index1 - index1) with 1 by lia. cbn [nscan].
    rewrite hd_error_skipn.
    destruct (del_local (prev_cell w index1) x (nth_error w (S index1))).
    + exists [(index1, S index1)]. split; [reflexivity|]. split.
      * simpl. repeat split; auto.
      * intros _. change (x :: skipn (S index1) w) with ([x] ++ skipn (S index1) w).
        rewrite (keep_range [] index1 (S index1) (S index1)); [|exact I|cbn [length]; lia|lia].
        apply keep_nil.
    + exists []. split; [reflexivity|]. split; [exact I|].
      intros _. rewrite keep_nil. reflexivity.
  - assert (Hwalk: forall c, before_tagged sealed w c = false ->
              exists rs, pin_loop index2 w index2 c [] = Returned rs
                /\ ordered c rs index2
                /\ (index2 <= length w ->
                    keep rs c (skipn c w)
                      = nscan (prev_cell w c) (skipn c w) (index2 - c))).
    { intros c Hc. destruct (pin_loop_spec w index2 Hiso index2 c [] Hc) as (rs & H).
      - lia.
      - exists rs. exact H. }
    destruct (tag_prevrange sealed w index1) as [[s e]|] eqn:Hp.
    + destruct (tag_prevrange_Some _ _ _ _ _ _ Hp) as (Hin & Hs & Hcov).
      destruct (seal_range_run _ _ _ Hin) as (Hse & Hrun & He & _).
      destruct (Hiso _ _ Hin) as [_ Hnl].
      destruct (newline_cell _ _ Hnl) as (xe & Hxe & _).
      assert (Helen: e < length w) by (apply nth_error_Some; congruence).
      replace (s <? index1) with true by (symmetry; apply Nat.ltb_lt; lia).
      rewrite Hnl. cbn [assert bind].
      assert (Hplus: plus1c w e = S e) by (unfold plus1c; lia). rewrite Hplus.
      assert (Hinside: index1 <= e ->
                forall rs, ordered (S e) rs index2 ->
                  (index2 <= length w ->
                   keep rs (S e) (skipn (S e) w)
                     = nscan (prev_cell w (S e)) (skipn (S e) w) (index2 - S e)) ->
                  index2 <= length w ->
                  keep rs index1 (skipn index1 w)
                  = nscan (prev_cell w index1) (skipn index1 w) (index2 - index1)).
      { intros Hie rs Ho Ht Hlen. specialize (Ht Hlen).
        rewrite (prev_cell_S _ _ _ Hxe) in Ht.
        assert (Hb: Forall (fun c => sealed c = true) (slice w index1 e)).
        { apply slice_flags; [lia|]. intros j Hj. apply Hrun. lia. }
        assert (Hblen: length (slice w index1 e) = e - index1) by (apply slice_length; lia).
        rewrite (skipn_slice w index1 e) by lia. rewrite (skipn_nth _ _ _ Hxe).
        unfold prev_cell. replace (index1 =? 0) with false by (symmetry; apply Nat.eqb_neq; lia).
        destruct (nth_error w (index1 - 1)) as [p|] eqn:Hpc;
          [|apply nth_error_None in Hpc; lia].
        rewrite nscan_in_block; auto.
        2:{ rewrite <- (sflag_cell _ _ _ Hpc). apply Hrun. lia. }
        change (slice w index1 e ++ xe :: skipn (S e) w)
          with (slice w index1 e ++ [xe] ++ skipn (S e) w).
        rewrite app_assoc.
        rewrite (keep_prefix rs (S e) index2 index1)
          by (auto; rewrite length_app, Hblen; simpl; lia).
        rewrite length_app, Hblen. simpl length.
        replace (index1 + (e - index1 + 1)) with (S e) by lia.
        rewrite Ht, <- app_assoc. simpl.
        replace (index2 - index1 - S (e - index1)) with (index2 - S e) by lia.
        reflexivity. }
      assert (Hfresh': before_tagged sealed w (S e) = false).
      { rewrite before_tagged_S. exact He. }
      destruct (Nat.leb_spec index2 (S e)) as [Hi2|Hi2].
      * exists []. split; [reflexivity|]. split; [exact I|].
        apply Hinside; [lia|exact I|].
        intros _. rewrite keep_nil. replace (index2 - S e) with 0 by lia. reflexivity.
      * destruct (Nat.leb_spec index1 e) as [Hi1|Hi1].
        -- destruct (Hwalk (S e) Hfresh') as (rs & Hr & Ho & Hm).
           exists rs. split; [exact Hr|]. split.
           ++ eapply ordered_weaken; [|exact Ho]. lia.
           ++ apply Hinside; auto.
        -- apply Hwalk. symmetry. exact Hcov.
    + apply Hwalk. apply (tag_prevrange_None _ _ _ _ Hp).
Qed.

Lemma ordered_within (lo hi : nat) (rs : list Range) :
  ordered lo rs hi ->
  Forall (fun r => lo <= fst r /\ snd r <= hi) rs.
Proof.
  revert lo. induction rs as [|r rest IH]; intros lo H; constructor.
  - destruct H as (? & ? & ? & _). lia.
  - destruct H as (? & ? & ? & H). apply IH in H.
    eapply Forall_impl; [|exact H]. simpl. intros; lia.
Qed.

Lemma ordered_nonempty (lo hi : nat) (rs : list Range) :
  ordered lo rs hi -> Forall (fun r => fst r < snd r) rs.
Proof.
  revert lo. induction rs as [|r rest IH]; intros lo H; constructor.
  - destruct H as (? & ? & ? & _). lia.
  - destruct H as (? & ? & ? & H). eapply IH; eauto.
Qed.

Lemma ordered_pairs (lo hi : nat) (rs : list Range) :
  ordered lo rs hi ->
  ForallOrdPairs (fun a b => snd a <= fst b /\ fst a < fst b) rs.
Proof.
  revert lo. induction rs as [|r rest IH]; intros lo H; constructor.
  - destruct H as (? & ? & ? & H). apply ordered_within in H.
    eapply Forall_impl; [|exact H]. simpl. intros; lia.
  - destruct H as (? & ? & ? & H). eapply IH; eauto.
Qed.

(** C2: the ranges that [pin_deletable_ranges] returns lie within the
    selection, come in increasing order without overlap, and none is
    empty. *)
Theorem pin_deletable_ranges_ordered (w : Text) (index1 index2 : nat) :
  check_tags w = Returned None ->
  index1 < index2 ->
  exists rs,
    pin_deletable_ranges w index1 index2 = Returned rs
    /\ Forall (fun r => index1 <= fst r /\ snd r <= index2) rs
    /\ ForallOrdPairs (fun a b => snd a <= fst b /\ fst a < fst b) rs
    /\ Forall (fun r => fst r < snd r) rs.
Proof.
  intros Htags Hlt. apply check_tags_isolated in Htags.
  destruct (pin_spec w index1 index2 Htags Hlt) as (rs & Hr & Ho & _).
  exists rs. split; [exact Hr|]. split; [|split].
  - eapply ordered_within; eauto.
  - eapply ordered_pairs; eauto.
  - eapply ordered_nonempty; eauto.
Qed.

Lemma pin_deletable_ranges_ordered_witness :
  check_tags text_around_block = Returned None
  /\ 1 < 34
  /\ exists rs,
       pin_deletable_ranges text_around_block 1 34 = Returned rs
       /\ Forall (fun r => 1 <= fst r /\ snd r <= 34) rs
       /\ ForallOrdPairs (fun a b => snd a <= fst b /\ fst a < fst b) rs
       /\ Forall (fun r => fst r < snd r) rs.
Proof.
  split; [vm_compute; reflexivity|]. split; [lia|].
  apply (pin_deletable_ranges_ordered text_around_block 1 34);
    [vm_compute; reflexivity|lia].
Defined.

(** C9: in every turn of the loop of [pin_deletable_ranges] the cursor
    [candidate_start] grows, and the function returns within the turns
    this leaves it. *)
Theorem pin_walk_terminates (w : Text) (index1 index2 : nat) :
  check_tags w = Returned None ->
  index1 < index2 ->
  (forall candidate_start result,
     candidate_start < index2 ->
     exists result' candidate_start',
       pin_step w index2 candidate_start result
         = Returned (result', candidate_start')
       /\ candidate_start < candidate_start')
  /\ exists rs, pin_deletable_ranges w index1 index2 = Returned rs.
Proof.
  intros Htags Hlt. apply check_tags_isolated in Htags. split.
  - intros c acc Hc. apply pin_step_progress; assumption.
  - destruct (pin_spec w index1 index2 Htags Hlt) as (rs & Hr & _). eauto.
Qed.

Lemma pin_walk_terminates_witness :
  check_tags text_around_block = Returned None
  /\ 1 < 34
  /\ exists rs, pin_deletable_ranges text_around_block 1 34 = Returned rs.
Proof.
  split; [vm_compute; reflexivity|]. split; [lia|].
  apply (pin_walk_terminates text_around_block 1 34);
    [vm_compute; reflexivity|lia].
Defined.

(** ** Deleting the marked ranges *)

Lemma slice_flag_all {X} (tagged : X -> bool) (l : list X) (a b : nat) (v : bool) :
  b <= length l ->
  (forall j, a <= j < b -> flag tagged l j = v) ->
  Forall (fun x => tagged x = v) (slice l a b).
Proof.
  intros Hb H. apply Forall_forall. intros x Hin.
  apply In_nth_error in Hin. destruct Hin as (n & Hn).
  assert (n < length (slice l a b)) by (apply nth_error_Some; congruence).
  rewrite slice_length in H0 by assumption.
  rewrite nth_error_slice in Hn by assumption.
  specialize (H (a + n)). unfold flag in H. rewrite Hn in H. apply H. lia.
Qed.

Lemma marks_from_ext (f g : nat -> bool) (off : nat) (w : Text) :
  (forall i, off <= i -> f i = g i) -> marks_from f off w = marks_from g off w.
Proof.
  revert off. induction w as [|c r IH]; intros off H; simpl; [reflexivity|].
  rewrite (H off) by lia. rewrite (IH (S off)) by (intros; apply H; lia).
  reflexivity.
Qed.

Lemma unmarked_marks (w : Text) (off : nat) :
  unmarked w = marks_from (fun _ => false) off w.
Proof.
  revert off. unfold unmarked. induction w as [|c r IH]; intros off; simpl; [reflexivity|].
  rewrite (IH (S off)). reflexivity.
Qed.

Lemma mark_from_marks (f : nat -> bool) (off : nat) (w : Text) (a b : nat) :
  mark_from off (marks_from f off w) a b
  = marks_from (fun i => f i || interval a b i) off w.
Proof.
  revert off. induction w as [|c r IH]; intros off; simpl; [reflexivity|].
  rewrite IH. reflexivity.
Qed.

Lemma fold_mark_marks (rs : list Range) (f : nat -> bool) (w : Text) :
  fold_left (fun m r => mark m (fst r) (snd r)) rs (marks_from f 0 w)
  = marks_from (fun i => f i || in_ranges rs i) 0 w.
Proof.
  revert f. induction rs as [|r rs IH]; intros f; simpl.
  - apply marks_from_ext. intros i _. rewrite orb_false_r. reflexivity.
  - unfold mark at 2. rewrite mark_from_marks, IH.
    apply marks_from_ext. intros i _. unfold interval. rewrite orb_assoc. reflexivity.
Qed.

Lemma text_of_marks (f : nat -> bool) (off : nat) (w : Text) :
  text_of (marks_from f off w) = w.
Proof.
  revert off. induction w as [|c r IH]; intros off; simpl; [reflexivity|].
  unfold text_of in IH. rewrite IH. reflexivity.
Qed.

Lemma length_marks (f : nat -> bool) (off : nat) (w : Text) :
  length (marks_from f off w) = length w.
Proof.
  revert off. induction w as [|c r IH]; intros off; simpl; [reflexivity|].
  rewrite IH. reflexivity.
Qed.

Lemma filter_marks_keep (rs : list Range) (off : nat) (w : Text) :
  text_of (filter (fun x => negb (snd x)) (marks_from (in_ranges rs) off w))
  = keep rs off w.
Proof.
  revert off. induction w as [|c r IH]; intros off; simpl; [reflexivity|].
  destruct (in_ranges rs off); simpl; [apply IH|].
  unfold text_of in *. rewrite IH. reflexivity.
Qed.

Lemma filter_all {A} (p : A -> bool) (l : list A) :
  Forall (fun x => p x = true) l -> filter p l = l.
Proof.
  induction 1 as [|x l Hx Hl IH]; simpl; [reflexivity|].
  rewrite Hx, IH. reflexivity.
Qed.

Lemma filter_none {A} (p : A -> bool) (l : list A) :
  Forall (fun x => p x = false) l -> filter p l = [].
Proof.
  induction 1 as [|x l Hx Hl IH]; simpl; [reflexivity|].
  rewrite Hx, IH. reflexivity.
Qed.

Lemma before_tagged_0 {X} (tagged : X -> bool) (l : list X) :
  before_tagged tagged l 0 = false.
Proof. reflexivity. Qed.

(** The loop of [delete_the_deletables] leaves the characters that are
    not marked. *)
Lemma delete_marked_spec (turns : nat) (m : Marked) :
  length m <= turns ->
  delete_marked turns m = Returned (filter (fun x => negb (snd x)) m).
Proof.
  revert m. induction turns as [|turns IH]; intros m Hlen.
  - destruct m; [reflexivity|simpl in Hlen; lia].
  - cbn [delete_marked].
    destruct (tag_nextrange snd m 0) as [[s e]|] eqn:Hn.
    + destruct (tag_nextrange_Some _ _ _ _ _ _ (before_tagged_0 snd m) Hn)
        as (Hin & _ & Hlow).
      destruct (tag_range_run _ _ _ _ _ Hin) as (Hse & Hrun & _).
      unfold delete. replace (s <? e) with true by (symmetry; apply Nat.ltb_lt; lia).
      rewrite IH.
      * f_equal. rewrite <- (firstn_skipn s m) at 3.
        rewrite (skipn_slice m s e) by lia.
        rewrite !filter_app.
        rewrite (filter_none _ (slice m s e)); [reflexivity|].
        eapply Forall_impl; [|apply (slice_flag_all snd m s e true); [lia|exact Hrun]].
        simpl. intros x Hx. rewrite Hx. reflexivity.
      * rewrite length_app, length_firstn, length_skipn. lia.
    + pose proof (tag_nextrange_None _ _ _ _ (before_tagged_0 snd m) Hn) as Hlow.
      rewrite filter_all; [reflexivity|].
      apply Forall_forall. intros x Hx.
      apply In_nth_error in Hx. destruct Hx as (n & Hx).
      specialize (Hlow n (Nat.le_0_l n)). unfold flag in Hlow.
      rewrite Hx in Hlow. rewrite Hlow. reflexivity.
Qed.

(** [delete_the_deletables] drops the ranges of [pin_deletable_ranges]. *)
Lemma delete_the_deletables_keep (w : Text) (index1 index2 : nat) (rs : list Range) :
  pin_deletable_ranges w index1 index2 = Returned rs ->
  delete_the_deletables w index1 index2 = Returned (keep rs 0 w).
Proof.
  intros Hr. unfold delete_the_deletables. rewrite Hr. cbn [bind].
  rewrite (unmarked_marks w 0), fold_mark_marks.
  rewrite delete_marked_spec by (rewrite length_marks; lia).
  cbn [bind]. f_equal.
  rewrite (marks_from_ext _ (in_ranges rs)) by (intros; reflexivity).
  apply filter_marks_keep.
Qed.

(** ** The naive deletion *)

Lemma flag_marks (f : nat -> bool) (off : nat) (w : Text) (j : nat) :
  flag snd (marks_from f off w) j = f (off + j) && (j <? length w).
Proof.
  revert off j. induction w as [|c r IH]; intros off j.
  - rewrite flag_nil. simpl. rewrite andb_false_r. reflexivity.
  - destruct j as [|j].
    + simpl. rewrite Nat.add_0_r, andb_true_r. reflexivity.
    + cbn [marks_from]. rewrite flag_cons_S, IH.
      replace (S off + j) with (off + S j) by lia. reflexivity.
Qed.

(** The tag of a deletion has one range, the positions it marks. *)
Lemma nextrange_interval (a b : nat) (w : Text) :
  b <= length w ->
  tag_nextrange snd (marks_from (interval a b) 0 w) 0
  = if a <? b then Some (a, b) else None.
Proof.
  intros Hb. set (m := marks_from (interval a b) 0 w).
  assert (Hfl: forall j, flag snd m j = interval a b j).
  { intros j. unfold m. rewrite flag_marks. simpl. unfold interval.
    destruct (Nat.ltb_spec j (length w)); [apply andb_true_r|].
    rewrite andb_false_r. nat_bool. }
  destruct (tag_nextrange snd m 0) as [[s e]|] eqn:Hn.
  - destruct (tag_nextrange_Some _ _ _ _ _ _ (before_tagged_0 snd m) Hn)
      as (Hin & _ & Hlow).
    destruct (tag_range_run _ _ _ _ _ Hin) as (Hse & Hrun & He & _).
    assert (Hs: interval a b s = true) by (rewrite <- Hfl; apply Hrun; lia).
    assert (He1: interval a b (e - 1) = true) by (rewrite <- Hfl; apply Hrun; lia).
    rewrite Hfl in He.
    assert (Ha: a < s -> interval a b a = false) by (intros; rewrite <- Hfl; apply Hlow; lia).
    unfold interval in *.
    apply andb_true_iff in Hs, He1. destruct Hs as [Hs1 Hs2], He1 as [He2 He3].
    apply Nat.leb_le in Hs1, He2. apply Nat.ltb_lt in Hs2, He3.
    assert (s = a).
    { destruct (Nat.eq_dec s a); [assumption|].
      assert (Hf: (a <=? a) && (a <? b) = false) by (apply Ha; lia).
      rewrite Nat.leb_refl in Hf. simpl in Hf. apply Nat.ltb_ge in Hf. lia. }
    assert (e = b).
    { destruct (Nat.eq_dec e b); [assumption|].
      apply andb_false_iff in He. destruct He as [He|He];
        [apply Nat.leb_gt in He|apply Nat.ltb_ge in He]; lia. }
    subst. replace (a <? b) with true by (symmetry; apply Nat.ltb_lt; lia).
    reflexivity.
  - pose proof (tag_nextrange_None _ _ _ _ (before_tagged_0 snd m) Hn) as Hlow.
    destruct (Nat.ltb_spec a b); [|reflexivity].
    specialize (Hlow a (Nat.le_0_l a)). rewrite Hfl in Hlow. unfold interval in Hlow.
    rewrite Nat.leb_refl in Hlow. simpl in Hlow. apply Nat.ltb_ge in Hlow. lia.
Qed.

Lemma marks_from_app (f : nat -> bool) (off : nat) (a b : Text) :
  marks_from f off (a ++ b)
  = marks_from f off a ++ marks_from f (off + length a) b.
Proof.
  revert off. induction a as [|c a IH]; intros off; simpl.
  - rewrite Nat.add_0_r. reflexivity.
  - rewrite IH. replace (S off + length a) with (off + S (length a)) by lia. reflexivity.
Qed.

Lemma marks_from_within (f g : nat -> bool) (off : nat) (w : Text) :
  (forall i, off <= i < off + length w -> f i = g i) ->
  marks_from f off w = marks_from g off w.
Proof.
  revert off. induction w as [|c r IH]; intros off H; simpl in *; [reflexivity|].
  rewrite (H off) by lia. rewrite (IH (S off)) by (intros; apply H; lia).
  reflexivity.
Qed.

Lemma marks_from_shift (f g : nat -> bool) (off : nat) (w : Text) :
  (forall i, off <= i -> f (S i) = g i) ->
  marks_from f (S off) w = marks_from g off w.
Proof.
  revert off. induction w as [|c r IH]; intros off H; simpl; [reflexivity|].
  rewrite (H off) by lia. rewrite (IH (S off)) by (intros; apply H; lia).
  reflexivity.
Qed.

(** Deleting the character at the cursor shortens the range of the tag. *)
Lemma delete_at_cursor (i1 k : nat) (p r : Text) (x : cell) :
  i1 <= length p ->
  delete (marks_from (interval i1 (length p + S k)) 0 (p ++ x :: r))
    (length p) (S (length p))
  = marks_from (interval i1 (length p + k)) 0 (p ++ r).
Proof.
  intros Hi. unfold delete.
  replace (length p <? S (length p)) with true by (symmetry; apply Nat.ltb_lt; lia).
  rewrite !marks_from_app. cbn [marks_from]. simpl (0 + length p).
  set (g := interval i1 (length p + S k)).
  set (g' := interval i1 (length p + k)).
  rewrite firstn_app, firstn_all2 by (rewrite length_marks; lia).
  rewrite length_marks, Nat.sub_diag. cbn [firstn]. rewrite app_nil_r.
  rewrite skipn_app, skipn_all2 by (rewrite length_marks; lia).
  rewrite length_marks. replace (S (length p) - length p) with 1 by lia.
  cbn [skipn app].
  f_equal.
  - apply marks_from_within. intros i Hr. unfold g, g', interval. nat_bool.
  - apply marks_from_shift. intros i Hr. unfold g, g', interval. nat_bool.
Qed.

Lemma prev_cell_app (p r : Text) :
  prev_cell (p ++ r) (length p) = prev_cell p (length p).
Proof.
  unfold prev_cell. destruct (Nat.eqb_spec (length p) 0); [reflexivity|].
  apply nth_error_app1. lia.
Qed.

Lemma prev_cell_snoc (p : Text) (x : cell) :
  prev_cell (p ++ [x]) (length (p ++ [x])) = Some x.
Proof.
  unfold prev_cell. rewrite length_app. simpl length.
  replace (length p + 1 =? 0) with false by (symmetry; apply Nat.eqb_neq; lia).
  replace (length p + 1 - 1) with (length p) by lia.
  rewrite nth_error_app2 by lia. rewrite Nat.sub_diag. reflexivity.
Qed.

Lemma prev_cell_firstn (w : Text) (i : nat) :
  i <= length w -> prev_cell (firstn i w) (length (firstn i w)) = prev_cell w i.
Proof.
  intros Hi. rewrite length_firstn. replace (Nat.min i (length w)) with i by lia.
  unfold prev_cell. destruct (Nat.eqb_spec i 0); [reflexivity|].
  rewrite nth_error_firstn.
  replace (i - 1 <? i) with true by (symmetry; apply Nat.ltb_lt; lia). reflexivity.
Qed.

(** The guard at the cursor, from the characters around it. *)
Lemma is_deletable_at_cursor (p r : Text) (x : cell) :
  line_isolated (x :: r) ->
  _is_deletable_wo_preconditions (p ++ x :: r) (length p)
  = Returned (del_local (prev_cell p (length p)) x (hd_error r)).
Proof.
  intros Hiso.
  assert (Hx: nth_error (p ++ x :: r) (length p) = Some x).
  { rewrite nth_error_app2 by lia. rewrite Nat.sub_diag. reflexivity. }
  assert (Hn: nth_error (p ++ x :: r) (S (length p)) = hd_error r).
  { rewrite nth_error_app2 by lia.
    replace (S (length p) - length p) with 1 by lia. destruct r; reflexivity. }
  rewrite is_deletable_local.
  - rewrite (deletable_at_local _ _ _ Hx), Hn, prev_cell_app. reflexivity.
  - intros H0 H1 _. unfold sflag, flag, get in *. rewrite Hx in *. rewrite Hn in H1.
    simpl. destruct r as [|y r]; [discriminate|]. simpl in H1.
    destruct Hiso as [Hiso _]. apply Hiso; assumption.
Qed.

Lemma line_isolated_tail (x : cell) (r : list cell) :
  line_isolated (x :: r) -> line_isolated r.
Proof. intros [_ H]. exact H. Qed.

(** The loop of [naive_delete] is the pass [nscan] over the rest of the
    selection. *)
Lemma naive_loop_spec (i1 : nat) :
  forall turns p r k,
    i1 <= length p -> k <= length r -> k <= turns -> line_isolated r ->
    exists m',
      naive_loop turns (marks_from (interval i1 (length p + k)) 0 (p ++ r))
        i1 (length p)
        (if i1 <? length p + k then Some (length p + k) else None)
      = Returned m'
      /\ text_of m' = p ++ nscan (prev_cell p (length p)) r k.
Proof.
  induction turns as [|turns IH]; intros p r k Hi Hk Ht Hiso.
  - assert (k = 0) by lia. subst k. rewrite Nat.add_0_r.
    eexists. split.
    + simpl. destruct (i1 <? length p); [rewrite Nat.ltb_irrefl|]; reflexivity.
    + rewrite text_of_marks. reflexivity.
  - destruct k as [|k].
    + rewrite Nat.add_0_r. eexists. split.
      * simpl. destruct (i1 <? length p); [rewrite Nat.ltb_irrefl|]; reflexivity.
      * rewrite text_of_marks. reflexivity.
    + destruct r as [|x r]; [simpl in Hk; lia|]. simpl in Hk.
      replace (i1 <? length p + S k) with true by (symmetry; apply Nat.ltb_lt; lia).
      cbn [naive_loop].
      replace (length p <? length p + S k) with true by (symmetry; apply Nat.ltb_lt; lia).
      rewrite text_of_marks, (is_deletable_at_cursor _ _ _ Hiso). cbn [bind nscan].
      apply line_isolated_tail in Hiso.
      destruct (del_local (prev_cell p (length p)) x (hd_error r)).
      * rewrite delete_at_cursor by assumption.
        rewrite nextrange_interval by (rewrite length_app; lia).
        destruct (IH p r k) as (m' & Hm & Htext); try assumption; try lia.
        exists m'. split; [|exact Htext].
        destruct (i1 <? length p + k); [rewrite Nat.eqb_refl|]; exact Hm.
      * rewrite nextrange_interval by (rewrite length_app; simpl; lia).
        replace (i1 <? length p + S k) with true by (symmetry; apply Nat.ltb_lt; lia).
        rewrite Nat.eqb_refl. cbn [assert bind].
        assert (Hplus: plus1c (marks_from (interval i1 (length p + S k)) 0 (p ++ x :: r))
                         (length p) = S (length p)).
        { unfold plus1c. rewrite length_marks, length_app. cbn [length].
          apply Nat.min_l. lia. }
        rewrite Hplus.
        destruct (IH (p ++ [x]) r k) as (m' & Hm & Htext); try assumption; try lia.
        { rewrite length_app. simpl. lia. }
        rewrite prev_cell_snoc, <- app_assoc in Htext. cbn [app] in Htext.
        rewrite <- app_assoc in Hm. cbn [app] in Hm.
        rewrite length_app in Hm. cbn [length] in Hm.
        replace (length p + 1 + k) with (length p + S k) in Hm by lia.
        replace (length p + 1) with (S (length p)) in Hm by lia.
        replace (i1 <? length p + S k) with true in Hm by (symmetry; apply Nat.ltb_lt; lia).
        exists m'. split; assumption.
Qed.

Lemma line_isolated_of (l : list cell) :
  (forall j x y, nth_error l j = Some x -> nth_error l (S j) = Some y ->
     sealed x = false -> sealed y = true -> is_nl (chr x) = true) ->
  line_isolated l.
Proof.
  induction l as [|x r IH]; intros H; [exact I|]. split.
  - destruct r as [|y r]; [exact I|]. apply (H 0); reflexivity.
  - apply IH. intros j a b Ha Hb. apply (H (S j)); assumption.
Qed.

Lemma isolated_line_isolated (w : Text) (i : nat) :
  isolated w -> line_isolated (skipn i w).
Proof.
  intros Hiso. apply line_isolated_of. intros j x y Hx Hy H0 H1.
  rewrite nth_error_skipn in Hx, Hy.
  pose proof (isolated_before w (i + j) Hiso) as H.
  unfold sflag, flag, get in H. rewrite Hx in H.
  replace (S (i + j)) with (i + S j) in H by lia. rewrite Hy in H.
  apply H; assumption.
Qed.

Lemma naive_delete_spec (w : Text) (index1 index2 : nat) :
  isolated w -> index1 < index2 -> index2 <= length w ->
  naive_delete w index1 index2
  = Returned (firstn index1 w
              ++ nscan (prev_cell w index1) (skipn index1 w) (index2 - index1)).
Proof.
  intros Hiso Hlt Hlen. unfold naive_delete, mark.
  rewrite (unmarked_marks w 0), mark_from_marks.
  rewrite (marks_from_ext _ (interval index1 index2)) by (intros; reflexivity).
  rewrite nextrange_interval by assumption.
  replace (index1 <? index2) with true by (symmetry; apply Nat.ltb_lt; lia).
  rewrite Nat.eqb_refl. cbn [assert bind]. rewrite length_marks.
  assert (Hp: length (firstn index1 w) = index1)
    by (rewrite length_firstn; lia).
  destruct (naive_loop_spec index1 (length w) (firstn index1 w) (skipn index1 w)
              (index2 - index1)) as (m' & Hm & Htext).
  - lia.
  - rewrite length_skipn. lia.
  - lia.
  - apply isolated_line_isolated. assumption.
  - rewrite firstn_skipn, Hp in Hm.
    replace (index1 + (index2 - index1)) with index2 in Hm by lia.
    replace (index1 <? index2) with true in Hm by (symmetry; apply Nat.ltb_lt; lia).
    rewrite Hm. cbn [bind]. rewrite Htext.
    rewrite prev_cell_firstn by lia. reflexivity.
Qed.

(** C1: on a text that satisfies the tag invariants, deleting the ranges
    of [pin_deletable_ranges] and deleting character by character what the
    guard allows leave the same text with the same sealed ranges. *)
Theorem deletion_equivalence (w : Text) (index1 index2 : nat) :
  check_tags w = Returned None ->
  index1 < index2 ->
  index2 <= END w ->
  exists w1 w2,
    delete_the_deletables w index1 index2 = Returned w1
    /\ naive_delete w index1 index2 = Returned w2
    /\ map chr w1 = map chr w2
    /\ seal_ranges w1 = seal_ranges w2.
Proof.
  intros Htags Hlt Hlen. apply check_tags_isolated in Htags. unfold END in Hlen.
  destruct (pin_spec w index1 index2 Htags Hlt) as (rs & Hr & Ho & Hmask).
  exists (keep rs 0 w), (keep rs 0 w).
  split; [apply delete_the_deletables_keep; exact Hr|].
  split; [|split; reflexivity].
  rewrite naive_delete_spec by assumption.
  rewrite <- (Hmask Hlen). f_equal. symmetry.
  transitivity (keep rs 0 (firstn index1 w ++ skipn index1 w));
    [rewrite firstn_skipn; reflexivity|].
  rewrite (keep_prefix rs index1 index2 0) by (auto; rewrite length_firstn; lia).
  rewrite length_firstn. replace (0 + Nat.min index1 (length w)) with index1 by lia.
  reflexivity.
Qed.

Lemma deletion_equivalence_witness :
  check_tags text_around_block = Returned None
  /\ 1 < 34
  /\ 34 <= END text_around_block
  /\ exists w1 w2,
       delete_the_deletables text_around_block 1 34 = Returned w1
       /\ naive_delete text_around_block 1 34 = Returned w2
       /\ map chr w1 = map chr w2
       /\ seal_ranges w1 = seal_ranges w2.
Proof.
  split; [vm_compute; reflexivity|]. split; [lia|].
  split; [vm_compute; lia|].
  apply (deletion_equivalence text_around_block 1 34);
    [vm_compute; reflexivity|lia|vm_compute; lia].
Defined.

(** ** The block assembler *)

(** C8, at a start and an end marker that both have no suffix: the
    assertion on the suffix of the start marker fails, so [parse_blocks]
    returns neither blocks nor an error. *)
Theorem parse_blocks_both_suffixes_absent :
  parse_blocks markers_without_suffix = Raised AssertionError.
Proof. reflexivity. Qed.

(** What [parse_blocks] returns is a list of blocks or an error, never
    both and never neither. *)
Lemma parse_blocks_loop_one (markers : list SealMarker) :
  forall fst result r,
    parse_blocks_loop markers fst result = Returned r ->
    (exists blocks, r = (Some blocks, None))
    \/ (exists msg, r = (None, Some msg)).
Proof.
  induction markers as [|m rest IH]; intros fst result r H; simpl in H.
  - destruct fst; injection H as <-; eauto.
  - destruct (marker_kind m).
    + destruct fst; [injection H as <-; eauto|eapply IH; eauto].
    + destruct fst as [f|]; [|injection H as <-; eauto].
      destruct (suffix f) as [s|], (suffix m) as [t|]; simpl in H;
        try (injection H as <-; eauto; fail); try discriminate.
      destruct (negb (str_eqb s t)); [injection H as <-; eauto|].
      unfold new_Block in H. destruct (lineno f <? lineno m); simpl in H; [|discriminate].
      eapply IH; eauto.
Qed.

(** The blocks that the loop returns are the pairs of the markers. *)
Lemma parse_blocks_loop_blocks (markers : list SealMarker) :
  forall fst result blocks,
    (match fst with Some f => marker_kind f = First | None => True end) ->
    parse_blocks_loop markers fst result = Returned (Some blocks, None) ->
    exists added,
      blocks = result ++ added
      /\ Forall block_ok added
      /\ (match fst with Some f => [f] | None => [] end) ++ markers
         = markers_of added.
Proof.
  induction markers as [|m rest IH]; intros fst result blocks Hf H; simpl in H.
  - destruct fst; [discriminate|]. injection H as <-.
    exists []. rewrite app_nil_r. repeat split; auto.
  - destruct (marker_kind m) eqn:Hk.
    + destruct fst; [discriminate|].
      apply (IH (Some m) result blocks Hk H).
    + destruct fst as [f|]; [|discriminate].
      destruct (suffix f) as [s|] eqn:Hs, (suffix m) as [t|] eqn:Ht; simpl in H;
        try discriminate.
      destruct (str_eqb s t) eqn:Heq; simpl in H; [|discriminate].
      apply str_eqb_eq in Heq. subst t.
      unfold new_Block in H. destruct (lineno f <? lineno m) eqn:Hlt; simpl in H;
        [|discriminate].
      apply Nat.ltb_lt in Hlt.
      destruct (IH None (result ++ [mkBlock f m]) blocks I H) as (added & Hb & Hok & Hm).
      exists (mkBlock f m :: added). repeat split.
      * rewrite Hb, <- app_assoc. reflexivity.
      * constructor; [|assumption]. unfold block_ok. simpl. eauto 6.
      * simpl in *. rewrite Hm. reflexivity.
Qed.

Lemma parse_blocks_blocks (markers : list SealMarker) (blocks : list Block) :
  parse_blocks markers = Returned (Some blocks, None) ->
  Forall block_ok blocks /\ markers = markers_of blocks.
Proof.
  intros H. destruct (parse_blocks_loop_blocks markers None [] blocks I H)
    as (added & -> & Hok & Hm). simpl in *. auto.
Qed.

(** The pairs of markers of well-formed blocks are parsed back. *)
Lemma parse_blocks_loop_markers (blocks : list Block) (result : list Block) :
  Forall block_ok blocks ->
  parse_blocks_loop (markers_of blocks) None result
  = Returned (Some (result ++ blocks), None).
Proof.
  intros H. revert result. induction H as [|b blocks Hb Hbs IH]; intros result.
  - simpl. rewrite app_nil_r. reflexivity.
  - destruct Hb as (Hk1 & Hk2 & Hlt & s & Hs1 & Hs2).
    cbn [markers_of flat_map app parse_blocks_loop].
    rewrite Hk1, Hk2, Hs1, Hs2. cbn [assert bind].
    rewrite str_eqb_refl. cbn [negb]. unfold new_Block.
    replace (lineno (first b) <? lineno (last b)) with true
      by (symmetry; apply Nat.ltb_lt; assumption).
    cbn [require bind]. fold (markers_of blocks).
    rewrite IH, <- app_assoc. destruct b. reflexivity.
Qed.

(** ** The markers of the lines *)

Lemma extract_cons (i : nat) (line : str) (rest : Lines) :
  extract_markers_from i (line :: rest)
  = match marker_of i line with Some m => [m] | None => [] end
    ++ extract_markers_from (S i) rest.
Proof.
  unfold marker_of. cbn [extract_markers_from].
  destruct (COMMENT_FIRST_RE line) as [[p s]|]; [reflexivity|].
  destruct (COMMENT_LAST_RE line) as [[p s]|]; reflexivity.
Qed.

Lemma marker_of_lineno (i : nat) (line : str) (m : SealMarker) :
  marker_of i line = Some m -> lineno m = i.
Proof.
  unfold marker_of.
  destruct (COMMENT_FIRST_RE line) as [[p s]|]; [intros [= <-]; reflexivity|].
  destruct (COMMENT_LAST_RE line) as [[p s]|]; [intros [= <-]; reflexivity|discriminate].
Qed.

Lemma extract_app (i : nat) (a b : Lines) :
  extract_markers_from i (a ++ b)
  = extract_markers_from i a ++ extract_markers_from (i + length a) b.
Proof.
  revert i. induction a as [|line a IH]; intros i.
  - simpl. rewrite Nat.add_0_r. reflexivity.
  - cbn [app length]. rewrite !extract_cons, IH, <- app_assoc.
    replace (S i + length a) with (i + S (length a)) by lia. reflexivity.
Qed.

Lemma extract_bounds (l : Lines) (i : nat) :
  Forall (fun m => i <= lineno m < i + length l) (extract_markers_from i l).
Proof.
  revert i. induction l as [|line l IH]; intros i; [constructor|].
  rewrite extract_cons. apply Forall_app. split.
  - destruct (marker_of i line) as [m|] eqn:Hm; constructor; [|constructor].
    apply marker_of_lineno in Hm. simpl. lia.
  - eapply Forall_impl; [|apply IH]. simpl. intros; lia.
Qed.

(** Lines without marker give no marker, whatever their numbers. *)
Lemma extract_nil_shift (l : Lines) (i j : nat) :
  extract_markers_from i l = [] -> extract_markers_from j l = [].
Proof.
  revert i j. induction l as [|line l IH]; intros i j H; [reflexivity|].
  rewrite extract_cons in *. apply app_eq_nil in H. destruct H as [H1 H2].
  unfold marker_of in *.
  destruct (COMMENT_FIRST_RE line) as [[p s]|]; [discriminate|].
  destruct (COMMENT_LAST_RE line) as [[p s]|]; [discriminate|].
  simpl. eapply IH; eauto.
Qed.

(** The lines up to the first marker. *)
Lemma extract_first (l : Lines) :
  forall pos m ms,
    extract_markers_from pos l = m :: ms ->
    pos <= lineno m < pos + length l
    /\ extract_markers_from pos (firstn (lineno m - pos) l) = []
    /\ (exists line, nth_error l (lineno m - pos) = Some line
                     /\ marker_of (lineno m) line = Some m)
    /\ extract_markers_from (S (lineno m)) (skipn (S (lineno m - pos)) l) = ms.
Proof.
  induction l as [|line l IH]; intros pos m ms H; [discriminate|].
  rewrite extract_cons in H.
  destruct (marker_of pos line) as [m'|] eqn:Hm.
  - injection H as -> <-. pose proof (marker_of_lineno _ _ _ Hm) as Hl.
    rewrite Hl, Nat.sub_diag. cbn [firstn skipn nth_error length].
    repeat split; try lia; auto. exists line. auto.
  - simpl in H. destruct (IH _ _ _ H) as (Hb & Hnil & (x & Hx & Hmx) & Hrest).
    cbn [length]. replace (lineno m - pos) with (S (lineno m - S pos)) by lia.
    cbn [firstn skipn nth_error]. repeat split; try lia.
    + rewrite extract_cons, Hm, Hnil. reflexivity.
    + exists x. auto.
    + exact Hrest.
Qed.

(** The lines of the first block, when the markers of the lines from
    [pos] on are those of the blocks. *)
Lemma extract_block (lines : Lines) (pos : nat) (b : Block) (rest : list Block) :
  pos <= length lines ->
  block_ok b ->
  extract_markers_from pos (skipn pos lines) = markers_of (b :: rest) ->
  pos <= lineno (first b) /\ lineno (first b) < lineno (last b)
  /\ lineno (last b) < length lines
  /\ extract_markers_from pos (slice lines pos (lineno (first b))) = []
  /\ (exists line, nth_error lines (lineno (first b)) = Some line
                   /\ marker_of (lineno (first b)) line = Some (first b))
  /\ extract_markers_from (S (lineno (first b))) (body lines b) = []
  /\ (exists line, nth_error lines (lineno (last b)) = Some line
                   /\ marker_of (lineno (last b)) line = Some (last b))
  /\ extract_markers_from (S (lineno (last b))) (skipn (S (lineno (last b))) lines)
     = markers_of rest.
Proof.
  intros Hpos (_ & _ & Hlt & _) H. cbn [markers_of flat_map app] in H.
  fold (markers_of rest) in H.
  destruct (extract_first _ _ _ _ H) as (Hb1 & Hgap & (x1 & Hx1 & Hm1) & Hrest1).
  rewrite length_skipn in Hb1.
  rewrite nth_error_skipn in Hx1. replace (pos + (lineno (first b) - pos))
    with (lineno (first b)) in Hx1 by lia.
  rewrite skipn_skipn in Hrest1.
  replace (S (lineno (first b) - pos) + pos) with (S (lineno (first b))) in Hrest1 by lia.
  destruct (extract_first _ _ _ _ Hrest1) as (Hb2 & Hbody & (x2 & Hx2 & Hm2) & Hrest2).
  rewrite length_skipn in Hb2.
  rewrite nth_error_skipn in Hx2.
  replace (S (lineno (first b)) + (lineno (last b) - S (lineno (first b))))
    with (lineno (last b)) in Hx2 by lia.
  rewrite skipn_skipn in Hrest2.
  replace (S (lineno (last b) - S (lineno (first b))) + S (lineno (first b)))
    with (S (lineno (last b))) in Hrest2 by lia.
  repeat split; try lia; eauto.
  unfold body, slice. replace (lineno (first b) + 1) with (S (lineno (first b))) by lia.
  replace (lineno (last b) - S (lineno (first b)))
    with (lineno (last b) - S (lineno (first b))) by lia.
  exact Hbody.
Qed.

Lemma extract_chain (lines : Lines) (blocks : list Block) :
  forall pos,
    pos <= length lines ->
    Forall block_ok blocks ->
    extract_markers_from pos (skipn pos lines) = markers_of blocks ->
    chain pos blocks (length lines).
Proof.
  induction blocks as [|b rest IH]; intros pos Hpos Hok H; [exact Hpos|].
  inversion Hok as [|? ? Hb Hrest]; subst.
  destruct (extract_block _ _ _ _ Hpos Hb H) as (H1 & H2 & H3 & _ & _ & _ & _ & H8).
  cbn [chain]. repeat split; auto.
Qed.

(** ** The sealing transform *)

Lemma last_nonempty {A} (l : list A) (x d d' : A) :
  List.last (x :: l) d = List.last (x :: l) d'.
Proof.
  revert x. induction l as [|y l IH]; intros x; [reflexivity|].
  change (List.last (y :: l) d = List.last (y :: l) d'). apply IH.
Qed.

Lemma last_cons_default {A} (l : list A) (a d : A) :
  List.last (a :: l) d = List.last l a.
Proof.
  destruct l as [|x l]; [reflexivity|].
  change (List.last (x :: l) d = List.last (x :: l) a). apply last_nonempty.
Qed.

Lemma seal_loop_render (lines : Lines) (blocks : list Block) :
  forall i p result,
    seal_loop lines i (Some p) blocks result
    ++ skipn (lineno (last (List.last blocks p)) + 1) lines
    = result ++ render lines i (lineno (last p) + 1) blocks.
Proof.
  induction blocks as [|b rest IH]; intros i p result; [reflexivity|].
  rewrite last_cons_default. cbn [seal_loop render]. rewrite IH.
  unfold stamped. rewrite <- !app_assoc. reflexivity.
Qed.

(** What [seal] computes from the blocks of the lines. *)
Lemma seal_render (lines : Lines) (blocks : list Block) :
  parse_blocks (extract_markers lines) = Returned (Some blocks, None) ->
  seal lines
  = match blocks with
    | [] => Returned (Some lines, None)
    | _ :: _ =>
        sealed <- assert_lines (render lines 0 0 blocks) ;;
        Returned (Some sealed, None)
    end.
Proof.
  intros H. unfold seal. rewrite H. cbn [bind].
  destruct blocks as [|b0 bs]; [reflexivity|].
  cbn [seal_loop]. rewrite seal_loop_render. cbn [render]. unfold stamped, slice.
  rewrite Nat.sub_0_r. cbn [skipn]. rewrite <- !app_assoc. reflexivity.
Qed.

Lemma seal_returned (lines out : Lines) :
  seal lines = Returned (Some out, None) ->
  exists blocks,
    parse_blocks (extract_markers lines) = Returned (Some blocks, None)
    /\ out = render lines 0 0 blocks
    /\ (blocks = [] \/ forallb line_ok out = true).
Proof.
  intros H. destruct (parse_blocks (extract_markers lines)) as [r| |] eqn:Hp.
  - destruct (parse_blocks_loop_one _ _ _ _ Hp) as [(blocks & ->)|(msg & ->)].
    + exists blocks. split; [reflexivity|].
      rewrite (seal_render _ _ Hp) in H. destruct blocks as [|b0 bs].
      * injection H as <-. auto.
      * unfold assert_lines in H.
        destruct (forallb line_ok (render lines 0 0 (b0 :: bs))) eqn:Hok;
          cbn [require bind] in H; [|discriminate].
        injection H as <-. auto.
    + unfold seal in H. rewrite Hp in H. cbn [bind] in H.
      destruct msg; discriminate.
  - unfold seal in H. rewrite Hp in H. discriminate.
  - unfold seal in H. rewrite Hp in H. discriminate.
Qed.

Lemma chain_bound (blocks : list Block) :
  forall pos n, chain pos blocks n -> pos <= n.
Proof.
  destruct blocks; simpl; intros; lia.
Qed.

Lemma chain_nth (blocks : list Block) :
  forall pos n j b,
    chain pos blocks n -> nth_error blocks j = Some b ->
    pos <= lineno (first b) /\ lineno (first b) < lineno (last b)
    /\ lineno (last b) < n.
Proof.
  induction blocks as [|b0 rest IH]; intros pos n [|j] b H Hj; try discriminate.
  - injection Hj as ->. simpl in H. lia.
  - simpl in H, Hj. destruct H as (H1 & H2 & H3 & H4).
    destruct (IH _ _ _ _ H4 Hj). lia.
Qed.

Lemma render_cons (lines : Lines) (i pos : nat) (b : Block) (rest : list Block) :
  render lines i pos (b :: rest)
  = sealed_block lines i pos b ++ render lines (S i) (S (lineno (last b))) rest.
Proof.
  cbn [render]. unfold sealed_block. rewrite <- !app_assoc, Nat.add_1_r.
  reflexivity.
Qed.

Lemma body_length (lines : Lines) (b : Block) :
  lineno (last b) <= length lines ->
  length (body lines b) = lineno (last b) - S (lineno (first b)).
Proof.
  intros H. unfold body. rewrite slice_length by lia. lia.
Qed.

Lemma sealed_block_length (lines : Lines) (i pos : nat) (b : Block) :
  pos <= lineno (first b) -> lineno (first b) < lineno (last b) ->
  lineno (last b) < length lines ->
  length (sealed_block lines i pos b) = S (lineno (last b)) - pos.
Proof.
  intros H1 H2 H3. unfold sealed_block.
  rewrite !length_app, body_length, slice_length by lia. cbn [length]. lia.
Qed.

Lemma render_length (lines : Lines) (blocks : list Block) :
  forall i pos,
    chain pos blocks (length lines) ->
    length (render lines i pos blocks) = length lines - pos.
Proof.
  induction blocks as [|b rest IH]; intros i pos H.
  - simpl. apply length_skipn.
  - destruct H as (H1 & H2 & H3 & H4). rewrite render_cons, length_app.
    rewrite sealed_block_length, IH by assumption. lia.
Qed.

(** The marker lines of the block number [j] in the sealed lines. *)
Lemma render_nth (lines : Lines) (blocks : list Block) :
  forall i pos j b,
    chain pos blocks (length lines) ->
    nth_error blocks j = Some b ->
    nth_error (render lines i pos blocks) (lineno (first b) - pos)
    = Some (stamped lines (i + j) b (first b))
    /\ nth_error (render lines i pos blocks) (lineno (last b) - pos)
       = Some (stamped lines (i + j) b (last b)).
Proof.
  induction blocks as [|b0 rest IH]; intros i pos [|j] b H Hj; try discriminate.
  - injection Hj as ->. destruct H as (H1 & H2 & H3 & H4).
    cbn [render]. rewrite Nat.add_0_r. split.
    + rewrite nth_error_app2 by (rewrite slice_length by lia; lia).
      rewrite slice_length by lia. rewrite Nat.sub_diag. reflexivity.
    + rewrite nth_error_app2 by (rewrite slice_length by lia; lia).
      rewrite slice_length by lia.
      replace (lineno (last b) - pos - (lineno (first b) - pos))
        with (S (lineno (last b) - S (lineno (first b)))) by lia.
      cbn [app nth_error].
      rewrite nth_error_app2 by (rewrite body_length by lia; lia).
      rewrite body_length by lia. rewrite Nat.sub_diag. reflexivity.
  - pose proof H as (H1 & H2 & H3 & H4). cbn [nth_error] in Hj.
    destruct (chain_nth _ _ _ _ _ H4 Hj) as (G1 & G2 & G3).
    destruct (IH (S i) _ _ _ H4 Hj) as (E1 & E2).
    rewrite render_cons.
    rewrite !nth_error_app2 by (rewrite sealed_block_length by lia; lia).
    rewrite sealed_block_length by lia.
    replace (lineno (first b) - pos - (S (lineno (last b0)) - pos))
      with (lineno (first b) - S (lineno (last b0))) by lia.
    replace (lineno (last b) - pos - (S (lineno (last b0)) - pos))
      with (lineno (last b) - S (lineno (last b0))) by lia.
    replace (i + S j) with (S i + j) by lia. auto.
Qed.

(** The blocks of lines are one after the other. *)
Lemma parse_chain (lines : Lines) (blocks : list Block) :
  parse_blocks (extract_markers lines) = Returned (Some blocks, None) ->
  Forall block_ok blocks
  /\ extract_markers_from 0 lines = markers_of blocks
  /\ chain 0 blocks (length lines).
Proof.
  intros H. destruct (parse_blocks_blocks _ _ H) as (Hok & Hm).
  repeat split; auto. apply extract_chain; auto; lia.
Qed.

Lemma hex_digit_is_hex (n : nat) : is_hex_digit (hex_digit n) = true.
Proof.
  unfold hex_digit.
  do 16 (destruct n as [|n]; [reflexivity|]). destruct n; reflexivity.
Qed.

Lemma hexdigest_length (msg : list N) : length (MD5.hexdigest msg) = 32.
Proof.
  unfold MD5.hexdigest, MD5.digest.
  set (st := MD5.chunks _ _ _). clearbody st.
  unfold MD5.bytes_of_word. reflexivity.
Qed.

Lemma hexdigest_is_hex (msg : list N) :
  forallb is_hex_digit (MD5.hexdigest msg) = true.
Proof.
  unfold MD5.hexdigest. induction (MD5.digest msg) as [|b l IH]; [reflexivity|].
  cbn [flat_map]. rewrite forallb_app, IH. unfold MD5.hex_of_byte.
  cbn [forallb]. rewrite !hex_digit_is_hex. reflexivity.
Qed.

Lemma forallb_skipn {A} (p : A -> bool) (n : nat) (l : list A) :
  forallb p l = true -> forallb p (skipn n l) = true.
Proof.
  intros H. rewrite <- (firstn_skipn n l), forallb_app in H.
  apply andb_prop in H. tauto.
Qed.

(** The fingerprint that [seal] writes: the last 8 of the 32 digits of the
    MD5 of the salted text. *)
Lemma truncated_md5_last8 (i : nat) (content : str) :
  truncated_md5 i content
  = skipn 24 (MD5.hexdigest (encode_utf8 (str_of_nat i ++ "." ++ content))).
Proof.
  unfold truncated_md5. cbv zeta. rewrite hexdigest_length. reflexivity.
Qed.

(** The lines of the text of the block number [j] in the sealed lines. *)
Lemma render_nth_body (lines : Lines) (blocks : list Block) :
  forall i pos j b k,
    chain pos blocks (length lines) ->
    nth_error blocks j = Some b ->
    lineno (first b) < k < lineno (last b) ->
    nth_error (render lines i pos blocks) (k - pos) = nth_error lines k.
Proof.
  induction blocks as [|b0 rest IH]; intros i pos [|j] b k H Hj Hk; try discriminate.
  - injection Hj as ->. destruct H as (H1 & H2 & H3 & H4).
    cbn [render].
    rewrite nth_error_app2 by (rewrite slice_length by lia; lia).
    rewrite slice_length by lia.
    replace (k - pos - (lineno (first b) - pos))
      with (S (k - S (lineno (first b)))) by lia.
    cbn [app nth_error].
    rewrite nth_error_app1 by (rewrite body_length by lia; lia).
    unfold body. rewrite nth_error_slice by lia. f_equal. lia.
  - pose proof H as (H1 & H2 & H3 & H4). cbn [nth_error] in Hj.
    destruct (chain_nth _ _ _ _ _ H4 Hj) as (G1 & G2 & G3).
    rewrite render_cons.
    rewrite nth_error_app2 by (rewrite sealed_block_length by lia; lia).
    rewrite sealed_block_length by lia.
    replace (k - pos - (S (lineno (last b0)) - pos))
      with (k - S (lineno (last b0))) by lia.
    apply (IH (S i) _ _ _ _ H4 Hj Hk).
Qed.

(** C6: when [seal] succeeds, the two marker lines of the block number [i]
    of the call (counted from 0) end with the fingerprint of the block,
    the last 8 of the 32 hexadecimal digits of the MD5 of the UTF-8 bytes
    of ["{i}.{bodyText}"], [bodyText] being the lines strictly between the
    two marker lines, joined by new lines, and these lines are kept; the
    two lines ["# sealed: on"], ["# sealed: off"] are sealed with
    [88209294]; the examples of the tests, a text that is not ASCII, a
    stale suffix and eleven blocks get the fingerprints of [hashlib]; and
    the MD5 is that of RFC 1321 on its test suite. *)
Theorem seal_fingerprints :
  (forall (lines out : Lines),
      seal lines = Returned (Some out, None) ->
      exists blocks,
        parse_blocks (extract_markers lines) = Returned (Some blocks, None)
        /\ length out = length lines
        /\ forall i b,
            nth_error blocks i = Some b ->
            let bodyText :=
              join [NL] (slice lines (lineno (first b) + 1) (lineno (last b))) in
            let md5hex :=
              MD5.hexdigest (encode_utf8 (str_of_nat i ++ "." ++ bodyText)) in
            let fingerprint := skipn 24 md5hex in
            length md5hex = 32
            /\ length fingerprint = 8
            /\ forallb is_hex_digit fingerprint = true
            /\ nth_error out (lineno (first b))
               = Some (rstrip (prefix (first b)) ++ " " ++ fingerprint)
            /\ nth_error out (lineno (last b))
               = Some (rstrip (prefix (last b)) ++ " " ++ fingerprint)
            /\ forall k, lineno (first b) < k < lineno (last b) ->
                         nth_error out k = nth_error lines k)
  /\ seal ["# sealed: on"; "# sealed: off"]
     = Returned (Some ["# sealed: on 88209294"; "# sealed: off 88209294"], None)
  /\ seal ["prefix"; "# sealed: on"; "something sealed"; "# sealed: off"; "suffix"]
     = Returned (Some ["prefix"; "# sealed: on e6b46650"; "something sealed";
                       "# sealed: off e6b46650"; "suffix"], None)
  /\ seal ["prefix"; "# sealed: on"; "    something sealed"; "    # sealed: off";
           "    suffix"]
     = Returned (Some ["prefix"; "# sealed: on e1d04d89"; "    something sealed";
                       "    # sealed: off e1d04d89"; "    suffix"], None)
  /\ seal ["# sealed: on"; [ascii_of_nat 233]; "# sealed: off"]
     = Returned (Some ["# sealed: on 646d268e"; [ascii_of_nat 233];
                       "# sealed: off 646d268e"], None)
  /\ seal two_blocks = Returned (Some two_blocks_sealed, None)
  /\ seal (concat (repeat ["# sealed: on"; "# sealed: off"] 11))
     = Returned
         (Some (flat_map (fun h => ["# sealed: on " ++ h; "# sealed: off " ++ h])
                  ["88209294"; "d09d2eb4"; "882e1fd6"; "d9e4f7ba"; "e851dd26";
                   "631d088c"; "ad740dc8"; "74ad4ac5"; "bbd94fd6"; "8255938a";
                   "bd3357f7"]), None)
  /\ map (fun s => MD5.hexdigest (encode_utf8 s))
       [""; "a"; "abc"; "message digest"; "abcdefghijklmnopqrstuvwxyz";
        "ABCDEFGHIJKLMNOPQRSTUVWXYZabcdefghijklmnopqrstuvwxyz0123456789";
        "12345678901234567890123456789012345678901234567890123456789012345678901234567890"]
     = ["d41d8cd98f00b204e9800998ecf8427e"; "0cc175b9c0f1b6a831c399e269772661";
        "900150983cd24fb0d6963f7d28e17f72"; "f96b697d7cb7938d525a2f31aaf161d0";
        "c3fcd3d76192e4007dfb496cca67e13b"; "d174ab98d277d9f5a5611c2c9f419d9f";
        "57edf4a22be3c955ac49da2e2107b67a"].
Proof.
  split; [|repeat split; vm_compute; reflexivity].
  intros lines out H.
  destruct (seal_returned _ _ H) as (blocks & Hp & -> & _).
  destruct (parse_chain _ _ Hp) as (_ & _ & Hc).
  exists blocks. split; [exact Hp|]. split.
  - rewrite render_length by assumption. lia.
  - intros i b Hi. cbv zeta.
    destruct (render_nth lines blocks 0 0 i b Hc Hi) as (E1 & E2).
    rewrite Nat.sub_0_r in E1, E2. cbn [plus] in E1, E2.
    unfold stamped, content_of, body in E1, E2.
    rewrite truncated_md5_last8 in E1, E2.
    split; [apply hexdigest_length|].
    split; [rewrite length_skipn, hexdigest_length; reflexivity|].
    split.
    { apply forallb_skipn, hexdigest_is_hex. }
    split; [exact E1|]. split; [exact E2|].
    intros k Hk.
    rewrite <- (render_nth_body lines blocks 0 0 i b k Hc Hi Hk).
    rewrite Nat.sub_0_r. reflexivity.
Qed.

Lemma seal_fingerprints_witness :
  seal two_blocks = Returned (Some two_blocks_sealed, None)
  /\ exists blocks,
      parse_blocks (extract_markers two_blocks) = Returned (Some blocks, None)
      /\ length two_blocks_sealed = length two_blocks
      /\ forall i b,
          nth_error blocks i = Some b ->
          let bodyText :=
            join [NL] (slice two_blocks (lineno (first b) + 1) (lineno (last b))) in
          let md5hex :=
            MD5.hexdigest (encode_utf8 (str_of_nat i ++ "." ++ bodyText)) in
          let fingerprint := skipn 24 md5hex in
          length md5hex = 32
          /\ length fingerprint = 8
          /\ forallb is_hex_digit fingerprint = true
          /\ nth_error two_blocks_sealed (lineno (first b))
             = Some (rstrip (prefix (first b)) ++ " " ++ fingerprint)
          /\ nth_error two_blocks_sealed (lineno (last b))
             = Some (rstrip (prefix (last b)) ++ " " ++ fingerprint)
          /\ forall k, lineno (first b) < k < lineno (last b) ->
                       nth_error two_blocks_sealed k = nth_error two_blocks k.
Proof.
  split; [vm_compute; reflexivity|].
  apply (proj1 seal_fingerprints). vm_compute. reflexivity.
Defined.

(** ** The marker line pattern on a stamped line *)

Lemma dropwhile_split (p : ascii -> bool) (s : str) :
  exists ws, s = ws ++ dropwhile p s /\ forallb p ws = true.
Proof.
  induction s as [|c s (ws & E & H)]; [exists []; auto|].
  cbn [dropwhile]. destruct (p c) eqn:Hc.
  - exists (c :: ws). cbn [app forallb]. rewrite Hc, H. split; [congruence|reflexivity].
  - exists []. auto.
Qed.

Lemma dropwhile_app (p : ascii -> bool) (ws s : str) :
  forallb p ws = true -> dropwhile p (ws ++ s) = dropwhile p s.
Proof.
  induction ws as [|c ws IH]; intros H; [reflexivity|].
  cbn [forallb] in H. apply andb_prop in H. destruct H as [Hc H].
  cbn [app dropwhile]. rewrite Hc. auto.
Qed.

Lemma dropwhile_stop (p : ascii -> bool) (c : ascii) (s : str) :
  p c = false -> dropwhile p (c :: s) = c :: s.
Proof. intros H. cbn [dropwhile]. rewrite H. reflexivity. Qed.

Lemma dropwhile_head (p : ascii -> bool) (s : str) (c : ascii) (r : str) :
  dropwhile p s = c :: r -> p c = false.
Proof.
  induction s as [|x s IH]; [discriminate|]. cbn [dropwhile].
  destruct (p x) eqn:Hx; [exact IH|]. intros [= <- _]. exact Hx.
Qed.

Lemma after_prefix_split (k s r : str) :
  after_prefix k s = Some r -> s = k ++ r.
Proof.
  revert s. induction k as [|a k IH]; intros s H; cbn [after_prefix] in H.
  - injection H as <-. reflexivity.
  - destruct s as [|b s]; [discriminate|].
    destruct (Ascii.eqb a b) eqn:E; [|discriminate].
    apply Ascii.eqb_eq in E. subst b. cbn [app]. f_equal. auto.
Qed.

Lemma one_of_split (kws : list str) (s r : str) :
  one_of kws s = Some r -> exists k, In k kws /\ s = k ++ r.
Proof.
  induction kws as [|k kws IH]; [discriminate|]. cbn [one_of].
  destruct (after_prefix k s) as [r'|] eqn:E.
  - intros [= <-]. exists k. split; [left; reflexivity|].
    apply after_prefix_split. exact E.
  - intros H. destruct (IH H) as (k' & Hin & Hs). exists k'. split; [right|]; auto.
Qed.

Lemma keyword_head (kws : list str) (k : str) :
  keywords kws -> In k kws ->
  exists c t, k = c :: t /\ is_space c = false /\ Ascii.eqb c ":" = false.
Proof.
  intros [-> | [-> | ->]] Hin; cbn [In SEALED ON OFF] in Hin;
    repeat (destruct Hin as [<-|Hin]; [eexists; eexists; split; [reflexivity|split; reflexivity]|]);
    contradiction.
Qed.

Lemma keyword_last (kws : list str) (k : str) :
  keywords kws -> In k kws ->
  exists t c, k = t ++ [c] /\ is_space c = false.
Proof.
  intros [-> | [-> | ->]] Hin; cbn [In SEALED ON OFF] in Hin.
  - destruct Hin as [<-|[<-|[<-|[]]]];
      [exists "seale", "d"%char|exists "Seale", "d"%char|exists "SEALE", "D"%char];
      split; reflexivity.
  - destruct Hin as [<-|[<-|[<-|[]]]];
      [exists "o", "n"%char|exists "O", "n"%char|exists "O", "N"%char];
      split; reflexivity.
  - destruct Hin as [<-|[<-|[<-|[]]]];
      [exists "of", "f"%char|exists "Of", "f"%char|exists "OF", "F"%char];
      split; reflexivity.
Qed.

Lemma one_of_keyword (kws : list str) (k r : str) :
  keywords kws -> In k kws -> one_of kws (k ++ r) = Some r.
Proof.
  intros [-> | [-> | ->]] Hin; cbn [In SEALED ON OFF] in Hin;
    repeat (destruct Hin as [<-|Hin]; [reflexivity|]); contradiction.
Qed.

Lemma one_of_other (k r : str) :
  In k OFF -> one_of ON (k ++ r) = None.
Proof.
  intros Hin; cbn [In OFF] in Hin;
    repeat (destruct Hin as [<-|Hin]; [reflexivity|]); contradiction.
Qed.

Lemma separator_eq (s : str) :
  separator s
  = if match skip_ws s with c :: _ => Ascii.eqb c ":" | [] => false end
    then Some (skip_ws (tl (skip_ws s)))
    else if length (skip_ws s) <? length s then Some (skip_ws s) else None.
Proof.
  unfold separator. destruct (skip_ws s) as [|c r']; [reflexivity|].
  destruct c as [[] [] [] [] [] [] [] []]; reflexivity.
Qed.

(** What the separator reads does not depend on the text after it, when
    that text starts with a key word. *)
Lemma separator_stable (s r3 : str) :
  separator s = Some r3 ->
  exists sepc,
    s = sepc ++ r3
    /\ forall x t, is_space x = false -> Ascii.eqb x ":" = false ->
                   separator (sepc ++ x :: t) = Some (x :: t).
Proof.
  rewrite separator_eq.
  destruct (dropwhile_split is_space s) as (ws & E & Hws). fold (skip_ws s) in E.
  assert (Hnew : forall x t, is_space x = false -> Ascii.eqb x ":" = false ->
                 ws <> [] -> separator (ws ++ x :: t) = Some (x :: t)).
  { intros x t Hx Hc Hne. rewrite separator_eq. unfold skip_ws.
    rewrite dropwhile_app, dropwhile_stop by assumption. rewrite Hc.
    rewrite length_app. destruct ws; [contradiction|]. cbn [length].
    replace (S (length t) <? S (length ws) + S (length t)) with true
      by (symmetry; apply Nat.ltb_lt; lia). reflexivity. }
  destruct (skip_ws s) as [|c r'] eqn:Er.
  - destruct (length (@nil ascii) <? length s) eqn:Hl; [|discriminate].
    intros [= <-]. exists ws. split; [exact E|]. intros x t Hx Hc.
    apply Hnew; auto. intros ->. rewrite E in Hl. discriminate Hl.
  - pose proof (dropwhile_head _ _ _ _ Er) as Hcs.
    destruct (Ascii.eqb c ":") eqn:Hcc.
    + intros [= <-]. cbn [tl].
      destruct (dropwhile_split is_space r') as (ws' & E' & Hws').
      fold (skip_ws r') in E'.
      exists (ws ++ c :: ws'). split.
      * rewrite <- app_assoc. cbn [app]. rewrite <- E'. exact E.
      * intros x t Hx Hc. rewrite separator_eq. unfold skip_ws.
        rewrite <- app_assoc. cbn [app].
        rewrite dropwhile_app, dropwhile_stop by assumption. rewrite Hcc.
        cbn [tl]. rewrite dropwhile_app, dropwhile_stop by assumption.
        reflexivity.
    + destruct (length (c :: r') <? length s) eqn:Hl; [|discriminate].
      intros [= <-]. exists ws. split; [exact E|]. intros x t Hx Hc.
      apply Hnew; auto. intros ->. rewrite E in Hl. cbn [app] in Hl.
      rewrite Nat.ltb_irrefl in Hl. discriminate Hl.
Qed.

Lemma match_marker_eq (kws : list str) (line : str) :
  match_marker kws line
  = match skip_ws line with
    | c :: r1 =>
        if Ascii.eqb c "#" then
          match one_of SEALED (skip_ws r1) with
          | Some r2 =>
              match separator r2 with
              | Some r3 =>
                  match one_of kws r3 with
                  | Some r4 =>
                      if tail_ok r4
                      then Some (firstn (length line - length r4) line, r4)
                      else None
                  | None => None
                  end
              | None => None
              end
          | None => None
          end
        else None
    | [] => None
    end.
Proof.
  unfold match_marker. destruct (skip_ws line) as [|c r1]; [reflexivity|].
  destruct c as [[] [] [] [] [] [] [] []]; reflexivity.
Qed.

Lemma firstn_app_length {A} (p r : list A) :
  firstn (length (p ++ r) - length r) (p ++ r) = p.
Proof.
  rewrite length_app. replace (length p + length r - length r) with (length p) by lia.
  induction p as [|x p IH]; [reflexivity|]. cbn [length app firstn]. f_equal. exact IH.
Qed.

Lemma rstrip_stop (s : str) (c : ascii) :
  is_space c = false -> rstrip (s ++ [c]) = s ++ [c].
Proof.
  intros H. unfold rstrip. rewrite rev_unit, dropwhile_stop by assumption.
  cbn [rev]. rewrite rev_involutive. reflexivity.
Qed.

(** A marker line is its prefix and the text after it; the prefix ends
    with the key word, and what the pattern reads of the prefix does not
    depend on the text after it. *)
Lemma match_marker_split (kws : list str) (line p r4 : str) :
  keywords kws ->
  match_marker kws line = Some (p, r4) ->
  line = p ++ r4 /\ tail_ok r4 = true /\ rstrip p = p
  /\ exists k,
      In k kws
      /\ forall kws' r',
          match_marker kws' (p ++ r')
          = match one_of kws' (k ++ r') with
            | Some r'' =>
                if tail_ok r''
                then Some (firstn (length (p ++ r') - length r'') (p ++ r'), r'')
                else None
            | None => None
            end.
Proof.
  intros Hk. rewrite match_marker_eq.
  destruct (dropwhile_split is_space line) as (ws1 & E1 & Hws1).
  fold (skip_ws line) in E1.
  destruct (skip_ws line) as [|c r1] eqn:Es; [discriminate|].
  destruct (Ascii.eqb c "#") eqn:Hc; [|discriminate].
  apply Ascii.eqb_eq in Hc. subst c.
  destruct (one_of SEALED (skip_ws r1)) as [r2|] eqn:E2; [|discriminate].
  destruct (separator r2) as [r3|] eqn:E3; [|discriminate].
  destruct (one_of kws r3) as [r4'|] eqn:E4; [|discriminate].
  destruct (tail_ok r4') eqn:E5; [|discriminate].
  intros [= <- ->].
  destruct (dropwhile_split is_space r1) as (ws2 & Er1 & Hws2).
  fold (skip_ws r1) in Er1.
  destruct (one_of_split _ _ _ E2) as (k1 & Hk1 & Ek1).
  destruct (separator_stable _ _ E3) as (sepc & Er2 & Hsep).
  destruct (one_of_split _ _ _ E4) as (k & Hkin & Ek).
  destruct (keyword_head SEALED k1 (or_introl eq_refl) Hk1) as (c1 & t1 & Ec1 & Hs1 & _).
  destruct (keyword_head kws k Hk Hkin) as (c & t & Ec & Hs & Hcolon).
  destruct (keyword_last kws k Hk Hkin) as (t' & z & Ez & Hz).
  set (C := ws1 ++ "#"%char :: ws2 ++ k1 ++ sepc).
  assert (Eline : line = (C ++ k) ++ r4).
  { rewrite E1, Er1, Ek1, Er2, Ek. unfold C.
    repeat (rewrite <- ?app_assoc; cbn [app]). reflexivity. }
  rewrite Eline, firstn_app_length.
  split; [reflexivity|]. split; [exact E5|]. split.
  { rewrite Ez, app_assoc. apply rstrip_stop. exact Hz. }
  exists k. split; [exact Hkin|]. intros kws' r'.
  rewrite match_marker_eq. unfold C, skip_ws.
  repeat (rewrite <- ?app_assoc; cbn [app]).
  rewrite dropwhile_app by assumption.
  rewrite dropwhile_stop by reflexivity.
  replace (Ascii.eqb "#" "#") with true by reflexivity.
  rewrite dropwhile_app by assumption.
  rewrite Ec1. cbn [app]. rewrite dropwhile_stop by assumption.
  change (c1 :: t1 ++ sepc ++ k ++ r') with ((c1 :: t1) ++ sepc ++ k ++ r').
  rewrite <- Ec1.
  rewrite (one_of_keyword SEALED k1 _ (or_introl eq_refl) Hk1).
  rewrite Ec at 1. cbn [app]. rewrite Hsep by assumption.
  change (c :: t ++ r') with ((c :: t) ++ r'). rewrite <- Ec.
  reflexivity.
Qed.

Lemma match_marker_restamp (kws : list str) (line p r4 r' : str) :
  keywords kws ->
  match_marker kws line = Some (p, r4) ->
  tail_ok r' = true ->
  match_marker kws (p ++ r') = Some (p, r').
Proof.
  intros Hk H Hr. destruct (match_marker_split _ _ _ _ Hk H) as (_ & _ & _ & k & Hin & E).
  rewrite E, one_of_keyword, Hr, firstn_app_length by assumption. reflexivity.
Qed.

Lemma match_marker_other (line p r4 r' : str) :
  match_marker OFF line = Some (p, r4) ->
  match_marker ON (p ++ r') = None.
Proof.
  intros H.
  destruct (match_marker_split OFF _ _ _ (or_intror (or_intror eq_refl)) H)
    as (_ & _ & _ & k & Hin & E).
  rewrite E, one_of_other by assumption. reflexivity.
Qed.

(** ** The fingerprint as a suffix *)

Lemma hex_digit_no_space (n : nat) : is_space (hex_digit n) = false.
Proof.
  unfold hex_digit.
  do 16 (destruct n as [|n]; [reflexivity|]). destruct n; reflexivity.
Qed.

Lemma no_space_app (a b : str) :
  no_space (a ++ b) = no_space a && no_space b.
Proof. apply forallb_app. Qed.

Lemma hexdigest_no_space (msg : list N) : no_space (MD5.hexdigest msg) = true.
Proof.
  unfold MD5.hexdigest. induction (MD5.digest msg) as [|b l IH]; [reflexivity|].
  cbn [flat_map]. rewrite no_space_app, IH. unfold MD5.hex_of_byte, no_space.
  cbn [forallb]. rewrite !hex_digit_no_space. reflexivity.
Qed.

Lemma no_space_skipn (n : nat) (s : str) :
  no_space s = true -> no_space (skipn n s) = true.
Proof.
  intros H. rewrite <- (firstn_skipn n s), no_space_app in H.
  apply andb_prop in H. tauto.
Qed.

Lemma truncated_md5_no_space (i : nat) (content : str) :
  no_space (truncated_md5 i content) = true.
Proof. apply no_space_skipn, hexdigest_no_space. Qed.

Lemma no_space_dropwhile (s : str) :
  no_space s = true -> dropwhile is_space s = s.
Proof.
  destruct s as [|c s]; [reflexivity|]. unfold no_space. cbn [forallb]. intros H.
  apply andb_prop in H. destruct H as [H _]. apply negb_true_iff in H.
  apply dropwhile_stop. exact H.
Qed.

Lemma no_space_no_newline (s : str) :
  no_space s = true -> no_newline_but_last s = true.
Proof.
  induction s as [|c s IH]; [reflexivity|]. unfold no_space. cbn [forallb].
  intros H. apply andb_prop in H. destruct H as [Hc Hs].
  cbn [no_newline_but_last]. destruct s as [|d s]; [reflexivity|].
  rewrite (IH Hs), andb_true_r. apply negb_true_iff in Hc.
  destruct (is_nl c) eqn:Hn; [|reflexivity]. unfold is_nl in Hn.
  apply Ascii.eqb_eq in Hn. subst c. discriminate Hc.
Qed.

Lemma no_space_rev (s : str) : no_space (rev s) = no_space s.
Proof.
  induction s as [|c s IH]; [reflexivity|]. cbn [rev].
  rewrite no_space_app, IH. unfold no_space. cbn [forallb].
  rewrite andb_true_r. apply andb_comm.
Qed.

Lemma no_space_rstrip (s : str) : no_space s = true -> rstrip s = s.
Proof.
  intros H. unfold rstrip. rewrite no_space_dropwhile by (rewrite no_space_rev; exact H).
  apply rev_involutive.
Qed.

Lemma tail_ok_stamp (h : str) : no_space h = true -> tail_ok (" " ++ h) = true.
Proof.
  intros H. unfold tail_ok, skip_ws. cbn [app dropwhile].
  replace (is_space " ") with true by reflexivity.
  rewrite no_space_dropwhile by exact H. destruct h as [|c h]; [reflexivity|].
  rewrite no_space_no_newline by exact H. cbn [length].
  replace (S (length h) <? S (S (length h))) with true
    by (symmetry; apply Nat.ltb_lt; lia).
  reflexivity.
Qed.

Lemma strip_stamp (h : str) : no_space h = true -> strip (" " ++ h) = h.
Proof.
  intros H. unfold strip, lstrip. cbn [app dropwhile].
  replace (is_space " ") with true by reflexivity.
  rewrite no_space_dropwhile by exact H. apply no_space_rstrip. exact H.
Qed.

(** The marker of a marker line with its suffix replaced by a
    fingerprint. *)
Lemma marker_of_stamp (f : nat) (line h : str) (m : SealMarker) :
  marker_of f line = Some m ->
  no_space h = true ->
  marker_of f (rstrip (prefix m) ++ " " ++ h) = Some (restamp_marker h m).
Proof.
  unfold marker_of, COMMENT_FIRST_RE, COMMENT_LAST_RE. intros H Hh.
  destruct (match_marker ON line) as [[p s]|] eqn:E1.
  - injection H as <-. cbn [prefix].
    destruct (match_marker_split ON _ _ _ (or_intror (or_introl eq_refl)) E1)
      as (_ & _ & -> & _).
    rewrite (match_marker_restamp ON line p s (" " ++ h))
      by (auto using tail_ok_stamp; right; left; reflexivity).
    rewrite strip_stamp by exact Hh. reflexivity.
  - destruct (match_marker OFF line) as [[p s]|] eqn:E2; [|discriminate].
    injection H as <-. cbn [prefix].
    destruct (match_marker_split OFF _ _ _ (or_intror (or_intror eq_refl)) E2)
      as (_ & _ & -> & _).
    rewrite (match_marker_other line p s (" " ++ h)) by exact E2.
    rewrite (match_marker_restamp OFF line p s (" " ++ h))
      by (auto using tail_ok_stamp; right; right; reflexivity).
    rewrite strip_stamp by exact Hh. reflexivity.
Qed.

Lemma restamp_ok (lines : Lines) (blocks : list Block) :
  forall i, Forall block_ok blocks -> Forall block_ok (restamp lines i blocks).
Proof.
  induction blocks as [|b rest IH]; intros i H; [constructor|].
  inversion H as [|? ? (H1 & H2 & H3 & _) Hrest]; subst.
  cbn [restamp]. constructor; [|apply IH; assumption].
  unfold block_ok, restamp_marker. cbn [first last marker_kind lineno suffix].
  repeat split; auto. eexists. split; reflexivity.
Qed.

(** The markers of the sealed lines are those of the lines with the
    fingerprints for suffixes. *)
Lemma extract_render (lines : Lines) (blocks : list Block) :
  forall i pos,
    pos <= length lines ->
    Forall block_ok blocks ->
    extract_markers_from pos (skipn pos lines) = markers_of blocks ->
    extract_markers_from pos (render lines i pos blocks)
    = markers_of (restamp lines i blocks).
Proof.
  induction blocks as [|b rest IH]; intros i pos Hpos Hok H; [exact H|].
  inversion Hok as [|? ? Hb Hrest]; subst.
  destruct (extract_block _ _ _ _ Hpos Hb H)
    as (H1 & H2 & H3 & Hgap & (x1 & _ & Hm1) & Hbody & (x2 & _ & Hm2) & Hnext).
  cbn [render restamp markers_of flat_map].
  fold (markers_of (restamp lines (S i) rest)).
  rewrite extract_app, Hgap, slice_length by lia. cbn [app].
  replace (pos + (lineno (first b) - pos)) with (lineno (first b)) by lia.
  rewrite extract_cons. unfold stamped at 1.
  rewrite (marker_of_stamp _ _ _ _ Hm1) by apply truncated_md5_no_space.
  cbn [app]. f_equal.
  rewrite extract_app, Hbody, body_length by lia. cbn [app].
  replace (S (lineno (first b)) + (lineno (last b) - S (lineno (first b))))
    with (lineno (last b)) by lia.
  rewrite extract_cons. unfold stamped at 1.
  rewrite (marker_of_stamp _ _ _ _ Hm2) by apply truncated_md5_no_space.
  cbn [app]. f_equal. rewrite Nat.add_1_r. apply IH; auto.
Qed.

(** ** Sealing the sealed lines *)

Lemma skipn_app_length {A} (p r : list A) : skipn (length p) (p ++ r) = r.
Proof. induction p as [|x p IH]; [reflexivity|]. exact IH. Qed.

Lemma firstn_app_exact {A} (p r : list A) : firstn (length p) (p ++ r) = p.
Proof.
  induction p as [|x p IH]; [reflexivity|]. cbn [length app firstn]. f_equal. exact IH.
Qed.

Lemma slice_mid {A} (p b c : list A) (i j : nat) :
  length p = i -> j = i + length b -> slice (p ++ b ++ c) i j = b.
Proof.
  intros <- ->. unfold slice. rewrite skipn_app_length.
  replace (length p + length b - length p) with (length b) by lia.
  apply firstn_app_exact.
Qed.

Lemma restamp_first (lines : Lines) (i : nat) (b : Block) (rest : list Block) :
  restamp lines i (b :: rest)
  = mkBlock (restamp_marker (truncated_md5 i (content_of lines b)) (first b))
            (restamp_marker (truncated_md5 i (content_of lines b)) (last b))
    :: restamp lines (S i) rest.
Proof. reflexivity. Qed.

(** Sealing the sealed lines, from the line [pos] on; [p] holds the lines
    before. *)
Lemma render_restamp (lines : Lines) (blocks : list Block) :
  forall i pos p,
    length p = pos ->
    chain pos blocks (length lines) ->
    render (p ++ render lines i pos blocks) i pos (restamp lines i blocks)
    = render lines i pos blocks.
Proof.
  induction blocks as [|b rest IH]; intros i pos p Hp Hc.
  - cbn [render restamp]. subst pos. apply skipn_app_length.
  - destruct Hc as (H1 & H2 & H3 & H4).
    rewrite restamp_first.
    set (h := truncated_md5 i (content_of lines b)).
    assert (Hgap : length (slice lines pos (lineno (first b)))
                   = lineno (first b) - pos) by (apply slice_length; lia).
    assert (Hlen : length (body lines b) = lineno (last b) - S (lineno (first b)))
      by (apply body_length; lia).
    set (out := p ++ render lines i pos (b :: rest)).
    assert (Hbody : body out (mkBlock (restamp_marker h (first b))
                                      (restamp_marker h (last b)))
                    = body lines b).
    { unfold body, out. cbn [first last lineno restamp_marker render].
      fold (body lines b).
      set (R := render lines (S i) (lineno (last b) + 1) rest).
      set (gap := slice lines pos (lineno (first b))) in *.
      set (s1 := stamped lines i b (first b)).
      set (s2 := stamped lines i b (last b)).
      replace (p ++ gap ++ [s1] ++ body lines b ++ [s2] ++ R)
        with ((p ++ gap ++ [s1]) ++ body lines b ++ ([s2] ++ R))
        by (repeat (rewrite <- ?app_assoc; cbn [app]); reflexivity).
      apply (slice_mid (p ++ gap ++ [s1]) (body lines b) ([s2] ++ R)).
      - rewrite !length_app, Hgap. cbn [length]. lia.
      - rewrite Hlen. lia. }
    assert (Hs : forall m,
               stamped out i (mkBlock (restamp_marker h (first b))
                                      (restamp_marker h (last b)))
                 (restamp_marker h m)
               = stamped lines i b m).
    { intros m. unfold stamped, content_of. rewrite Hbody. reflexivity. }
    cbn [render]. rewrite Hbody.
    cbn [first last]. rewrite !Hs.
    cbn [lineno restamp_marker].
    f_equal; [|f_equal; f_equal; f_equal].
    + unfold out. cbn [render].
      apply (slice_mid p (slice lines pos (lineno (first b)))); [exact Hp|].
      rewrite Hgap. lia.
    + unfold out. rewrite render_cons, app_assoc, Nat.add_1_r.
      apply IH; [|exact H4].
      rewrite length_app, sealed_block_length by lia. lia.
Qed.

(** C7: when [seal] succeeds on some lines, it succeeds on the sealed
    lines and returns them as they are. *)
Theorem seal_idempotent (lines sealed : Lines) :
  seal lines = Returned (Some sealed, None) ->
  seal sealed = Returned (Some sealed, None).
Proof.
  intros H. destruct (seal_returned _ _ H) as (blocks & Hp & E & Hok).
  destruct blocks as [|b0 bs].
  - cbn [render skipn] in E. subst sealed. exact H.
  - destruct Hok as [Hnil|Hok]; [discriminate|].
    destruct (parse_chain _ _ Hp) as (Hb & Hm & Hc).
    assert (Hp' : parse_blocks (extract_markers sealed)
                  = Returned (Some (restamp lines 0 (b0 :: bs)), None)).
    { unfold extract_markers, parse_blocks. rewrite E.
      rewrite extract_render by (auto; lia).
      apply (parse_blocks_loop_markers _ []). apply restamp_ok. exact Hb. }
    rewrite (seal_render _ _ Hp'). rewrite restamp_first.
    rewrite <- restamp_first.
    replace (render sealed 0 0 (restamp lines 0 (b0 :: bs))) with sealed.
    + unfold assert_lines. rewrite Hok. reflexivity.
    + rewrite E at 2. symmetry.
      rewrite E at 1. apply (render_restamp lines (b0 :: bs) 0 0 []); auto.
Qed.

Lemma seal_idempotent_witness :
  seal ["# sealed: on 88209294"; "# sealed: off 88209294"]
  = Returned (Some ["# sealed: on 88209294"; "# sealed: off 88209294"], None).
Proof.
  apply (seal_idempotent ["# sealed: on"; "# sealed: off"]).
  vm_compute. reflexivity.
Defined.

(** ** Setting the tags *)

Lemma line_ok_app (a b : str) : line_ok (a ++ b) = line_ok a && line_ok b.
Proof. unfold line_ok. rewrite existsb_app, negb_orb. reflexivity. Qed.

Lemma line_ok_rev (s : str) : line_ok (rev s) = line_ok s.
Proof.
  induction s as [|c s IH]; [reflexivity|]. cbn [rev]. rewrite line_ok_app, IH.
  change (c :: s) with ([c] ++ s). rewrite line_ok_app. apply andb_comm.
Qed.

Lemma not_linebreak_ok (c : ascii) : is_linebreak c = false -> line_ok [c] = true.
Proof.
  unfold is_linebreak, line_ok. cbn [existsb]. generalize (code c). intros n.
  nat_bool.
Qed.

(** The lines of [splitlines] hold no new line and no carriage return. *)
Lemma splitlines_from_ok (n : nat) :
  forall s cur,
    length s <= n -> line_ok cur = true ->
    forallb line_ok (splitlines_from cur s) = true.
Proof.
  induction n as [|n IH]; intros s cur Hn Hcur.
  - destruct s; [|simpl in Hn; lia]. cbn [splitlines_from].
    destruct cur; [reflexivity|]. cbn [forallb]. rewrite line_ok_rev, Hcur. reflexivity.
  - destruct s as [|c r].
    + cbn [splitlines_from].
      destruct cur; [reflexivity|]. cbn [forallb]. rewrite line_ok_rev, Hcur. reflexivity.
    + cbn [length] in Hn. cbn [splitlines_from].
      destruct (is_linebreak c) eqn:Hc.
      * cbn [forallb]. rewrite line_ok_rev, Hcur. cbn [andb].
        destruct r as [|d r']; [reflexivity|].
        cbn [length] in Hn.
        destruct ((code c =? 13) && (code d =? 10)); apply IH; auto;
          cbn [length]; lia.
      * apply IH; [lia|]. change (c :: cur) with ([c] ++ cur).
        rewrite line_ok_app, Hcur, not_linebreak_ok by exact Hc. reflexivity.
Qed.

Lemma new_Lines_splitlines (s : str) :
  new_Lines (splitlines s) = Returned (splitlines s).
Proof.
  unfold new_Lines, splitlines.
  rewrite (splitlines_from_ok (length s)) by auto. reflexivity.
Qed.

(** The errors of [verify_blocks] are the messages on blocks of the
    text. *)
Lemma verify_loop_errors (lines : Lines) (n : nat) (blocks : list Block) :
  forall m ok errs ok' errs',
    verify_loop lines n blocks m ok errs = (ok', errs') ->
    forall msg, In msg errs' ->
                In msg errs \/ exists b, In b blocks /\ msg = invalid_hash b.
Proof.
  induction blocks as [|block rest IH]; intros m ok errs ok' errs' H msg Hm.
  - injection H as <- <-. auto.
  - cbn [verify_loop] in H.
    destruct (fold_left (verify_index lines block) (seq m (n - m)) (false, m, ok))
      as [[matched m1] ok1].
    destruct (IH _ _ _ _ _ H msg Hm) as [Hin|(b & Hb & E)].
    + destruct (negb matched); [|left; exact Hin].
      apply in_app_or in Hin. destruct Hin as [Hin|[<-|[]]]; [left; exact Hin|].
      right. exists block. split; [left; reflexivity|reflexivity].
    + right. exists b. split; [right; exact Hb|exact E].
Qed.

(** C10: on a widget without tag, when the blocks of the text can not be
    parsed, [set_tags] returns the error of [parse_blocks] alone, and when
    [verify_blocks] reports errors, [set_tags] returns these errors, each
    the message on the hash of a block with the number of its line; in
    both cases, and whenever [set_tags] returns errors, the widget is left
    as it is, so without any tagged range, also when some blocks were
    verified. *)
Theorem set_tags_atomic (w : Text) :
  seal_ranges w = [] ->
  let lines := splitlines (get_range w 0 (END w)) in
  (forall e,
      parse_blocks (extract_markers lines) = Returned (None, Some e) ->
      set_tags w = Returned ([e], w))
  /\ (forall blocks ok_blocks errors,
         parse_blocks (extract_markers lines) = Returned (Some blocks, None) ->
         verify_blocks lines blocks = Returned (ok_blocks, errors) ->
         errors <> [] ->
         set_tags w = Returned (errors, w)
         /\ Forall
              (fun msg =>
                 exists b,
                   In b blocks
                   /\ msg
                      = "The hash of the sealed block starting at line "
                        ++ str_of_nat (lineno (first b) + 1)
                        ++ " is invalid. Did you seal the content of the file properly with thonny-seal?")
              errors)
  /\ (forall errors w',
         set_tags w = Returned (errors, w') ->
         errors <> [] ->
         w' = w /\ seal_ranges w' = [] /\ check_tags w' = Returned None).
Proof.
  intros Hw lines.
  assert (Hc : check_tags w = Returned None).
  { unfold check_tags. rewrite Hw. reflexivity. }
  assert (Hs : set_tags w
               = '(blocks, error) <- parse_blocks (extract_markers lines) ;;
                 match error with
                 | Some e => Returned ([e], w)
                 | None =>
                     match blocks with
                     | None => Raised AssertionError
                     | Some blocks =>
                         '(ok_blocks, errors) <- verify_blocks lines blocks ;;
                         match errors with
                         | _ :: _ => Returned (errors, w)
                         | [] => Returned ([], fold_left (tag_block lines) ok_blocks w)
                         end
                     end
                 end).
  { unfold set_tags. rewrite new_Lines_splitlines. reflexivity. }
  split; [|split].
  - intros e Hp. rewrite Hs, Hp. reflexivity.
  - intros blocks ok_blocks errors Hp Hv Hne. split.
    + rewrite Hs, Hp. cbn [bind]. rewrite Hv. cbn [bind].
      destruct errors; [contradiction|reflexivity].
    + unfold verify_blocks in Hv.
      destruct (ranges_valid lines blocks); cbn [require bind] in Hv; [|discriminate Hv].
      destruct (non_overlapping blocks); cbn [require bind] in Hv; [|discriminate Hv].
      injection Hv as Hv. apply Forall_forall. intros msg Hm.
      destruct (verify_loop_errors _ _ _ _ _ _ _ _ Hv msg Hm) as [[]|(b & Hb & ->)].
      exists b. split; [exact Hb|reflexivity].
  - intros errors w' H Hne. rewrite Hs in H.
    destruct (parse_blocks (extract_markers lines)) as [[blocks error]| |];
      cbn [bind] in H; try discriminate H.
    assert (E : w' = w).
    { destruct error as [e|]; [injection H as _ <-; reflexivity|].
      destruct blocks as [blocks|]; [|discriminate H].
      destruct (verify_blocks lines blocks) as [[ok_blocks errs]| |];
        cbn [bind] in H; try discriminate H.
      destruct errs as [|e errs]; [|injection H as _ <-; reflexivity].
      injection H as <- _. contradiction. }
    subst w'. auto.
Qed.

Lemma set_tags_atomic_witness :
  (set_tags open_block_file
   = Returned (["Unexpected open block at the end. The block started at line 2."],
               open_block_file)
   /\ seal_ranges open_block_file = [])
  /\ (set_tags broken_seal_file
      = Returned (["The hash of the sealed block starting at line 3 is invalid. Did you seal the content of the file properly with thonny-seal?"],
                  broken_seal_file)
      /\ seal_ranges broken_seal_file = []
      /\ check_tags broken_seal_file = Returned None).
Proof.
  split.
  - split; [|reflexivity].
    apply (proj1 (set_tags_atomic open_block_file eq_refl)).
    vm_compute. reflexivity.
  - destruct (proj1 (proj2 (set_tags_atomic broken_seal_file eq_refl))
                [mkBlock (mkMarker First 0 "# sealed: on" (Some "88209294"))
                         (mkMarker Last 1 "# sealed: off" (Some "88209294"));
                 mkBlock (mkMarker First 2 "# sealed: on" (Some "00000000"))
                         (mkMarker Last 3 "# sealed: off" (Some "00000000"))]
                [mkBlock (mkMarker First 0 "# sealed: on" (Some "88209294"))
                         (mkMarker Last 1 "# sealed: off" (Some "88209294"))]
                ["The hash of the sealed block starting at line 3 is invalid. Did you seal the content of the file properly with thonny-seal?"])
      as (H & _).
    + vm_compute. reflexivity.
    + vm_compute. reflexivity.
    + discriminate.
    + split; [exact H|].
      apply (proj2 (proj2 (set_tags_atomic broken_seal_file eq_refl)) _ _ H).
      discriminate.
Defined.

(** ** The lines of the widget *)

Lemma get_chars (w : Text) (i : nat) : get w i = nth_error (chars w) i.
Proof. unfold get, chars. symmetry. apply nth_error_map. Qed.

Lemma chars_length (w : Text) : length (chars w) = length w.
Proof. apply length_map. Qed.

Lemma newlines_app (a b : str) : newlines (a ++ b) = newlines a + newlines b.
Proof. unfold newlines. rewrite filter_app, length_app. reflexivity. Qed.

Lemma firstn_add {A} (l : list A) (p n : nat) :
  firstn (p + n) l = firstn p l ++ firstn n (skipn p l).
Proof.
  revert l. induction p as [|p IH]; intros l; [reflexivity|].
  destruct l as [|x l]; [destruct n; reflexivity|].
  cbn [plus firstn skipn app]. f_equal. apply IH.
Qed.

Lemma newlines_before_le (s : str) (p q : nat) :
  p <= q -> newlines_before s p <= newlines_before s q.
Proof.
  intros H. unfold newlines_before. replace q with (p + (q - p)) by lia.
  rewrite firstn_add, newlines_app. lia.
Qed.

Lemma firstn_S_nth {A} (l : list A) (q : nat) (c : A) :
  nth_error l q = Some c -> firstn (S q) l = firstn q l ++ [c].
Proof.
  revert l. induction q as [|q IH]; intros [|x l] H; try discriminate.
  - injection H as ->. reflexivity.
  - cbn [firstn app]. f_equal. apply IH. exact H.
Qed.

Lemma newlines_before_step (s : str) (q : nat) (c : ascii) :
  nth_error s q = Some c ->
  newlines_before s (S q) = newlines_before s q + (if is_nl c then 1 else 0).
Proof.
  intros H. unfold newlines_before. rewrite (firstn_S_nth _ _ _ H), newlines_app.
  f_equal. unfold newlines. cbn [filter]. destruct (is_nl c); reflexivity.
Qed.

Lemma takewhile_length {A} (p : A -> bool) (l : list A) :
  length (takewhile p l) <= length l.
Proof.
  induction l as [|x l IH]; [apply le_n|]. cbn [takewhile].
  destruct (p x); cbn [length]; lia.
Qed.

Lemma takewhile_firstn {A} (p : A -> bool) (l : list A) :
  firstn (length (takewhile p l)) l = takewhile p l.
Proof.
  induction l as [|x l IH]; [reflexivity|]. cbn [takewhile].
  destruct (p x); [|reflexivity]. cbn [length firstn]. f_equal. exact IH.
Qed.

Lemma takewhile_all {A} (p : A -> bool) (l : list A) :
  forallb p (takewhile p l) = true.
Proof.
  induction l as [|x l IH]; [reflexivity|]. cbn [takewhile].
  destruct (p x) eqn:E; [|reflexivity]. cbn [forallb]. rewrite E, IH. reflexivity.
Qed.

Lemma takewhile_stop {A} (p : A -> bool) (l : list A) :
  match nth_error l (length (takewhile p l)) with
  | Some c => p c = false
  | None => length (takewhile p l) = length l
  end.
Proof.
  induction l as [|x l IH]; [reflexivity|]. cbn [takewhile].
  destruct (p x) eqn:E; [|exact E]. cbn [length nth_error].
  destruct (nth_error l (length (takewhile p l))); [exact IH|]. f_equal. exact IH.
Qed.

Lemma takewhile_app_stop {A} (p : A -> bool) (a l : list A) :
  forallb p a = true ->
  match l with x :: _ => p x = false | [] => True end ->
  takewhile p (a ++ l) = a.
Proof.
  intros Ha Hl. induction a as [|y a IH].
  - destruct l as [|x l]; [reflexivity|]. cbn [app takewhile]. rewrite Hl. reflexivity.
  - cbn [forallb] in Ha. apply andb_prop in Ha. destruct Ha as [Hy Ha].
    cbn [app takewhile]. rewrite Hy. f_equal. auto.
Qed.

Lemma no_newlines (w : Text) :
  forallb not_nl w = true -> newlines (chars w) = 0.
Proof.
  induction w as [|c w IH]; [reflexivity|]. cbn [forallb]. intros H.
  apply andb_prop in H. destruct H as [Hc H]. unfold not_nl in Hc.
  apply negb_true_iff in Hc. unfold newlines, chars. cbn [map filter].
  rewrite Hc. apply IH. exact H.
Qed.

(** The start of a line, as the widget finds it. *)
Lemma line_offset_spec (w : Text) :
  forall k off p,
    line_offset w k off = Some p ->
    exists q,
      p = off + q /\ q <= length w /\ newlines_before (chars w) q = k
      /\ (q = 0 \/ is_newline (get w (q - 1)) = true).
Proof.
  induction w as [|c r IH]; intros k off p H.
  - destruct k; [|discriminate]. injection H as <-. exists 0.
    repeat split; auto; lia.
  - destruct k as [|k'].
    + injection H as <-. exists 0. repeat split; auto; lia.
    + cbn [line_offset] in H.
      destruct (IH _ _ _ H) as (q & -> & Hq & Hn & Hc).
      exists (S q). split; [lia|]. split; [cbn [length]; lia|].
      assert (Hs : newlines_before (chars (c :: r)) (S q)
                   = (if is_nl (chr c) then 1 else 0) + newlines_before (chars r) q).
      { unfold newlines_before, newlines, chars. cbn [map firstn filter].
        destruct (is_nl (chr c)); reflexivity. }
      rewrite Hs, Hn. split.
      * destruct (is_nl (chr c)); lia.
      * right. replace (S q - 1) with q by lia. destruct q as [|q'].
        -- unfold get. cbn [nth_error option_map is_newline].
           destruct (is_nl (chr c)) eqn:E; [reflexivity|].
           unfold newlines_before in Hn. cbn in Hn. discriminate Hn.
        -- destruct Hc as [Hc|Hc]; [discriminate|].
           replace (S q' - 1) with q' in Hc by lia.
           unfold get in *. cbn [nth_error]. exact Hc.
Qed.

Lemma is_nl_eq (c : ascii) : is_nl c = true -> c = NL.
Proof. unfold is_nl. apply Ascii.eqb_eq. Qed.

Lemma splitlines_from_cons (cur : str) (c : ascii) (s : str) :
  negb (is_linebreak c) || is_nl c = true ->
  splitlines_from cur (c :: s)
  = if is_nl c then rev cur :: splitlines_from [] s
    else splitlines_from (c :: cur) s.
Proof.
  intros H. cbn [splitlines_from]. destruct (is_nl c) eqn:E.
  - apply is_nl_eq in E. subst c. change (is_linebreak NL) with true.
    cbn iota. f_equal. destruct s; reflexivity.
  - rewrite orb_false_r in H. apply negb_true_iff in H. rewrite H. reflexivity.
Qed.

Lemma line_offset_0 (w : Text) (off : nat) : line_offset w 0 off = Some off.
Proof. destruct w; reflexivity. Qed.

(** The line number [k] of [splitlines] is the text from the start of the
    line number [k] of the widget to its new line. *)
Lemma lines_offsets (w : Text) :
  forall cur k off,
    only_new_lines w = true ->
    k < length (splitlines_from cur (chars w)) ->
    exists p,
      line_offset w k off = Some p /\ off <= p
      /\ nth k (splitlines_from cur (chars w)) []
         = (if k =? 0 then rev cur else [])
           ++ chars (takewhile not_nl (skipn (p - off) w)).
Proof.
  induction w as [|c r IH]; intros cur k off Hnl Hk.
  - cbn [chars map splitlines_from] in *. destruct cur as [|x cur]; [cbn in Hk; lia|].
    cbn [length] in Hk. assert (k = 0) by lia. subst k.
    exists off. repeat split; auto. rewrite skipn_nil. cbn [takewhile chars map nth Nat.eqb].
    rewrite app_nil_r. reflexivity.
  - cbn [only_new_lines forallb] in Hnl. apply andb_prop in Hnl.
    destruct Hnl as [Hc Hr]. fold (only_new_lines r) in Hr.
    change (chars (c :: r)) with (chr c :: chars r) in *.
    rewrite splitlines_from_cons in * by exact Hc.
    destruct (is_nl (chr c)) eqn:E.
    + destruct k as [|k'].
      * exists off. repeat split; auto. rewrite Nat.sub_diag.
        cbn [skipn takewhile nth Nat.eqb]. unfold not_nl. rewrite E.
        cbn [negb chars map]. rewrite app_nil_r. reflexivity.
      * cbn [length] in Hk.
        destruct (IH [] k' (S off) Hr ltac:(lia)) as (p & Hp & Hle & Hn).
        exists p. cbn [line_offset]. rewrite E. split; [exact Hp|]. split; [lia|].
        cbn [nth Nat.eqb app]. rewrite Hn.
        replace (p - off) with (S (p - S off)) by lia. cbn [skipn].
        destruct (k' =? 0); reflexivity.
    + destruct (IH (chr c :: cur) k (S off) Hr Hk) as (p & Hp & Hle & Hn).
      destruct k as [|k'].
      * rewrite line_offset_0 in Hp. injection Hp as <-.
        exists off. repeat split; auto.
        rewrite Hn, !Nat.sub_diag. cbn [Nat.eqb skipn takewhile rev].
        unfold not_nl at 2. rewrite E. cbn [negb chars map].
        rewrite <- app_assoc. reflexivity.
      * exists p. cbn [line_offset]. rewrite E. split; [exact Hp|]. split; [lia|].
        rewrite Hn. cbn [Nat.eqb app].
        replace (p - off) with (S (p - S off)) by lia. reflexivity.
Qed.

Lemma line_of_widget (w : Text) (k : nat) :
  only_new_lines w = true ->
  k < length (splitlines (chars w)) ->
  exists p,
    line_offset w k 0 = Some p
    /\ nth k (splitlines (chars w)) []
       = chars (takewhile not_nl (skipn p w)).
Proof.
  intros Hnl Hk. destruct (lines_offsets w [] k 0 Hnl Hk) as (p & Hp & _ & Hn).
  exists p. split; [exact Hp|]. unfold splitlines. rewrite Hn, Nat.sub_0_r.
  destruct (k =? 0); reflexivity.
Qed.

Lemma line_offset_start (w : Text) (k p : nat) :
  line_offset w k 0 = Some p -> line_start_of w k p.
Proof.
  intros H. destruct (line_offset_spec _ _ _ _ H) as (q & -> & H1 & H2 & H3).
  cbn [plus]. repeat split; auto.
Qed.

Lemma index_of_start (w : Text) (k p : nat) :
  line_offset w k 0 = Some p -> index_of w (k + 1) 0 = p.
Proof.
  intros H. destruct (line_offset_start _ _ _ H) as (Hp & _).
  unfold index_of, lineend. rewrite Nat.add_sub, H. lia.
Qed.

Lemma index_of_end (w : Text) (k p : nat) :
  line_offset w k 0 = Some p ->
  index_of w (k + 1) (length (chars (takewhile not_nl (skipn p w))))
  = p + length (takewhile not_nl (skipn p w)).
Proof.
  intros H. destruct (line_offset_start _ _ _ H) as (Hp & _).
  unfold index_of, lineend. rewrite Nat.add_sub, H, chars_length.
  pose proof (takewhile_length not_nl (skipn p w)) as Hl.
  rewrite length_skipn in Hl. lia.
Qed.

Lemma line_end_spec (w : Text) (k p : nat) :
  line_start_of w k p ->
  line_end_of w k (p + length (takewhile not_nl (skipn p w))).
Proof.
  intros (Hp & Hn & _).
  pose proof (takewhile_length not_nl (skipn p w)) as Hl.
  rewrite length_skipn in Hl.
  split; [lia|]. split.
  - unfold newlines_before in *. rewrite firstn_add, newlines_app, Hn.
    unfold chars. rewrite skipn_map, firstn_map, takewhile_firstn.
    fold (chars (takewhile not_nl (skipn p w))).
    rewrite no_newlines by apply takewhile_all. lia.
  - pose proof (takewhile_stop not_nl (skipn p w)) as Hs.
    rewrite nth_error_skipn in Hs. unfold get.
    destruct (nth_error w (p + length (takewhile not_nl (skipn p w)))) as [c|].
    + right. unfold not_nl in Hs. apply negb_false_iff in Hs. exact Hs.
    + left. rewrite Hs, length_skipn. lia.
Qed.

(** ** The tags that [set_tags] adds *)

Lemma tag_add_from_chars (w : Text) :
  forall off a b, chars (tag_add_from off w a b) = chars w.
Proof.
  induction w as [|c r IH]; intros off a b; [reflexivity|].
  cbn [tag_add_from]. unfold chars in *. cbn [map chr]. f_equal. apply IH.
Qed.

Lemma chars_same_length (w w' : Text) : chars w = chars w' -> length w = length w'.
Proof. intros H. rewrite <- !chars_length, H. reflexivity. Qed.

Lemma line_offset_chars (w : Text) :
  forall w' k off, chars w = chars w' -> line_offset w k off = line_offset w' k off.
Proof.
  induction w as [|c r IH]; intros [|c' r'] k off H; try discriminate.
  - reflexivity.
  - injection H as Hc Hr. destruct k as [|k]; [reflexivity|].
    cbn [line_offset]. rewrite Hc. apply IH. exact Hr.
Qed.

Lemma takewhile_chars (x : Text) :
  forall y, chars x = chars y ->
            length (takewhile not_nl x) = length (takewhile not_nl y).
Proof.
  induction x as [|c r IH]; intros [|c' r'] H; try discriminate.
  - reflexivity.
  - injection H as Hc Hr. cbn [takewhile]. unfold not_nl at 1 3. rewrite Hc.
    destruct (negb (is_nl (chr c'))); [|reflexivity]. cbn [length]. f_equal.
    apply IH. exact Hr.
Qed.

Lemma lineend_chars (w w' : Text) (i : nat) :
  chars w = chars w' -> lineend w i = lineend w' i.
Proof.
  intros H. unfold lineend. rewrite (chars_same_length _ _ H).
  rewrite (takewhile_chars (skipn i w) (skipn i w')); [reflexivity|].
  unfold chars in *. rewrite <- !skipn_map, H. reflexivity.
Qed.

Lemma index_of_chars (w w' : Text) (line column : nat) :
  chars w = chars w' -> index_of w line column = index_of w' line column.
Proof.
  intros H. unfold index_of. rewrite (line_offset_chars _ _ _ _ H).
  rewrite (chars_same_length _ _ H).
  destruct (line_offset w' (line - 1) 0); [|reflexivity].
  rewrite (lineend_chars _ _ _ H). reflexivity.
Qed.

Lemma block_range_chars (lines : Lines) (w w' : Text) (b : Block) :
  chars w = chars w' -> block_range lines w b = block_range lines w' b.
Proof.
  intros H. unfold block_range. rewrite !(index_of_chars _ _ _ _ H). reflexivity.
Qed.

Lemma tag_block_chars (lines : Lines) (w : Text) (b : Block) :
  chars (tag_block lines w b) = chars w.
Proof. apply tag_add_from_chars. Qed.

Lemma tag_add_from_flag (w : Text) :
  forall off a b i,
    flag sealed (tag_add_from off w a b) i
    = flag sealed w i
      || ((a <=? off + i) && (off + i <? b) && (i <? length w)).
Proof.
  induction w as [|c r IH]; intros off a b i.
  - unfold flag. cbn [tag_add_from]. destruct i; cbn [nth_error length];
      rewrite andb_false_r; reflexivity.
  - cbn [tag_add_from]. destruct i as [|i].
    + unfold flag. cbn [nth_error sealed length]. rewrite Nat.add_0_r.
      replace (0 <? S (length r)) with true by reflexivity.
      rewrite andb_true_r. reflexivity.
    + unfold flag in *. cbn [nth_error length]. rewrite IH.
      replace (S off + i) with (off + S i) by lia.
      replace (S i <? S (length r)) with (i <? length r) by reflexivity.
      reflexivity.
Qed.

Lemma tag_block_flag (lines : Lines) (w : Text) (b : Block) (i : nat) :
  flag sealed (tag_block lines w b) i
  = flag sealed w i
    || ((fst (block_range lines w b) <=? i) && (i <? snd (block_range lines w b))
        && (i <? length w)).
Proof. unfold tag_block, tag_add. rewrite tag_add_from_flag. reflexivity. Qed.

(** The tagged characters after the loop of [set_tags]. *)
Lemma fold_tag_block (lines : Lines) (w0 : Text) (oks : list Block) :
  forall w,
    chars w = chars w0 ->
    chars (fold_left (tag_block lines) oks w) = chars w0
    /\ forall i,
        flag sealed (fold_left (tag_block lines) oks w) i
        = flag sealed w i
          || (existsb (fun b => (fst (block_range lines w0 b) <=? i)
                                && (i <? snd (block_range lines w0 b))) oks
              && (i <? length w0)).
Proof.
  induction oks as [|b oks IH]; intros w H.
  - cbn [fold_left existsb]. split; [exact H|]. intros i.
    rewrite orb_false_r. reflexivity.
  - cbn [fold_left existsb].
    assert (H' : chars (tag_block lines w b) = chars w0)
      by (rewrite tag_block_chars; exact H).
    destruct (IH _ H') as (Hc & Hf). split; [exact Hc|]. intros i.
    rewrite Hf, tag_block_flag, (block_range_chars _ _ _ _ H).
    rewrite (chars_same_length _ _ H).
    destruct (flag sealed w i), (fst (block_range lines w0 b) <=? i),
      (i <? snd (block_range lines w0 b)), (i <? length w0),
      (existsb (fun b0 => (fst (block_range lines w0 b0) <=? i)
                          && (i <? snd (block_range lines w0 b0))) oks);
      reflexivity.
Qed.

(** ** The blocks that [verify_blocks] keeps *)

Lemma fold_verify_index (lines : Lines) (block : Block) (idxs : list nat) :
  forall matched m ok matched' m' ok',
    fold_left (verify_index lines block) idxs (matched, m, ok)
    = (matched', m', ok') ->
    (forall x, In x ok' -> In x ok \/ x = block)
    /\ (forall x, In x ok -> In x ok')
    /\ (matched' = true -> matched = true \/ In block ok').
Proof.
  induction idxs as [|i idxs IH]; intros matched m ok matched' m' ok' H.
  - injection H as <- <- <-. auto.
  - cbn [fold_left] in H. unfold verify_index at 2 in H.
    destruct (negb (str_eqb (truncated_md5 i (content_of lines block))
                      (got_hash block))).
    + eapply IH; eauto.
    + destruct (IH _ _ _ _ _ _ H) as (H1 & H2 & H3). repeat split.
      * intros x Hx. destruct (H1 x Hx) as [Hin| ->]; auto.
        apply in_app_or in Hin. destruct Hin as [Hin|[<-|[]]]; auto.
      * intros x Hx. apply H2, in_or_app. auto.
      * intros _. right. apply H2, in_or_app. right. left. reflexivity.
Qed.

Lemma verify_loop_spec (lines : Lines) (n : nat) (blocks : list Block) :
  forall m ok errs ok' errs',
    verify_loop lines n blocks m ok errs = (ok', errs') ->
    (forall x, In x ok' -> In x ok \/ In x blocks)
    /\ (forall x, In x ok -> In x ok')
    /\ (errs' = [] -> forall b, In b blocks -> In b ok').
Proof.
  induction blocks as [|block rest IH]; intros m ok errs ok' errs' H.
  - injection H as <- <-. repeat split; auto. intros _ b [].
  - cbn [verify_loop] in H.
    destruct (fold_left (verify_index lines block) (seq m (n - m)) (false, m, ok))
      as [[matched m1] ok1] eqn:E.
    destruct (fold_verify_index _ _ _ _ _ _ _ _ _ E) as (F1 & F2 & F3).
    destruct (IH _ _ _ _ _ H) as (H1 & H2 & H3). repeat split.
    + intros x Hx. destruct (H1 x Hx) as [Hin|Hin]; [|right; right; exact Hin].
      destruct (F1 x Hin) as [Hin'| ->]; [left; exact Hin'|right; left; reflexivity].
    + intros x Hx. auto.
    + intros He b [<-|Hb]; [|auto].
      destruct matched.
      * destruct (F3 eq_refl) as [Hf|Hin]; [discriminate|]. auto.
      * exfalso. cbn [negb] in H. clear - H He IH. subst errs'.
        assert (G : forall bs m ok errs ok',
                   verify_loop lines n bs m ok errs = (ok', []) -> errs = []).
        { clear. induction bs as [|b bs IHb]; intros m ok errs ok' H.
          - injection H as _ H. exact H.
          - cbn [verify_loop] in H.
            destruct (fold_left (verify_index lines b) (seq m (n - m)) (false, m, ok))
              as [[matched m1] ok1].
            apply IHb in H. destruct (negb matched); [|exact H].
            destruct errs; discriminate H. }
        apply G in H. destruct errs; discriminate H.
Qed.

(** ** Blocks one after the other *)

Lemma chain_In (blocks : list Block) (pos n : nat) (b : Block) :
  chain pos blocks n -> In b blocks ->
  pos <= lineno (first b) /\ lineno (first b) < lineno (last b)
  /\ lineno (last b) < n.
Proof.
  intros Hc Hin. apply In_nth_error in Hin. destruct Hin as (j & Hj).
  eapply chain_nth; eauto.
Qed.

Lemma chain_apart (blocks : list Block) :
  forall pos n b c,
    chain pos blocks n -> In b blocks -> In c blocks ->
    b = c \/ lineno (last b) < lineno (first c)
    \/ lineno (last c) < lineno (first b).
Proof.
  induction blocks as [|b0 rest IH]; intros pos n b c Hc Hb Hcc; [destruct Hb|].
  destruct Hc as (H1 & H2 & H3 & H4).
  destruct Hb as [->|Hb], Hcc as [->|Hcc].
  - left; reflexivity.
  - right; left. destruct (chain_In _ _ _ _ H4 Hcc). lia.
  - right; right. destruct (chain_In _ _ _ _ H4 Hb). lia.
  - eapply IH; eauto.
Qed.

(** A maximal run of tagged characters is a range of the tag. *)
Lemma run_tag_range {X} (tagged : X -> bool) (l : list X) (s e : nat) :
  s < e ->
  (forall j, s <= j < e -> flag tagged l j = true) ->
  flag tagged l e = false ->
  (s = 0 \/ flag tagged l (s - 1) = false) ->
  In (s, e) (tag_ranges tagged l).
Proof.
  intros Hlt Hin He Hs.
  assert (H : flag tagged l s = true) by (apply Hin; lia).
  rewrite <- tag_ranges_flag in H. apply in_ranges_true in H.
  destruct H as ([s' e'] & Hr & Hb). cbn [fst snd] in Hb.
  destruct (tag_range_run _ _ _ _ _ Hr) as (R1 & R2 & R3 & R4).
  assert (s' = s).
  { destruct (Nat.eq_dec s' s) as [|Hne]; [assumption|]. exfalso.
    destruct Hs as [->|Hs]; [lia|]. rewrite R2 in Hs by lia. discriminate Hs. }
  subst s'.
  assert (e' = e).
  { destruct (Nat.lt_trichotomy e' e) as [Hl|[Hl|Hl]]; [|assumption|]; exfalso.
    - rewrite Hin in R3 by lia. discriminate R3.
    - rewrite R2 in He by lia. discriminate He. }
  subst e'. exact Hr.
Qed.

Lemma get_range_all (w : Text) : get_range w 0 (END w) = chars w.
Proof.
  unfold get_range, slice, END. rewrite Nat.sub_0_r. cbn [skipn].
  rewrite firstn_all. reflexivity.
Qed.

Lemma no_ranges_no_flag (w : Text) (i : nat) :
  seal_ranges w = [] -> flag sealed w i = false.
Proof.
  intros H. rewrite <- (tag_ranges_flag _ sealed w i).
  unfold seal_ranges in H. rewrite H. reflexivity.
Qed.

Lemma line_start_of_chars (w w' : Text) (k p : nat) :
  chars w = chars w' -> line_start_of w k p -> line_start_of w' k p.
Proof.
  intros H (H1 & H2 & H3). unfold line_start_of.
  rewrite get_chars, <- H, <- get_chars, <- (chars_same_length _ _ H). auto.
Qed.

Lemma line_end_of_chars (w w' : Text) (k p : nat) :
  chars w = chars w' -> line_end_of w k p -> line_end_of w' k p.
Proof.
  intros H (H1 & H2 & H3). unfold line_end_of.
  rewrite get_chars, <- H, <- get_chars, <- (chars_same_length _ _ H). auto.
Qed.

(** The range of [tag_add] for a block goes from the start of the line of
    its start marker to the end of the line of its end marker. *)
Lemma block_range_spec (w : Text) (b : Block) :
  only_new_lines w = true ->
  lineno (first b) < length (splitlines (chars w)) ->
  lineno (last b) < length (splitlines (chars w)) ->
  line_start_of w (lineno (first b)) (fst (block_range (splitlines (chars w)) w b))
  /\ line_end_of w (lineno (last b)) (snd (block_range (splitlines (chars w)) w b)).
Proof.
  intros Hnl Hf Hl.
  destruct (line_of_widget _ _ Hnl Hf) as (pf & Hpf & _).
  destruct (line_of_widget _ _ Hnl Hl) as (pl & Hpl & Hn).
  unfold block_range. cbn [fst snd].
  rewrite (index_of_start _ _ _ Hpf), Hn, (index_of_end _ _ _ Hpl).
  split; [apply line_offset_start; assumption|].
  apply line_end_spec, line_offset_start. assumption.
Qed.

(** The lines of the characters between the start of a line and the end
    of a later one. *)
Lemma interval_lines (w : Text) (fc lc a e q : nat) :
  line_start_of w fc a -> line_end_of w lc e -> a <= q < e ->
  fc <= newlines_before (chars w) q
  /\ newlines_before (chars w) q <= lc
  /\ (is_newline (get w q) = true -> newlines_before (chars w) q < lc).
Proof.
  intros (Ha & Hna & _) (He & Hne & _) Hq.
  split; [rewrite <- Hna; apply newlines_before_le; lia|].
  split; [rewrite <- Hne; apply newlines_before_le; lia|].
  intros Hnl. rewrite get_chars in Hnl.
  destruct (nth_error (chars w) q) as [c|] eqn:E; [|discriminate Hnl].
  cbn [is_newline] in Hnl. pose proof (newlines_before_step _ _ _ E) as Hs.
  rewrite Hnl in Hs.
  pose proof (newlines_before_le (chars w) (S q) e ltac:(lia)). lia.
Qed.

(** When [set_tags] reports no error, the ranges of the tag are those of
    the blocks of the text. *)
Lemma set_tags_installs (w w' : Text) :
  seal_ranges w = [] ->
  only_new_lines w = true ->
  set_tags w = Returned ([], w') ->
  exists blocks,
    parse_blocks (extract_markers (splitlines (get_range w 0 (END w))))
    = Returned (Some blocks, None)
    /\ chars w' = chars w
    /\ (forall b, In b blocks -> tagged_block w' b)
    /\ (forall s e,
          In (s, e) (seal_ranges w') ->
          exists b,
            In b blocks
            /\ line_start_of w' (lineno (first b)) s
            /\ line_end_of w' (lineno (last b)) e).
Proof.
  intros Hw Hnl H. unfold set_tags in H.
  rewrite new_Lines_splitlines in H. cbn [bind] in H.
  rewrite get_range_all in *.
  set (lines := splitlines (chars w)) in *.
  destruct (parse_blocks (extract_markers lines)) as [[blocks error]| |] eqn:Hp;
    cbn [bind] in H; try discriminate H.
  destruct error as [e|]; [discriminate H|].
  destruct blocks as [blocks|]; [|discriminate H].
  destruct (verify_blocks lines blocks) as [[oks errs]| |] eqn:Hv;
    cbn [bind] in H; try discriminate H.
  destruct errs as [|e errs]; [|discriminate H]. injection H as <-.
  exists blocks. split; [reflexivity|].
  unfold verify_blocks in Hv.
  destruct (ranges_valid lines blocks); cbn [require bind] in Hv; [|discriminate Hv].
  destruct (non_overlapping blocks); cbn [require bind] in Hv; [|discriminate Hv].
  injection Hv as Hv.
  destruct (verify_loop_spec _ _ _ _ _ _ _ _ Hv) as (Hsub & _ & Hall).
  specialize (Hall eq_refl).
  destruct (parse_chain _ _ Hp) as (_ & _ & Hchain).
  destruct (fold_tag_block lines w oks w eq_refl) as (Hc & Hf).
  set (w' := fold_left (tag_block lines) oks w) in *.
  assert (Hspec : forall c, In c blocks ->
            line_start_of w (lineno (first c)) (fst (block_range lines w c))
            /\ line_end_of w (lineno (last c)) (snd (block_range lines w c))
            /\ lineno (first c) < lineno (last c)).
  { intros c Hin. destruct (chain_In _ _ _ _ Hchain Hin) as (_ & C1 & C2).
    destruct (block_range_spec w c Hnl) as (S1 & S2); fold lines; try lia.
    auto. }
  assert (Hflag : forall i,
            flag sealed w' i = true ->
            exists c, In c blocks
                      /\ fst (block_range lines w c) <= i < snd (block_range lines w c)).
  { intros i Hi. rewrite Hf, (no_ranges_no_flag w i Hw) in Hi. cbn [orb] in Hi.
    apply andb_prop in Hi. destruct Hi as [Hi _].
    apply existsb_exists in Hi. destruct Hi as (c & Hin & Hi).
    apply andb_prop in Hi. destruct Hi as [H1 H2].
    apply Nat.leb_le in H1. apply Nat.ltb_lt in H2.
    exists c. split; [|lia]. destruct (Hsub c Hin) as [[]|]; assumption. }
  assert (Hrange : forall b, In b blocks ->
            In (block_range lines w b) (seal_ranges w')).
  { intros b Hb. destruct (Hspec b Hb) as (Sb & Eb & Hlt).
    rewrite (surjective_pairing (block_range lines w b)).
    set (a := fst (block_range lines w b)) in *.
    set (e := snd (block_range lines w b)) in *.
    apply run_tag_range.
    - destruct (Nat.lt_ge_cases a e) as [|Hge]; [assumption|exfalso].
      destruct Sb as (_ & Sn & _), Eb as (_ & En & _).
      pose proof (newlines_before_le (chars w) e a Hge). lia.
    - intros j Hj. rewrite Hf. apply orb_true_iff. right.
      apply andb_true_iff. split.
      + apply existsb_exists. exists b. split; [apply Hall; exact Hb|].
        fold a e. apply andb_true_iff. split; [apply Nat.leb_le|apply Nat.ltb_lt]; lia.
      + apply Nat.ltb_lt. destruct Eb as (Eb & _). lia.
    - destruct (flag sealed w' e) eqn:He; [exfalso|reflexivity].
      pose proof (flag_length _ _ _ _ He) as Hlen.
      rewrite (chars_same_length _ _ Hc) in Hlen.
      destruct (Hflag e He) as (c & Hin & Hce).
      destruct (Hspec c Hin) as (Sc & Ec & Hltc).
      destruct (interval_lines _ _ _ _ _ _ Sc Ec Hce) as (I1 & I2 & I3).
      destruct Eb as (_ & En & [Hend|Hnl']); [lia|].
      specialize (I3 Hnl').
      destruct (chain_apart _ _ _ _ _ Hchain Hb Hin) as [<-|[Hd|Hd]]; lia.
    - destruct (Nat.eq_dec a 0) as [|Ha]; [left; assumption|right].
      destruct (flag sealed w' (a - 1)) eqn:He; [exfalso|reflexivity].
      destruct (Hflag _ He) as (c & Hin & Hce).
      destruct (Hspec c Hin) as (Sc & Ec & Hltc).
      destruct (interval_lines _ _ _ _ _ _ Sc Ec Hce) as (I1 & I2 & I3).
      destruct Sb as (Sa & Sn & [Hz|Hnl']); [lia|].
      specialize (I3 Hnl').
      assert (Hstep : newlines_before (chars w) a
                      = newlines_before (chars w) (a - 1) + 1).
      { rewrite get_chars in Hnl'.
        destruct (nth_error (chars w) (a - 1)) as [x|] eqn:E; [|discriminate Hnl'].
        cbn [is_newline] in Hnl'.
        pose proof (newlines_before_step _ _ _ E) as Hs. rewrite Hnl' in Hs.
        replace (S (a - 1)) with a in Hs by lia. exact Hs. }
      destruct (chain_apart _ _ _ _ _ Hchain Hb Hin) as [<-|[Hd|Hd]]; lia. }
  split; [exact Hc|]. split.
  - intros b Hb. destruct (Hspec b Hb) as (Sb & Eb & _).
    exists (fst (block_range lines w b)), (snd (block_range lines w b)).
    split; [rewrite <- surjective_pairing; apply Hrange; exact Hb|]. split.
    + apply (line_start_of_chars w); [symmetry; exact Hc|exact Sb].
    + apply (line_end_of_chars w); [symmetry; exact Hc|exact Eb].
  - intros s e Hin.
    destruct (tag_range_run _ _ _ _ _ Hin) as (R1 & R2 & _).
    assert (Hs : flag sealed w' s = true) by (apply R2; lia).
    destruct (Hflag s Hs) as (c & Hcin & Hsc).
    destruct (Hspec c Hcin) as (Sc & Ec & _).
    exists c. split; [exact Hcin|].
    pose proof (Hrange c Hcin) as Hr.
    destruct (separated_apart _ _ _ _ (tag_ranges_separated _ sealed w') Hin Hr)
      as [E|[D|D]]; [|cbn [fst snd] in D; lia|cbn [fst snd] in D; lia].
    rewrite <- E in Sc, Ec. cbn [fst snd] in Sc, Ec. split.
    + apply (line_start_of_chars w); [symmetry; exact Hc|exact Sc].
    + apply (line_end_of_chars w); [symmetry; exact Hc|exact Ec].
Qed.

(** ** The ranges that [check_tags] accepts *)

Lemma check_tags_loop_complete (w : Text) (ranges : list Range) :
  forall prev lo,
    separated lo ranges ->
    match prev with
    | Some (ps, pe) => ps < pe /\ pe < lo
    | None => True
    end ->
    (forall r, In r ranges -> range_ok w r) ->
    check_tags_loop w prev ranges = Returned None.
Proof.
  induction ranges as [|[s e] rest IH]; intros prev lo Hsep Hprev Hok; [reflexivity|].
  destruct Hsep as (H1 & H2 & H3). cbn [fst snd] in H1, H2, H3.
  cbn [check_tags_loop fst snd].
  replace (s <? e) with true by (symmetry; apply Nat.ltb_lt; exact H2).
  cbn [assert bind].
  assert (Hr : check_range w prev (s, e) = None).
  { destruct (Hok (s, e) (or_introl eq_refl)) as (R1 & R2 & R3 & R4).
    cbn [fst snd] in R1, R2, R3, R4. unfold check_range.
    replace (e <=? s) with false by (symmetry; apply Nat.leb_gt; exact H2).
    assert (Hb :
      match COMMENT_FIRST_RE (line_at w s) with
      | None => Some (BadFirstLine (s, e) (line_at w s))
      | Some _ =>
          match COMMENT_LAST_RE (line_at w e) with
          | None => Some (BadLastLine (s, e) (line_at w e))
          | Some _ =>
              if (0 <? s) && negb (is_newline (get w (minus1c s)))
              then Some (NoNewlineBefore (s, e) (get w (minus1c s)))
              else if negb (is_newline (get w e))
              then Some (NoNewlineAtEnd (s, e) (get w e))
              else None
          end
      end = None).
    { destruct (COMMENT_FIRST_RE (line_at w s)); [|contradiction].
      destruct (COMMENT_LAST_RE (line_at w e)); [|contradiction].
      rewrite R2. cbn [negb].
      replace ((0 <? s) && negb (is_newline (get w (minus1c s)))) with false;
        [reflexivity|].
      symmetry. destruct R1 as [->|R1]; [reflexivity|].
      unfold minus1c. rewrite <- Nat.sub_1_r, R1. apply andb_false_r. }
    destruct prev as [[ps pe]|]; [|exact Hb].
    replace ((s <=? ps) || (s <? pe)) with false; [exact Hb|].
    symmetry. apply orb_false_iff. split; [apply Nat.leb_gt|apply Nat.ltb_ge]; lia. }
  rewrite Hr. apply (IH (Some (s, e)) (S e)); auto.
  intros r Hin. apply Hok. right. exact Hin.
Qed.

Lemma check_tags_iff (w : Text) :
  check_tags w = Returned None
  <-> forall r, In r (seal_ranges w) -> range_ok w r.
Proof.
  split.
  - intros H [s e] Hin. unfold range_ok. cbn [fst snd].
    apply (check_tags_loop_ok w _ None H s e Hin).
  - intros H. apply (check_tags_loop_complete w _ None 0); auto.
    apply tag_ranges_separated.
Qed.

(** C5, as amended: when [set_tags] reports no error on a widget without
    tag whose only line breaks are new lines, every block of the text has
    a range of the tag that goes from the start of the line of its start
    marker to the end of the line of its end marker, the new line of that
    line left out, and the widget has no other range of the tag; and
    [check_tags] accepts a widget exactly when every range of the tag
    starts at the start of a line that matches the pattern of the start
    marker and ends at the end of a line that matches the pattern of the
    end marker, before its new line. *)
Theorem set_tags_ranges :
  (forall w w',
      seal_ranges w = [] ->
      only_new_lines w = true ->
      set_tags w = Returned ([], w') ->
      exists blocks,
        parse_blocks (extract_markers (splitlines (get_range w 0 (END w))))
        = Returned (Some blocks, None)
        /\ (forall b, In b blocks -> tagged_block w' b)
        /\ (forall s e,
              In (s, e) (seal_ranges w') ->
              exists b,
                In b blocks
                /\ line_start_of w' (lineno (first b)) s
                /\ line_end_of w' (lineno (last b)) e))
  /\ (forall w,
         check_tags w = Returned None
         <-> forall r, In r (seal_ranges w) -> range_ok w r).
Proof.
  split; [|exact check_tags_iff].
  intros w w' Hw Hnl H.
  destruct (set_tags_installs w w' Hw Hnl H) as (blocks & Hp & _ & Hb & Hr).
  exists blocks. auto.
Qed.

Lemma set_tags_ranges_witness :
  exists blocks,
    parse_blocks
      (extract_markers (splitlines (get_range sealed_file 0 (END sealed_file))))
    = Returned (Some blocks, None)
    /\ (forall b, In b blocks -> tagged_block sealed_file_tagged b)
    /\ (forall s e,
          In (s, e) (seal_ranges sealed_file_tagged) ->
          exists b,
            In b blocks
            /\ line_start_of sealed_file_tagged (lineno (first b)) s
            /\ line_end_of sealed_file_tagged (lineno (last b)) e).
Proof.
  apply (proj1 set_tags_ranges sealed_file sealed_file_tagged).
  - reflexivity.
  - reflexivity.
  - vm_compute. reflexivity.
Defined.

(** C5, as the specification words it, fails on a file with one sealed
    block: the range of the tag starts with the line of the start marker,
    at the offset 0, and not with the line after it. *)
Lemma set_tags_tags_marker_line :
  set_tags sealed_file = Returned ([], sealed_file_tagged)
  /\ parse_blocks
       (extract_markers (splitlines (get_range sealed_file 0 (END sealed_file))))
     = Returned (Some [sealed_file_block], None)
  /\ seal_ranges sealed_file_tagged = [(0, 44)]
  /\ ~ tagged_as_specified sealed_file_tagged sealed_file_block.
Proof.
  split; [vm_compute; reflexivity|]. split; [vm_compute; reflexivity|].
  split; [vm_compute; reflexivity|].
  intros (s & e & Hin & (_ & Hs & _) & _).
  vm_compute in Hin. destruct Hin as [Hin|[]]. injection Hin as <- <-.
  vm_compute in Hs. discriminate Hs.
Qed.

(** The hypothesis on the line breaks is needed: after a form feed the
    line numbers of [splitlines] are not those of the widget, and the tag
    goes to the line of the end marker and its new line. *)
Lemma set_tags_after_form_feed :
  only_new_lines form_feed_file = false
  /\ exists w',
      set_tags form_feed_file = Returned ([], w')
      /\ seal_ranges w' = [(25, 48)]
      /\ check_tags w'
         = Returned (Some (BadFirstLine (25, 48) "# sealed: off 88209294")).
Proof.
  split; [reflexivity|]. eexists. split; [vm_compute; reflexivity|].
  split; vm_compute; reflexivity.
Qed.
